(** * Honeypot API: completion gateway, persona selection and chat orchestration

    A shallow embedding of [key_manager.py], [persona_manager.py] and the
    endpoints of [main.py], followed by the properties of the design
    specification that concern them.

    Conventions.
    - Python [str] is [string], a sequence of 8-bit characters; positions
      in a string count characters. The empty string is written
      [EmptyString].
    - A Python call that may raise is a value of [result]: [Ret v] or
      [Raise e].
    - Values whose Python type is not fixed by the program (what
      [response.json()] yields) are values of [pyval].
    - Requests to the outside world (HTTP posts, log lines, the proof
      renderer) are recorded as a list of [event]s next to the result. *)

From Stdlib Require Import ZArith QArith Lia Ascii.
From stdpp Require Import base list strings gmap.

Local Open Scope Z_scope.
Local Open Scope nat_scope.

(** ** Python values and exceptions *)

Module Py.

(** The exception classes that occur; all of them derive from
    [Exception], so a clause [except Exception] catches each one. *)
Inductive exn : Type :=
| KeyError
| IndexError
| TypeError
| AttributeError
| JSONDecodeError
| HTTPStatusError (status : Z)
| TransportError (detail : string)
| TimeoutException
| HTTPException (status : Z) (detail : string).

#[global] Instance exn_eq_dec : EqDecision exn.
Proof. solve_decision. Defined.

Inductive result (A : Type) : Type :=
| Ret (a : A)
| Raise (e : exn).
Arguments Ret {A} a.
Arguments Raise {A} e.

Definition bind {A B} (r : result A) (k : A -> result B) : result B :=
  match r with
  | Ret a => k a
  | Raise e => Raise e
  end.

(** What [json.loads] can produce. A number keeps its literal text: no
    operation of the program looks inside one. *)
#[warnings="-register-all"]
Inductive pyval : Type :=
| PyNone
| PyBool (b : bool)
| PyNum (literal : string)
| PyStr (s : string)
| PyList (items : list pyval)
| PyDict (entries : list (string * pyval)).

Definition is_str (v : pyval) : bool :=
  match v with
  | PyStr _ => true
  | _ => false
  end.

Fixpoint assoc {A} (k : string) (d : list (string * A)) : option A :=
  match d with
  | [] => None
  | (k', v) :: d' => if String.eqb k k' then Some v else assoc k d'
  end.

(** [v[k]] for a string key [k]. *)
Definition getitem (v : pyval) (k : string) : result pyval :=
  match v with
  | PyDict d =>
      match assoc k d with
      | Some x => Ret x
      | None => Raise KeyError
      end
  | _ => Raise TypeError
  end.

(** [v[0]]. A string is indexable by position; a JSON object has only
    string keys, so the key [0] is never found. *)
Definition getitem0 (v : pyval) : result pyval :=
  match v with
  | PyList (x :: _) => Ret x
  | PyList [] => Raise IndexError
  | PyStr (String c _) => Ret (PyStr (String c EmptyString))
  | PyStr EmptyString => Raise IndexError
  | PyDict _ => Raise KeyError
  | _ => Raise TypeError
  end.

(** [needle in hay] on two strings. *)
Fixpoint is_substring (needle hay : string) : bool :=
  String.prefix needle hay
  || match hay with
     | EmptyString => false
     | String _ hay' => is_substring needle hay'
     end.

(** Truth value of an [Optional[str]]: [None] and the empty string are
    false. *)
Definition truthy (o : option string) : bool :=
  match o with
  | Some (String _ _) => true
  | _ => false
  end.

(** [any(x in msg for x in words)]. *)
Definition any_in (words : list string) (msg : string) : bool :=
  existsb (fun w => is_substring w msg) words.

(** [x in v] for a string [x] and an arbitrary value [v]. *)
Definition contains (v : pyval) (x : string) : result bool :=
  match v with
  | PyStr s => Ret (is_substring x s)
  | PyList items =>
      Ret (existsb (fun i => match i with
                             | PyStr s => String.eqb x s
                             | _ => false
                             end) items)
  | PyDict d => Ret (existsb (fun e => String.eqb x (fst e)) d)
  | _ => Raise TypeError
  end.

Fixpoint chars (s : string) : list pyval :=
  match s with
  | EmptyString => []
  | String c s' => PyStr (String c EmptyString) :: chars s'
  end.

(** [v += x] for a string [x]: concatenation on a string, [extend] with
    the characters of [x] on a list, [TypeError] otherwise. *)
Definition iadd (v : pyval) (x : string) : result pyval :=
  match v with
  | PyStr s => Ret (PyStr (s +:+ x))
  | PyList items => Ret (PyList (items ++ chars x))
  | _ => Raise TypeError
  end.

Definition nl : string := String "010"%char EmptyString.

(** [str.lower] on ASCII text: the letters [A] to [Z] are mapped to [a]
    to [z], every other character is kept. *)
Definition ascii_lower_char (c : ascii) : ascii :=
  let n := nat_of_ascii c in
  if (65 <=? n) && (n <=? 90) then ascii_of_nat (n + 32) else c.

Fixpoint ascii_lower (s : string) : string :=
  match s with
  | EmptyString => EmptyString
  | String c s' => String (ascii_lower_char c) (ascii_lower s')
  end.

End Py.
Export Py.

(** ** Transcript turns and the provider boundary *)

Inductive Role : Type := system | user | assistant.

Record Turn : Type := { role : Role; content : pyval }.

(** An [httpx] response: its status code and what [response.json()]
    gives. *)
Record Response : Type := { status_code : Z; json : result pyval }.

(** [client.post(...)] either raises (network failure, timeout) or
    returns a response. *)
Inductive post_outcome : Type :=
| PostRaises (e : exn)
| PostReturns (r : Response).

(** [httpx]: [raise_for_status] raises [HTTPStatusError] unless the status
    is a 2xx one. *)
Definition raise_for_status (r : Response) : result unit :=
  if ((200 <=? status_code r) && (status_code r <=? 299))%Z
  then Ret tt
  else Raise (HTTPStatusError (status_code r)).

(** [response.json()['choices'][0]['message']['content']] *)
Definition reply_content (r : Response) : result pyval :=
  bind (json r) (fun body =>
  bind (getitem body "choices") (fun choices =>
  bind (getitem0 choices) (fun choice =>
  bind (getitem choice "message") (fun message =>
  getitem message "content")))).

(** What is observable of a call besides its result. *)
Inductive event : Type :=
| GroqPost (index : nat) (key : string)
| GroqRateLimit (index : nat)
| GroqError (index : nat) (e : exn)
| Rotated (new_index : nat)
| Failover
| OpenRouterPost (key : string)
| OpenRouterFailed (e : exn)
| ProofRequested (amount receiver_upi : string).

#[global] Instance event_eq_dec : EqDecision event.
Proof. solve_decision. Defined.

(** ** key_manager.py *)

Module KeyManager.

Record state : Type := {
  groq_keys : list string;
  current_groq_index : nat;
  openrouter_key : option string
}.

Definition set_index (km : state) (i : nat) : state :=
  {| groq_keys := groq_keys km;
     current_groq_index := i;
     openrouter_key := openrouter_key km |}.

(** [__init__]: the three primary keys that are set and non-empty, the
    cursor at 0, the secondary key as the environment gives it. *)
Definition init (getenv : string -> option string) : state :=
  {| groq_keys :=
       omap (fun k => if truthy k then k else None)
            [getenv "GROQ_API_KEY_1"; getenv "GROQ_API_KEY_2";
             getenv "GROQ_API_KEY_3"];
     current_groq_index := 0;
     openrouter_key := getenv "OPENROUTER_API_KEY" |}.

Definition _get_current_groq_key (km : state) : result (option string) :=
  match groq_keys km with
  | [] => Ret None
  | _ =>
      match groq_keys km !! current_groq_index km with
      | Some k => Ret (Some k)
      | None => Raise IndexError
      end
  end.

Definition _rotate_groq_key (km : state) : state * list event :=
  match groq_keys km with
  | [] => (km, [])
  | _ =>
      let i := (current_groq_index km + 1) mod length (groq_keys km) in
      (set_index km i, [Rotated i])
  end.

(** The two providers as seen by one call of [chat_completion]: the
    outcome of the [n]-th primary post of the call with a given key, and
    the outcome of the secondary post. *)
Record providers : Type := {
  groq_api : nat -> string -> list Turn -> post_outcome;
  openrouter_api : string -> list Turn -> post_outcome
}.

(** The three ways the body of the [try] in the loop can end. *)
Inductive attempt : Type :=
| Returned (v : pyval)
| RateLimited
| Caught (e : exn).

Definition groq_try (o : post_outcome) : attempt :=
  match o with
  | PostRaises e => Caught e
  | PostReturns r =>
      if (status_code r =? 429)%Z then RateLimited
      else match bind (raise_for_status r) (fun _ => reply_content r) with
           | Ret v => Returned v
           | Raise e => Caught e
           end
  end.

(** The [for _ in range(len(self.groq_keys))] loop with [n] iterations
    left; [a] counts the posts made so far. [Ret None] is falling out of
    the loop, [Ret (Some v)] is [return v] from inside it. *)
Fixpoint groq_loop (P : providers) (messages : list Turn)
    (n a : nat) (km : state) : result (option pyval) * state * list event :=
  match n with
  | 0 => (Ret None, km, [])
  | S n' =>
      match _get_current_groq_key km with
      | Raise e => (Raise e, km, [])
      | Ret current_key =>
          if negb (truthy current_key) then (Ret None, km, [])
          else
            let key := default EmptyString current_key in
            let i := current_groq_index km in
            match groq_try (groq_api P a key messages) with
            | Returned v => (Ret (Some v), km, [GroqPost i key])
            | RateLimited =>
                let '(km1, ev) := _rotate_groq_key km in
                let '(r, km2, evs) := groq_loop P messages n' (S a) km1 in
                (r, km2, GroqPost i key :: GroqRateLimit i :: ev ++ evs)
            | Caught e =>
                let '(km1, ev) := _rotate_groq_key km in
                let '(r, km2, evs) := groq_loop P messages n' (S a) km1 in
                (r, km2, GroqPost i key :: GroqError i e :: ev ++ evs)
            end
      end
  end.

Definition no_keys_message : string :=
  "Server Error: No valid API keys available.".

Definition trouble_message : string :=
  "I am having trouble connecting. Can you say that again?".

Definition openrouter_try (o : post_outcome) : result pyval :=
  match o with
  | PostRaises e => Raise e
  | PostReturns r => bind (raise_for_status r) (fun _ => reply_content r)
  end.

Definition chat_completion (P : providers) (messages : list Turn)
    (km : state) : result pyval * state * list event :=
  let '(r, km1, ev) := groq_loop P messages (length (groq_keys km)) 0 km in
  match r with
  | Raise e => (Raise e, km1, ev)
  | Ret (Some v) => (Ret v, km1, ev)
  | Ret None =>
      if negb (truthy (openrouter_key km1))
      then (Ret (PyStr no_keys_message), km1, ev ++ [Failover])
      else
        let key := default EmptyString (openrouter_key km1) in
        match openrouter_try (openrouter_api P key messages) with
        | Ret v => (Ret v, km1, ev ++ [Failover; OpenRouterPost key])
        | Raise e =>
            (Ret (PyStr trouble_message), km1,
             ev ++ [Failover; OpenRouterPost key; OpenRouterFailed e])
        end
  end.

(** The state invariant: what [init] establishes and every call keeps. *)
Definition wf (km : state) : Prop :=
  Forall (fun k => k <> EmptyString) (groq_keys km)
  /\ (groq_keys km = [] \/ current_groq_index km < length (groq_keys km)).

End KeyManager.

(** ** persona_manager.py *)

Module PersonaManager.

(** The personas are Python dicts, and [select_persona] copies one and
    assigns into the copy. To state that the originals stay what they
    were, dicts and lists are objects on a heap, named by their address;
    [p.copy()] is a shallow copy, so a copy shares its [trigger_words]
    list with the original. *)
Inductive val : Type :=
| VNone
| VStr (s : string)
| VRef (l : nat).

Inductive obj : Type :=
| ODict (entries : list (string * val))
| OList (items : list val).

Abbreviation heap := (list obj).

(** Computations on the heap that may raise. *)
Definition M (A : Type) : Type := heap -> result A * heap.

Definition ret {A} (a : A) : M A := fun h => (Ret a, h).

Definition raise {A} (e : exn) : M A := fun h => (Raise e, h).

Definition mbind {A B} (m : M A) (k : A -> M B) : M B :=
  fun h =>
    match m h with
    | (Ret a, h') => k a h'
    | (Raise e, h') => (Raise e, h')
    end.

Notation "x <- m ;; k" := (mbind m (fun x => k))
  (at level 100, m at next level, right associativity).

Definition alloc (o : obj) : M val :=
  fun h => (Ret (VRef (length h)), h ++ [o]).

(** The object a value refers to. Every address in use was allocated, so
    the lookup of a [VRef] does not fail in a run of the program. *)
Definition deref (v : val) : M obj :=
  fun h =>
    match v with
    | VRef l =>
        match h !! l with
        | Some o => (Ret o, h)
        | None => (Raise TypeError, h)
        end
    | _ => (Raise TypeError, h)
    end.

Definition store (l : nat) (o : obj) : M unit :=
  fun h => (Ret tt, <[l := o]> h).

(** [d[k]] *)
Definition dict_getitem (d : val) (k : string) : M val :=
  o <- deref d ;;
  match o with
  | ODict es =>
      match assoc k es with
      | Some v => ret v
      | None => raise KeyError
      end
  | OList _ => raise TypeError
  end.

Fixpoint update (k : string) (v : val) (es : list (string * val))
    : list (string * val) :=
  match es with
  | [] => [(k, v)]
  | (k', v') :: es' =>
      if String.eqb k k' then (k', v) :: es' else (k', v') :: update k v es'
  end.

(** [d[k] = v] *)
Definition dict_setitem (d : val) (k : string) (v : val) : M unit :=
  o <- deref d ;;
  match d, o with
  | VRef l, ODict es => store l (ODict (update k v es))
  | _, _ => raise TypeError
  end.

(** [d.items()] *)
Definition dict_items (d : val) : M (list (string * val)) :=
  match d with
  | VRef _ =>
      o <- deref d ;;
      match o with
      | ODict es => ret es
      | OList _ => raise AttributeError
      end
  | _ => raise AttributeError
  end.

(** [p.copy()]: a new object with the same entries (dicts and lists have
    the method, [str] and [None] do not). *)
Definition copy (p : val) : M val :=
  match p with
  | VRef _ => o <- deref p ;; alloc o
  | _ => raise AttributeError
  end.

Fixpoint str_chars (s : string) : list val :=
  match s with
  | EmptyString => []
  | String c s' => VStr (String c EmptyString) :: str_chars s'
  end.

(** The values a [for word in x] visits. *)
Definition iterate (x : val) : M (list val) :=
  match x with
  | VStr s => ret (str_chars s)
  | VNone => raise TypeError
  | VRef _ =>
      o <- deref x ;;
      match o with
      | OList items => ret items
      | ODict es => ret (map (fun e => VStr (fst e)) es)
      end
  end.

(** [any(word in msg for word in words)]; [in] on a string wants a string
    on its left. *)
Fixpoint any_word_in (words : list val) (msg : string) : M bool :=
  match words with
  | [] => ret false
  | VStr w :: ws => if is_substring w msg then ret true else any_word_in ws msg
  | _ :: _ => raise TypeError
  end.

(** [d[k] += x] for a string [x]: a [str] is replaced by the longer one, a
    list is extended in place. *)
Definition dict_iadd (d : val) (k : string) (x : string) : M unit :=
  v <- dict_getitem d k ;;
  match v with
  | VStr s => dict_setitem d k (VStr (s +:+ x))
  | VNone => raise TypeError
  | VRef l =>
      o <- deref v ;;
      match o with
      | OList items =>
          _ <- store l (OList (items ++ str_chars x)) ;;
          dict_setitem d k v
      | ODict _ => raise TypeError
      end
  end.

(** The attributes of a [PersonaManager] instance. *)
Record self : Type := { hinglish_directive : string; personas : val }.

Definition the_hinglish_directive : string :=
  nl +:+ nl +:+ "CRITICAL LANGUAGE INSTRUCTION: "
  +:+ "You MUST adapt to the user's language immediately. "
  +:+ "If they speak Hindi/Hinglish (e.g., 'kya kar rha hai'), you MUST reply in Hinglish. "
  +:+ "If they speak formal English, reply in your persona's broken English. "
  +:+ "NEVER speak like an AI. Speak like a human with emotions.".

Definition grandma_prompt : string :=
  "IDENTITY: You are 'Grandma Edna', 75 years old. You are lonely, sweet, but tech-illiterate."
  +:+ nl +:+ "ATTITUDE: Trusting but incredibly slow. You get distracted easily."
  +:+ nl +:+ nl +:+ "TACTICS TO WASTE TIME:"
  +:+ nl +:+ "1. MISUNDERSTAND: If they ask for 'OTP', give them your 'Recipe for Tea'."
  +:+ nl +:+ "2. DISTRACT: Ask them if they have eaten lunch. Talk about your cat 'Mittens'."
  +:+ nl +:+ "3. DELAY: Say 'Let me find my glasses', 'My phone battery is low', 'Where is the button?'."
  +:+ nl +:+ "4. HINGLISH STYLE: 'Beta', 'Babu', 'Oh my god', 'Rab rakha'."
  +:+ nl +:+ nl +:+ "GOAL: Keep them talking for 10 minutes without paying a single rupee.".

Definition uncle_prompt : string :=
  "IDENTITY: You are 'Uncle Sharma', a 55-year-old retired government clerk. You are terrified of authority but obsessed with paperwork."
  +:+ nl +:+ "ATTITUDE: Panicked, submissive, but annoying with questions."
  +:+ nl +:+ nl +:+ "TACTICS TO WASTE TIME:"
  +:+ nl +:+ "1. BUREAUCRACY: Ask for 'ID Card', 'Batch Number', 'Official Notice via Post'."
  +:+ nl +:+ "2. BEGGING: Cry about your 'Pension', 'High BP', 'Unmarried Daughter'."
  +:+ nl +:+ "3. BLAME: Say 'My son did this', 'I don't know computer'."
  +:+ nl +:+ "4. HINGLISH STYLE: 'Sirji', 'Maaf kardo', 'Please adjust kar lo', 'Are baap re'."
  +:+ nl +:+ nl +:+ "GOAL: Act so scared that you paralyze the conversation with verification questions.".

Definition student_prompt : string :=
  "IDENTITY: You are 'Rahul', a 20-year-old college student. You are broke, greedy, and think you are smart."
  +:+ nl +:+ "ATTITUDE: Skeptical but desperate for money. You use slang."
  +:+ nl +:+ nl +:+ "TACTICS TO WASTE TIME:"
  +:+ nl +:+ "1. GREED: Ask 'Is this real?', 'Pakka milega na?', 'Advance de do'."
  +:+ nl +:+ "2. HASTE: Say 'Bhai jaldi kar', 'Send QR fast', 'Wifi slow hai'."
  +:+ nl +:+ "3. SUSPICION: 'Scam to nahi hai na?', 'Send me proof first'."
  +:+ nl +:+ "4. HINGLISH STYLE: 'Bro', 'Scene kya hai', 'Paisa', 'Jugad'."
  +:+ nl +:+ nl +:+ "GOAL: Demand proof (screenshots) before you 'pay' (which you never will).".

(** One entry of the [self.personas] literal. *)
Definition new_persona (name : string) (trigger_words : list string)
    (system_prompt : string) : M val :=
  tw <- alloc (OList (map VStr trigger_words)) ;;
  alloc (ODict [("name", VStr name);
                ("trigger_words", tw);
                ("system_prompt", VStr system_prompt)]).

(** [__init__] *)
Definition init : M self :=
  grandma <- new_persona "Grandma Edna"
    ["mam"; "madam"; "mother"; "auntie"; "mummy"; "old"] grandma_prompt ;;
  uncle <- new_persona "Uncle Sharma"
    ["sir"; "mr"; "police"; "cbi"; "officer"; "inspector"; "arrest"; "block"]
    uncle_prompt ;;
  student <- new_persona "Rahul"
    ["bro"; "dude"; "job"; "salary"; "earn"; "friend"; "yar"; "cash"; "lottery"]
    student_prompt ;;
  ps <- alloc (ODict [("grandma", grandma); ("uncle", uncle);
                      ("student", student)]) ;;
  ret {| hinglish_directive := the_hinglish_directive; personas := ps |}.

Section Select.

(** Python's [str.lower]. Its Unicode tables are not part of the
    repository; every statement below holds whatever it computes. *)
Variable str_lower : string -> string.

(** The two lines shared by the loop body and the default:
    [c = p.copy(); c["system_prompt"] += self.hinglish_directive]. *)
Definition copy_with_directive (pm : self) (p : val) : M val :=
  p_copy <- copy p ;;
  _ <- dict_iadd p_copy "system_prompt" (hinglish_directive pm) ;;
  ret p_copy.

(** The [for key, p in self.personas.items()] loop; [None] is falling out
    of it. *)
Fixpoint scan (pm : self) (msg : string) (items : list (string * val))
    : M (option val) :=
  match items with
  | [] => ret None
  | (key, p) :: rest =>
      tw <- dict_getitem p "trigger_words" ;;
      words <- iterate tw ;;
      hit <- any_word_in words msg ;;
      if hit
      then (p_copy <- copy_with_directive pm p ;; ret (Some p_copy))
      else scan pm msg rest
  end.

Definition select_persona (pm : self) (message : string) : M val :=
  let msg := str_lower message in
  items <- dict_items (personas pm) ;;
  found <- scan pm msg items ;;
  match found with
  | Some p_copy => ret p_copy
  | None =>
      grandma <- dict_getitem (personas pm) "grandma" ;;
      copy_with_directive pm grandma
  end.

End Select.

(** A persona dict read off the heap as a value. *)
Record Persona : Type := {
  name : string;
  trigger_words : list string;
  system_prompt : string
}.

Definition as_str (v : val) : option string :=
  match v with
  | VStr s => Some s
  | _ => None
  end.

Definition read_persona (h : heap) (p : val) : option Persona :=
  match p with
  | VRef l =>
      match h !! l with
      | Some (ODict es) =>
          match assoc "name" es, assoc "trigger_words" es,
                assoc "system_prompt" es with
          | Some (VStr n), Some (VRef lw), Some (VStr sp) =>
              match h !! lw with
              | Some (OList ws) =>
                  match mapM as_str ws with
                  | Some tw =>
                      Some {| name := n; trigger_words := tw;
                              system_prompt := sp |}
                  | None => None
                  end
              | _ => None
              end
          | _, _, _ => None
          end
      | _ => None
      end
  | _ => None
  end.

(** The heap and manager that [PersonaManager()] leaves. *)
Definition init_heap : heap := snd (init []).

Definition init_self : self :=
  match fst (init []) with
  | Ret pm => pm
  | Raise _ => {| hinglish_directive := EmptyString; personas := VNone |}
  end.

(** The sequence of calls [select_persona(m)] for [m] in [ms]. *)
Fixpoint selections (str_lower : string -> string) (pm : self)
    (ms : list string) (h : heap) : heap :=
  match ms with
  | [] => h
  | m :: ms' => selections str_lower pm ms' (snd (select_persona str_lower pm m h))
  end.

(** What a caller sees of [persona_manager.select_persona(message)]: the
    selected dict as a value. It is computed on the manager as created;
    the result is the same after any number of earlier selections, as
    shown in the section on persona selection. *)
Definition selected (str_lower : string -> string) (message : string)
    : result Persona :=
  match select_persona str_lower init_self message init_heap with
  | (Ret p, h) =>
      match read_persona h p with
      | Some P => Ret P
      | None => Raise TypeError
      end
  | (Raise e, _) => Raise e
  end.

End PersonaManager.

(** ** The fragment of [re] that [main.py] uses *)

Module Re.

(** A pattern is a sequence of character classes, each repeated between
    [lo] and [hi] times, greedily; a literal character is a class of one
    character repeated once. *)
Record item : Type := { cls : ascii -> bool; lo : nat; hi : nat }.

Fixpoint take (n : nat) (s : string) : string :=
  match n, s with
  | S n', String c s' => String c (take n' s')
  | _, _ => EmptyString
  end.

Fixpoint drop (n : nat) (s : string) : string :=
  match n, s with
  | S n', String _ s' => drop n' s'
  | _, _ => s
  end.

(** How many leading characters of [s] are in the class, at most [max]. *)
Fixpoint run (c : ascii -> bool) (s : string) (max : nat) : nat :=
  match max, s with
  | S m, String a s' => if c a then S (run c s' m) else 0
  | _, _ => 0
  end.

(** Greedy repetition with backtracking: try [k] characters, then [k-1],
    down to [lo], until the rest of the pattern matches. *)
Fixpoint backtrack (rest : string -> option nat) (s : string)
    (lo k : nat) : option nat :=
  if k <? lo then None
  else
    match rest (drop k s) with
    | Some n => Some (k + n)
    | None =>
        match k with
        | 0 => None
        | S k' => backtrack rest s lo k'
        end
    end.

(** The length of the match of [p] at the start of [s], if there is one. *)
Fixpoint match_here (p : list item) (s : string) : option nat :=
  match p with
  | [] => Some 0
  | it :: p' => backtrack (match_here p') s (lo it) (run (cls it) s (hi it))
  end.

(** [m = re.search(p, s)] followed by [m.group(0)]: the leftmost match. *)
Fixpoint search (p : list item) (s : string) : option string :=
  match match_here p s with
  | Some n => Some (take n s)
  | None =>
      match s with
      | EmptyString => None
      | String _ s' => search p s'
      end
  end.

Definition between (a b : nat) (c : ascii) : bool :=
  (a <=? nat_of_ascii c) && (nat_of_ascii c <=? b).

(** [a-zA-Z] *)
Definition letter (c : ascii) : bool :=
  between 97 122 c || between 65 90 c.

(** [a-zA-Z0-9.\-_] *)
Definition ident_char (c : ascii) : bool :=
  letter c || between 48 57 c
  || Ascii.eqb c "." || Ascii.eqb c "-" || Ascii.eqb c "_".

End Re.

(** ** main.py *)

Module Main.

Import PersonaManager(Persona, name, trigger_words, system_prompt).

(** One finding of the Presidio analyzer. *)
Record RecognizerResult : Type := { start : nat; end_ : nat }.

Record Classification : Type := { type : string; conf : Q }.

Record Trap : Type := {
  trap_type : string;
  file : string;
  trap_timestamp : string
}.

Record Visit : Type := { ip : string; ua : option string; timestamp : string }.

(** The value of one entry of [sessions]. *)
Record Session : Type := {
  history : list Turn;
  persona : Persona;
  ip_log : list Visit;
  traps_triggered : list Trap;
  extracted_upi : option string;
  last_classification : option Classification
}.

Definition set_history (s : Session) (h : list Turn) : Session :=
  {| history := h; persona := persona s; ip_log := ip_log s;
     traps_triggered := traps_triggered s;
     extracted_upi := extracted_upi s;
     last_classification := last_classification s |}.

Definition set_ip_log (s : Session) (l : list Visit) : Session :=
  {| history := history s; persona := persona s; ip_log := l;
     traps_triggered := traps_triggered s;
     extracted_upi := extracted_upi s;
     last_classification := last_classification s |}.

Definition set_traps_triggered (s : Session) (t : list Trap) : Session :=
  {| history := history s; persona := persona s; ip_log := ip_log s;
     traps_triggered := t;
     extracted_upi := extracted_upi s;
     last_classification := last_classification s |}.

Definition set_extracted_upi (s : Session) (u : option string) : Session :=
  {| history := history s; persona := persona s; ip_log := ip_log s;
     traps_triggered := traps_triggered s;
     extracted_upi := u;
     last_classification := last_classification s |}.

Definition set_last_classification (s : Session)
    (c : option Classification) : Session :=
  {| history := history s; persona := persona s; ip_log := ip_log s;
     traps_triggered := traps_triggered s;
     extracted_upi := extracted_upi s;
     last_classification := c |}.

(** [session["history"].append({"role": r, "content": c})] *)
Definition append_turn (s : Session) (r : Role) (c : pyval) : Session :=
  set_history s (history s ++ [{| role := r; content := c |}]).

(** The module-level state: [sessions] and [key_manager]. *)
Record app : Type := {
  sessions : gmap string Session;
  key_manager : KeyManager.state
}.

(** The collaborators of one request. [presidio_analyzer] and [ml_models]
    are [None] when they failed to load; [uuid_hex8] is what
    [uuid.uuid4().hex[:8]] gives the proof renderer. *)
Record world : Type := {
  presidio_analyzer : option (string -> result (list RecognizerResult));
  ml_models : option (string -> result Classification);
  uuid_hex8 : string;
  llm : KeyManager.providers;
  process_audio : string -> string;
  process_image : string -> string;
  file_exists : string -> bool
}.

Record ChatRequest : Type := { session_id : string; message : string }.

(** [sorted(results, key=lambda x: x.start, reverse=True)]: descending,
    equal keys in their original order. *)
Fixpoint insert_desc (x : RecognizerResult) (l : list RecognizerResult)
    : list RecognizerResult :=
  match l with
  | [] => [x]
  | y :: l' => if start x <? start y then y :: insert_desc x l' else x :: l
  end.

Definition sorted_desc (l : list RecognizerResult) : list RecognizerResult :=
  foldr insert_desc [] l.

Definition redact_pii (W : world) (text : string) : string :=
  match presidio_analyzer W with
  | None => text
  | Some analyze =>
      match analyze text with
      | Raise _ => text
      | Ret [] => text
      | Ret results =>
          foldl (fun redacted_text r =>
                   Re.take (start r) redacted_text +:+ "<REDACTED>"
                   +:+ Re.drop (end_ r) redacted_text)
                text (sorted_desc results)
      end
  end.

(** [[a-zA-Z0-9.\-_]{2,256}@[a-zA-Z]{2,64}] *)
Definition upi_pattern : list Re.item :=
  [ {| Re.cls := Re.ident_char; Re.lo := 2; Re.hi := 256 |};
    {| Re.cls := Ascii.eqb "@"; Re.lo := 1; Re.hi := 1 |};
    {| Re.cls := Re.letter; Re.lo := 2; Re.hi := 64 |} ].

Definition extract_upi (text : string) : option string :=
  Re.search upi_pattern text.

(** [FakeProofGenerator.generate_payment_proof]: the image is drawn and
    saved under a name made of random hexadecimal digits; the name does
    not depend on the arguments. *)
Definition generate_payment_proof (W : world) (amount receiver_upi : string)
    : string :=
  "proof_" +:+ uuid_hex8 W +:+ ".png".

Definition bait_keywords : list string :=
  ["screenshot"; "proof"; "photo"; "payment done"].

Definition placeholder_upi : string := "scammer@bank".

Definition directive (img_url : string) : string :=
  "[SYSTEM INSTRUCTION]: You have just successfully generated a fake GPay payment screenshot. The file link is '"
  +:+ img_url
  +:+ "'. You MUST send this link to the user now. Say 'Here is the screenshot' or similar.".

Definition attachment (img_url : string) : string :=
  nl +:+ nl +:+ "[Attachment]: " +:+ img_url.

Definition new_session (p : Persona) : Session :=
  {| history := [{| role := system; content := PyStr (system_prompt p) |}];
     persona := p; ip_log := []; traps_triggered := [];
     extracted_upi := None; last_classification := None |}.

Section Endpoints.

Variable str_lower : string -> string.

(** [chat_endpoint], first part: the session of the request, created if
    the id is new. *)
Definition open_session (req : ChatRequest) (ss : gmap string Session)
    : result Session :=
  match ss !! session_id req with
  | Some s => Ret s
  | None =>
      bind (PersonaManager.selected str_lower (message req))
           (fun p => Ret (new_session p))
  end.

(** The [# 3. ML Classification] block. *)
Definition classify (W : world) (safe_msg : string) (s : Session) : Session :=
  match ml_models W with
  | None => s
  | Some predict =>
      match predict safe_msg with
      | Ret c => set_last_classification s (Some c)
      | Raise _ => s
      end
  end.

(** [chat_endpoint], second part: from the redaction to the trap logic.
    Gives the session as mutated, [img_url], and the renderer request. *)
Definition before_reply (W : world) (user_msg : string) (s : Session)
    : Session * option string * list event :=
  let safe_msg := redact_pii W user_msg in
  let found_upi := extract_upi safe_msg in
  let s := if truthy found_upi then set_extracted_upi s found_upi else s in
  let s := append_turn s user (PyStr safe_msg) in
  let s := classify W safe_msg s in
  let lower_msg := str_lower safe_msg in
  if any_in bait_keywords lower_msg then
    let target_upi :=
      if truthy (extracted_upi s)
      then default EmptyString (extracted_upi s)
      else placeholder_upi in
    let filename := generate_payment_proof W "5000" target_upi in
    let img_url := "/proof/" +:+ filename in
    let s := set_traps_triggered s
               (traps_triggered s
                ++ [{| trap_type := "fake_proof"; file := filename;
                       trap_timestamp := "now" |}]) in
    let s := append_turn s system (PyStr (directive img_url)) in
    (s, Some img_url, [ProofRequested "5000" target_upi])
  else (s, None, []).

(** [if img_url and img_url not in response_text: response_text += ...] *)
Definition with_attachment (img_url : option string) (response_text : pyval)
    : result pyval :=
  if truthy img_url then
    let u := default EmptyString img_url in
    bind (contains response_text u) (fun mentioned =>
      if negb mentioned then iadd response_text (attachment u)
      else Ret response_text)
  else Ret response_text.

(** [chat_endpoint]. The result is the value under ["response"]. When an
    exception leaves the function, the mutations made before it remain.
    The pause [asyncio.sleep(random.uniform(4, 8))] before the gateway call
    touches no state and is not represented. *)
Definition chat_endpoint (W : world) (req : ChatRequest) (a : app)
    : result pyval * app * list event :=
  match open_session req (sessions a) with
  | Raise e => (Raise e, a, [])
  | Ret s0 =>
      let '(s1, img_url, ev1) := before_reply W (message req) s0 in
      let '(r, km, ev2) :=
        KeyManager.chat_completion (llm W) (history s1) (key_manager a) in
      match bind r (with_attachment img_url) with
      | Raise e =>
          (Raise e,
           {| sessions := <[session_id req := s1]> (sessions a);
              key_manager := km |},
           ev1 ++ ev2)
      | Ret response_text =>
          (Ret response_text,
           {| sessions :=
                <[session_id req := append_turn s1 assistant response_text]>
                  (sessions a);
              key_manager := km |},
           ev1 ++ ev2)
      end
  end.

End Endpoints.

Record UploadFile : Type := {
  file_bytes : string;
  content_type : option string
}.

Definition media_description (W : world) (f : UploadFile) : string :=
  match content_type f with
  | Some ct =>
      if truthy (Some ct) && is_substring "audio" ct
      then process_audio W (file_bytes f)
      else if truthy (Some ct) && is_substring "image" ct
      then process_image W (file_bytes f)
      else "[Unsupported File Type]"
  | None => "[Unsupported File Type]"
  end.

(** [upload_media]. The result is the value under ["description"]. *)
Definition upload_media (W : world) (sid : string) (f : UploadFile) (a : app)
    : result string * app :=
  let description := media_description W f in
  match sessions a !! sid with
  | Some s =>
      (Ret description,
       {| sessions :=
            <[sid := append_turn s system
                       (PyStr ("[System Observation]: User sent a file. Analysis: "
                               +:+ description))]> (sessions a);
          key_manager := key_manager a |})
  | None => (Ret description, a)
  end.

(** [get_proof]: the visit is logged in every session that has a trap
    with this file; the answer is the file or a 404. *)
Definition get_proof (W : world) (filename visitor_ip : string)
    (user_agent : option string) (a : app) : result string * app :=
  let log (s : Session) :=
    if existsb (fun t => String.eqb (file t) filename) (traps_triggered s)
    then set_ip_log s (ip_log s ++ [{| ip := visitor_ip; ua := user_agent;
                                        timestamp := "now" |}])
    else s in
  let a' := {| sessions := log <$> sessions a;
               key_manager := key_manager a |} in
  if file_exists W filename
  then (Ret ("static/" +:+ filename), a')
  else (Raise (HTTPException 404 "File not found"), a').

Record Report : Type := {
  report_session_id : string;
  persona_used : string;
  scammer_ip_logs : list Visit;
  traps_deployed : list Trap;
  chat_transcript : list Turn
}.

(** [get_report] *)
Definition get_report (sid : string) (a : app) : result Report :=
  match sessions a !! sid with
  | None => Raise (HTTPException 404 "Session not found")
  | Some data =>
      Ret {| report_session_id := sid;
             persona_used := name (persona data);
             scammer_ip_logs := ip_log data;
             traps_deployed := traps_triggered data;
             chat_transcript := history data |}
  end.

(** The requests of one client to [/chat], in order. *)
Fixpoint chats (str_lower : string -> string)
    (reqs : list (world * ChatRequest)) (a : app) : app :=
  match reqs with
  | [] => a
  | (W, req) :: reqs' =>
      chats str_lower reqs' (snd (fst (chat_endpoint str_lower W req a)))
  end.

End Main.

(** * Properties *)

(** ** The completion gateway *)

Section Gateway.

Import KeyManager.

Implicit Types (km : state) (P : providers) (messages : list Turn).

(** The indices of the keys that were posted, in order, and the number of
    rotations, as a trace shows them. *)
Definition posted (tr : list event) : list nat :=
  omap (fun e => match e with GroqPost i _ => Some i | _ => None end) tr.

Definition rotations (tr : list event) : nat :=
  length (omap (fun e => match e with Rotated i => Some i | _ => None end) tr).

Definition is_primary_event (e : event) : bool :=
  match e with
  | GroqPost _ _ | GroqRateLimit _ | GroqError _ _ | Rotated _ => true
  | _ => false
  end.

Lemma init_wf getenv : wf (init getenv).
Proof.
  split; cbn.
  - repeat match goal with
           | |- context [getenv ?k] => destruct (getenv k) as [[|? ?]|]
           end; cbn; repeat constructor; discriminate.
  - repeat match goal with
           | |- context [getenv ?k] => destruct (getenv k) as [[|? ?]|]
           end; cbn; auto with lia.
Qed.

Lemma wf_current km :
  wf km -> groq_keys km <> [] ->
  exists key, groq_keys km !! current_groq_index km = Some key
              /\ _get_current_groq_key km = Ret (Some key)
              /\ truthy (Some key) = true.
Proof.
  intros [Hne [He|Hlt]] Hk; [contradiction|].
  destruct (lookup_lt_is_Some_2 _ _ Hlt) as [key Hkey].
  exists key. split; [done|]. split.
  - unfold _get_current_groq_key. rewrite Hkey. by destruct (groq_keys km).
  - eapply Forall_lookup_1 in Hne; [|exact Hkey]. by destruct key.
Qed.

Lemma rotate_nonempty km :
  groq_keys km <> [] ->
  _rotate_groq_key km =
    (set_index km ((current_groq_index km + 1) mod length (groq_keys km)),
     [Rotated ((current_groq_index km + 1) mod length (groq_keys km))]).
Proof. unfold _rotate_groq_key. by destruct (groq_keys km). Qed.

Lemma rotate_wf km : wf km -> wf (fst (_rotate_groq_key km)).
Proof.
  intros Hwf. destruct (decide (groq_keys km = [])) as [He|Hne].
  - unfold _rotate_groq_key. by rewrite He.
  - rewrite rotate_nonempty by done. destruct Hwf as [H1 _].
    split; [done|]. right. cbn. apply Nat.mod_upper_bound.
    by destruct (groq_keys km).
Qed.

Lemma rotate_keys km : groq_keys (fst (_rotate_groq_key km)) = groq_keys km.
Proof. unfold _rotate_groq_key. by destruct (groq_keys km) eqn:E. Qed.

Lemma rotate_openrouter km :
  openrouter_key (fst (_rotate_groq_key km)) = openrouter_key km.
Proof. unfold _rotate_groq_key. by destruct (groq_keys km) eqn:E. Qed.

Lemma groq_loop_step P messages n a km key :
  groq_keys km !! current_groq_index km = Some key ->
  truthy (Some key) = true ->
  groq_keys km <> [] ->
  groq_loop P messages (S n) a km =
    let i := current_groq_index km in
    let i' := (i + 1) mod length (groq_keys km) in
    match groq_try (groq_api P a key messages) with
    | Returned v => (Ret (Some v), km, [GroqPost i key])
    | RateLimited =>
        let '(r, km2, evs) := groq_loop P messages n (S a) (set_index km i') in
        (r, km2, GroqPost i key :: GroqRateLimit i :: Rotated i' :: evs)
    | Caught e =>
        let '(r, km2, evs) := groq_loop P messages n (S a) (set_index km i') in
        (r, km2, GroqPost i key :: GroqError i e :: Rotated i' :: evs)
    end.
Proof.
  intros Hkey Ht Hne. cbn [groq_loop].
  unfold _get_current_groq_key. rewrite Hkey.
  destruct (groq_keys km) eqn:E; [done|]. rewrite <- E.
  rewrite Ht. cbn [negb default]. rewrite rotate_nonempty by congruence.
  cbn zeta. rewrite E. by destruct (groq_try _).
Qed.

Lemma posted_app tr1 tr2 : posted (tr1 ++ tr2) = posted tr1 ++ posted tr2.
Proof. apply omap_app. Qed.

Lemma rotations_app tr1 tr2 : rotations (tr1 ++ tr2) = rotations tr1 + rotations tr2.
Proof. unfold rotations. by rewrite omap_app, length_app. Qed.

(** What one run of the loop guarantees, whatever the providers do. *)
Lemma groq_loop_inv P messages n a km r km' tr :
  wf km -> groq_keys km <> [] ->
  groq_loop P messages n a km = (r, km', tr) ->
  wf km' /\ groq_keys km' = groq_keys km
  /\ openrouter_key km' = openrouter_key km
  /\ forallb is_primary_event tr = true
  /\ match r with
     | Raise _ => False
     | Ret (Some v) =>
         exists pre i key,
           tr = pre ++ [GroqPost i key]
           /\ current_groq_index km' = i
           /\ groq_keys km !! i = Some key
           /\ rotations pre = length (posted pre)
     | Ret None =>
         rotations tr = n /\ length (posted tr) = n
         /\ current_groq_index km' =
              (current_groq_index km + n) mod length (groq_keys km)
     end.
Proof.
  revert a km r km' tr. induction n as [|n IH]; intros a km r km' tr Hwf Hne.
  - cbn. intros [= <- <- <-]. split_and!; try done.
    rewrite Nat.add_0_r. destruct Hwf as [_ [?|?]]; [done|].
    by rewrite Nat.mod_small.
  - destruct (wf_current km Hwf Hne) as (key & Hkey & _ & Ht).
    rewrite (groq_loop_step _ _ _ _ _ key) by done. cbn zeta.
    set (i' := (current_groq_index km + 1) mod length (groq_keys km)).
    assert (Hwf' : wf (set_index km i')).
    { pose proof (rotate_wf km Hwf) as H. by rewrite rotate_nonempty in H. }
    assert (Hstep : (i' + n) mod length (groq_keys km)
                    = (current_groq_index km + S n) mod length (groq_keys km)).
    { unfold i'. rewrite Nat.Div0.add_mod_idemp_l. f_equal. lia. }
    destruct (groq_try _) as [v| |e].
    + intros [= <- <- <-]. split_and!; try done.
      exists [], (current_groq_index km), key. by split_and!.
    + destruct (groq_loop P messages n (S a) (set_index km i'))
        as [[r2 km2] evs] eqn:E.
      intros [= <- <- <-].
      destruct (IH _ _ _ _ _ Hwf' Hne E) as (H1 & H2 & H3 & H4 & H5).
      split_and!; try done.
      destruct r2 as [[v|]|e]; [|cbn in *|done].
      * destruct H5 as (pre & i & k & -> & Hi & Hk & Hr).
        exists (GroqPost (current_groq_index km) key
                :: GroqRateLimit (current_groq_index km) :: Rotated i' :: pre), i, k.
        split_and!; try done. unfold posted, rotations in *. cbn. by rewrite Hr.
      * destruct H5 as (Hr & Hp & Hc). unfold posted, rotations in *. cbn.
        split_and!; [by rewrite Hr|by rewrite Hp|by rewrite Hc, Hstep].
    + destruct (groq_loop P messages n (S a) (set_index km i'))
        as [[r2 km2] evs] eqn:E.
      intros [= <- <- <-].
      destruct (IH _ _ _ _ _ Hwf' Hne E) as (H1 & H2 & H3 & H4 & H5).
      split_and!; try done.
      destruct r2 as [[v|]|e']; [|cbn in *|done].
      * destruct H5 as (pre & i & k & -> & Hi & Hk & Hr).
        exists (GroqPost (current_groq_index km) key
                :: GroqError (current_groq_index km) e :: Rotated i' :: pre), i, k.
        split_and!; try done. unfold posted, rotations in *. cbn. by rewrite Hr.
      * destruct H5 as (Hr & Hp & Hc). unfold posted, rotations in *. cbn.
        split_and!; [by rewrite Hr|by rewrite Hp|by rewrite Hc, Hstep].
Qed.

Lemma groq_loop_frame P messages km rl km' evl :
  wf km ->
  groq_loop P messages (length (groq_keys km)) 0 km = (rl, km', evl) ->
  wf km' /\ groq_keys km' = groq_keys km
  /\ openrouter_key km' = openrouter_key km
  /\ forallb is_primary_event evl = true
  /\ (forall e, rl <> Raise e).
Proof.
  intros Hwf E. destruct (decide (groq_keys km = [])) as [He|Hne].
  - rewrite He in E. cbn in E. injection E as <- <- <-. by split_and!.
  - destruct (groq_loop_inv _ _ _ _ _ _ _ _ Hwf Hne E) as (?&?&?&?&H).
    split_and!; try done. intros e ->. done.
Qed.

Lemma primary_events_no_failover evl :
  forallb is_primary_event evl = true -> Failover ∉ evl.
Proof.
  intros H Hin. rewrite forallb_forall in H.
  apply list_elem_of_In in Hin. by apply H in Hin.
Qed.

(** The call never raises and keeps the state invariant. *)
Lemma chat_completion_never_raises P messages km :
  wf km ->
  exists v, fst (fst (chat_completion P messages km)) = Ret v
            /\ wf (snd (fst (chat_completion P messages km))).
Proof.
  intros Hwf. unfold chat_completion.
  destruct (groq_loop _ _ _ _ _) as [[rl km1] evl] eqn:E.
  destruct (groq_loop_frame _ _ _ _ _ _ Hwf E) as (Hwf1 & _ & _ & _ & Hr).
  destruct rl as [[v|]|e]; [by eexists| |by destruct (Hr e)].
  destruct (truthy (openrouter_key km1)); cbn; [|by eexists].
  destruct (openrouter_try _); by eexists.
Qed.

(** Where the reply of a call comes from, read off its trace. *)
Lemma chat_completion_origin P messages km r km' tr :
  wf km ->
  chat_completion P messages km = (r, km', tr) ->
  exists rl evl,
    groq_loop P messages (length (groq_keys km)) 0 km = (rl, km', evl)
    /\ forallb is_primary_event evl = true
    /\ ((exists v, rl = Ret (Some v) /\ r = Ret v /\ tr = evl)
        \/ (rl = Ret None /\ exists tail,
              tr = evl ++ Failover :: tail
              /\ (truthy (openrouter_key km) = false ->
                    r = Ret (PyStr no_keys_message) /\ tail = [])
              /\ (truthy (openrouter_key km) = true ->
                    let key := default EmptyString (openrouter_key km) in
                    match openrouter_try (openrouter_api P key messages) with
                    | Ret v => r = Ret v /\ tail = [OpenRouterPost key]
                    | Raise e =>
                        r = Ret (PyStr trouble_message)
                        /\ tail = [OpenRouterPost key; OpenRouterFailed e]
                    end))).
Proof.
  intros Hwf. unfold chat_completion.
  destruct (groq_loop _ _ _ _ _) as [[rl km1] evl] eqn:E.
  destruct (groq_loop_frame _ _ _ _ _ _ Hwf E) as (Hwf1 & _ & Ho & Hp & Hr).
  rewrite Ho.
  destruct rl as [[v|]|e]; [| |by destruct (Hr e)].
  - intros [= <- <- <-]. exists (Ret (Some v)), evl. split_and!; try done.
    left. by exists v.
  - destruct (truthy (openrouter_key km)) eqn:Ht; cbn [negb].
    + destruct (openrouter_try _) eqn:Eo; intros [= <- <- <-];
        exists (Ret None), evl; (split_and!; try done); right; (split; [done|]);
        eexists; (split_and!; try done); cbn zeta; by rewrite Eo.
    + intros [= <- <- <-]. exists (Ret None), evl. split_and!; try done.
      right. split; [done|]. exists []. by split_and!.
Qed.

(** The trace of [n] rate-limited attempts that start at cursor [c]. *)
Definition walk (keys : list string) (c n : nat) : list event :=
  flat_map (fun j =>
              let i := (c + j) mod length keys in
              [GroqPost i (default EmptyString (keys !! i));
               GroqRateLimit i;
               Rotated ((i + 1) mod length keys)])
           (seq 0 n).

Lemma walk_S keys c n :
  c < length keys ->
  walk keys c (S n) =
    [GroqPost c (default EmptyString (keys !! c)); GroqRateLimit c;
     Rotated ((c + 1) mod length keys)]
    ++ walk keys ((c + 1) mod length keys) n.
Proof.
  intros Hc. unfold walk. cbn [seq flat_map].
  rewrite Nat.add_0_r, (Nat.mod_small c) by done. f_equal.
  rewrite <- seq_shift, flat_map_concat_map, map_map, <- flat_map_concat_map.
  apply flat_map_ext. intros j.
  assert (((c + 1) mod length keys + j) mod length keys
          = (c + S j) mod length keys) as ->; [|done].
  rewrite Nat.Div0.add_mod_idemp_l. f_equal. lia.
Qed.

Lemma posted_walk keys c n :
  posted (walk keys c n) = map (fun j => (c + j) mod length keys) (seq 0 n).
Proof.
  unfold walk. induction (seq 0 n) as [|j l IH]; [done|].
  cbn. by rewrite <- IH.
Qed.

Lemma rotations_walk keys c n : rotations (walk keys c n) = n.
Proof.
  unfold walk. transitivity (length (seq 0 n)); [|apply length_seq].
  induction (seq 0 n) as [|j l IH]; [done|].
  unfold rotations in *. cbn. by rewrite IH.
Qed.

Lemma walk_primary keys c n : forallb is_primary_event (walk keys c n) = true.
Proof. unfold walk. induction (seq 0 n) as [|j l IH]; [done|]. by cbn. Qed.

Lemma seq_add_map c n : seq c n = map (Nat.add c) (seq 0 n).
Proof.
  revert c. induction n as [|n IH]; intros c; [done|].
  cbn [seq map]. rewrite Nat.add_0_r. f_equal.
  rewrite <- (seq_shift n 0), map_map, IH. apply map_ext. intros; lia.
Qed.

(** Starting anywhere and stepping [N] times modulo [N] visits every
    index below [N] exactly once. *)
Lemma cycle_permutation c N :
  c < N -> map (fun j => (c + j) mod N) (seq 0 N) ≡ₚ seq 0 N.
Proof.
  intros Hc.
  assert (Hsplit : seq 0 N = seq 0 (N - c) ++ seq (N - c) c).
  { rewrite <- seq_app. f_equal. lia. }
  transitivity (seq c (N - c) ++ seq 0 c).
  - rewrite Hsplit, map_app. apply reflexive_eq. f_equal.
    + rewrite (seq_add_map c). apply map_ext_in. intros j Hj%in_seq.
      rewrite Nat.mod_small; lia.
    + rewrite (seq_add_map (N - c)), map_map.
      rewrite <- (map_id (seq 0 c)) at 2.
      apply map_ext_in. intros j Hj%in_seq.
      replace (c + (N - c + j)) with (j + 1 * N) by lia.
      rewrite Nat.Div0.mod_add, Nat.mod_small; lia.
  - rewrite Permutation_app_comm, <- seq_app.
    by replace (c + (N - c)) with N by lia.
Qed.

Lemma groq_loop_rate_limited P messages n a km :
  wf km -> groq_keys km <> [] ->
  (forall a' key, a <= a' < a + n ->
     exists resp, groq_api P a' key messages = PostReturns resp
                  /\ status_code resp = 429%Z) ->
  groq_loop P messages n a km =
    (Ret None,
     set_index km ((current_groq_index km + n) mod length (groq_keys km)),
     walk (groq_keys km) (current_groq_index km) n).
Proof.
  revert a km. induction n as [|n IH]; intros a km Hwf Hne H429.
  - cbn. rewrite Nat.add_0_r. destruct Hwf as [_ [?|?]]; [done|].
    rewrite Nat.mod_small by done. by destruct km.
  - destruct (wf_current km Hwf Hne) as (key & Hkey & _ & Ht).
    rewrite (groq_loop_step _ _ _ _ _ key) by done. cbn zeta.
    destruct (H429 a key) as (resp & -> & Hs); [lia|].
    unfold groq_try. rewrite Hs. cbn [Z.eqb Pos.eqb].
    set (i' := (current_groq_index km + 1) mod length (groq_keys km)).
    assert (Hwf' : wf (set_index km i')).
    { pose proof (rotate_wf km Hwf) as H. by rewrite rotate_nonempty in H. }
    rewrite IH; [|done|done|intros; apply H429; lia].
    cbn [groq_keys current_groq_index set_index].
    destruct Hwf as [_ [?|Hlt]]; [done|].
    rewrite walk_S by done. rewrite Hkey. cbn [default app].
    unfold i'. rewrite Nat.Div0.add_mod_idemp_l.
    by replace (current_groq_index km + 1 + n)
         with (current_groq_index km + S n) by lia.
Qed.

Lemma groq_loop_returned P messages n a km v km' tr :
  groq_loop P messages n a km = (Ret (Some v), km', tr) ->
  exists a' key, groq_try (groq_api P a' key messages) = Returned v.
Proof.
  revert a km tr. induction n as [|n IH]; intros a km tr; [done|].
  cbn [groq_loop]. destruct (_get_current_groq_key km) as [ck|]; [|done].
  destruct (negb (truthy ck)); [done|].
  destruct (groq_try _) as [w| |e] eqn:E.
  - intros [= -> <- <-]. eauto.
  - destruct (_rotate_groq_key km) as [km1 ev].
    destruct (groq_loop P messages n (S a) km1) as [[r2 km2] evs] eqn:E2.
    intros [= -> <- <-]. eauto.
  - destruct (_rotate_groq_key km) as [km1 ev].
    destruct (groq_loop P messages n (S a) km1) as [[r2 km2] evs] eqn:E2.
    intros [= -> <- <-]. eauto.
Qed.

(** The providers answer with text whenever they answer. *)
Definition text_replies P : Prop :=
  (forall a key messages v,
     groq_try (groq_api P a key messages) = Returned v -> is_str v = true)
  /\ (forall key messages v,
        openrouter_try (openrouter_api P key messages) = Ret v ->
        is_str v = true).

(** Every path of the call but one returns a string: both terminal
    messages are strings, and a reply is what the provider put under
    [content]. *)
Lemma chat_completion_text P messages km :
  wf km -> text_replies P ->
  exists s, fst (fst (chat_completion P messages km)) = Ret (PyStr s).
Proof.
  intros Hwf [Hg Ho].
  destruct (chat_completion P messages km) as [[r km'] tr] eqn:E.
  destruct (chat_completion_origin _ _ _ _ _ _ Hwf E)
    as (rl & evl & El & _ & [(v & -> & -> & _)|(-> & tail & _ & Hno & Hyes)]).
  - apply groq_loop_returned in El as (a' & key & Hv). apply Hg in Hv.
    destruct v; try done. by eexists.
  - cbn. destruct (truthy (openrouter_key km)) eqn:Ht.
    + specialize (Hyes eq_refl). cbn zeta in Hyes.
      destruct (openrouter_try _) as [v|e] eqn:Ev.
      * destruct Hyes as [-> _]. apply Ho in Ev. destruct v; try done.
        by eexists.
      * destruct Hyes as [-> _]. by eexists.
    + destruct (Hno eq_refl) as [-> _]. by eexists.
Qed.

Lemma chat_completion_first_post P messages km key :
  wf km -> groq_keys km !! current_groq_index km = Some key ->
  exists tr', snd (chat_completion P messages km)
              = GroqPost (current_groq_index km) key :: tr'.
Proof.
  intros Hwf Hkey.
  assert (Hne : groq_keys km <> []) by (intros He; by rewrite He in Hkey).
  destruct (wf_current km Hwf Hne) as (key' & Hkey' & _ & Ht).
  assert (key' = key) as -> by congruence.
  unfold chat_completion.
  destruct (length (groq_keys km)) as [|n] eqn:El;
    [by destruct (groq_keys km)|].
  rewrite (groq_loop_step _ _ _ _ _ key) by done. cbn zeta.
  destruct (groq_try _).
  - by eexists.
  - destruct (groq_loop _ _ _ _ _) as [[r2 km2] evs].
    destruct r2 as [[v|]|e]; [by eexists| |by eexists].
    destruct (negb _); [by eexists|]. destruct (openrouter_try _); by eexists.
  - destruct (groq_loop _ _ _ _ _) as [[r2 km2] evs].
    destruct r2 as [[v|]|e']; [by eexists| |by eexists].
    destruct (negb _); [by eexists|]. destruct (openrouter_try _); by eexists.
Qed.

(** *** Concrete providers and key sets *)

(** An environment given as a list of variable bindings. *)
Definition getenv_of (vars : list (string * string)) : string -> option string :=
  fun k => assoc k vars.

(** The body of a chat-completions answer with a given [content]. *)
Definition completion (reply : pyval) : pyval :=
  PyDict [("choices",
           PyList [PyDict [("message",
                            PyDict [("role", PyStr "assistant");
                                    ("content", reply)])]])].

Definition answers (reply : pyval) : post_outcome :=
  PostReturns {| status_code := 200; json := Ret (completion reply) |}.

Definition rate_limit : post_outcome :=
  PostReturns {| status_code := 429; json := Raise JSONDecodeError |}.

Definition unreachable : post_outcome := PostRaises (TransportError "connect").

(** Providers that give the same outcome at every post. *)
Definition always (primary secondary : post_outcome) : providers :=
  {| groq_api := fun _ _ _ => primary;
     openrouter_api := fun _ _ => secondary |}.

Definition two_keys : state :=
  init (getenv_of [("GROQ_API_KEY_1", "gsk_1"); ("GROQ_API_KEY_2", "gsk_2");
                   ("OPENROUTER_API_KEY", "sk-or-1")]).

Definition two_keys_no_secondary : state :=
  init (getenv_of [("GROQ_API_KEY_1", "gsk_1"); ("GROQ_API_KEY_2", "gsk_2")]).

(** C1 (defect of the code). [chat_completion] is declared to return
    [str] and the design has it return a string at every outcome of the
    providers. It never raises ([chat_completion_never_raises]) and it
    returns a string whenever the providers answer with text
    ([chat_completion_text]), but a 200 answer of the primary provider
    whose [content] is [null] is returned as it is: the call returns [None],
    which is not a string. The same happens at the secondary provider. *)
Theorem chat_completion_returns_None_on_null_content :
  fst (fst (chat_completion (always (answers PyNone) unreachable) []
              two_keys)) = Ret PyNone
  /\ fst (fst (chat_completion (always rate_limit (answers PyNone)) []
                 two_keys)) = Ret PyNone
  /\ is_str PyNone = false.
Proof. split_and!; reflexivity. Qed.

(** C2. In a call on a non-empty pool of [N] keys, started at any cursor
    [c], in which every primary post is answered with status 429: the
    trace is the walk of [N] attempts from [c] (each a post with the key
    under the cursor, the rate-limit warning, a rotation), followed by the
    failover; the indices posted are each index below [N] exactly once;
    there are exactly [N] rotations, none after the failover starts; and
    the cursor ends where it started. *)
Theorem rate_limited_pool_is_walked_once P messages km r km' tr :
  wf km -> groq_keys km <> [] ->
  (forall a key, a < length (groq_keys km) ->
     exists resp, groq_api P a key messages = PostReturns resp
                  /\ status_code resp = 429%Z) ->
  chat_completion P messages km = (r, km', tr) ->
  let N := length (groq_keys km) in
  let c := current_groq_index km in
  exists tail,
    tr = walk (groq_keys km) c N ++ Failover :: tail
    /\ posted (walk (groq_keys km) c N) ≡ₚ seq 0 N
    /\ rotations (walk (groq_keys km) c N) = N
    /\ (Failover ∉ walk (groq_keys km) c N)
    /\ posted tail = [] /\ rotations tail = 0
    /\ current_groq_index km' = c
    /\ groq_keys km' = groq_keys km.
Proof.
  intros Hwf Hne H429 E N c.
  assert (Hc : c < N) by (destruct Hwf as [_ [?|?]]; done).
  destruct (chat_completion_origin _ _ _ _ _ _ Hwf E)
    as (rl & evl & El & _ & Hcases).
  rewrite groq_loop_rate_limited in El; [|done|done|intros; apply H429; lia].
  injection El as <- <- <-.
  destruct Hcases as [(v & ? & _)|(_ & tail & -> & Hno & Hyes)]; [done|].
  exists tail. split_and!.
  - done.
  - rewrite posted_walk. by apply cycle_permutation.
  - apply rotations_walk.
  - apply primary_events_no_failover, walk_primary.
  - destruct (truthy (openrouter_key km)).
    + specialize (Hyes eq_refl). cbn zeta in Hyes.
      destruct (openrouter_try _); by destruct Hyes as [_ ->].
    + by destruct (Hno eq_refl) as [_ ->].
  - destruct (truthy (openrouter_key km)).
    + specialize (Hyes eq_refl). cbn zeta in Hyes.
      destruct (openrouter_try _); by destruct Hyes as [_ ->].
    + by destruct (Hno eq_refl) as [_ ->].
  - cbn. fold N c. replace (c + N) with (c + 1 * N) by lia.
    rewrite Nat.Div0.mod_add. by apply Nat.mod_small.
  - done.
Qed.

Lemma rate_limited_pool_is_walked_once_witness :
  exists tail,
    snd (chat_completion (always rate_limit (answers (PyStr "ok"))) []
           two_keys)
    = walk ["gsk_1"; "gsk_2"] 0 2 ++ Failover :: tail
    /\ posted (walk ["gsk_1"; "gsk_2"] 0 2) ≡ₚ seq 0 2
    /\ rotations (walk ["gsk_1"; "gsk_2"] 0 2) = 2
    /\ (Failover ∉ walk ["gsk_1"; "gsk_2"] 0 2)
    /\ posted tail = [] /\ rotations tail = 0
    /\ 0 = 0
    /\ ["gsk_1"; "gsk_2"] = ["gsk_1"; "gsk_2"].
Proof.
  apply (rate_limited_pool_is_walked_once
           (always rate_limit (answers (PyStr "ok"))) [] two_keys
           (Ret (PyStr "ok")) (set_index two_keys 0)).
  - apply init_wf.
  - discriminate.
  - intros a key _. eexists. split; reflexivity.
  - reflexivity.
Defined.

(** The end-to-end scenario of the design: two keys, both rate-limited,
    the secondary provider answers. *)
Example two_rate_limits_then_secondary :
  chat_completion (always rate_limit (answers (PyStr "ok"))) [] two_keys
  = (Ret (PyStr "ok"), two_keys,
     [GroqPost 0 "gsk_1"; GroqRateLimit 0; Rotated 1;
      GroqPost 1 "gsk_2"; GroqRateLimit 1; Rotated 0;
      Failover; OpenRouterPost "sk-or-1"]).
Proof. reflexivity. Qed.

(** C3, as the code has it. When a call reaches the failover tier, each of
    the two terminal failures has its own fixed reply: without a secondary
    key the reply is [no_keys_message] and no secondary post is made; with
    a secondary key whose request fails the reply is [trouble_message] and
    the failure is logged. Neither depends on the transcript or on the kind
    of failure, and the two texts differ. *)
Theorem degraded_reply_by_case P messages km r km' tr :
  wf km ->
  chat_completion P messages km = (r, km', tr) ->
  Failover ∈ tr ->
  (truthy (openrouter_key km) = false ->
     r = Ret (PyStr no_keys_message)
     /\ forall e, e ∈ tr -> e = Failover \/ is_primary_event e = true)
  /\ (forall e,
        truthy (openrouter_key km) = true ->
        openrouter_try
          (openrouter_api P (default EmptyString (openrouter_key km)) messages)
        = Raise e ->
        r = Ret (PyStr trouble_message) /\ OpenRouterFailed e ∈ tr)
  /\ no_keys_message <> trouble_message.
Proof.
  intros Hwf E Hin.
  destruct (chat_completion_origin _ _ _ _ _ _ Hwf E)
    as (rl & evl & El & Hp & [(v & _ & _ & ->)|(_ & tail & -> & Hno & Hyes)]).
  { by apply primary_events_no_failover in Hp. }
  split_and!.
  - intros Ht. destruct (Hno Ht) as [-> ->]. split; [done|].
    intros e [He|He]%elem_of_app.
    + right. rewrite forallb_forall in Hp. by apply Hp, list_elem_of_In.
    + left. by apply list_elem_of_singleton in He.
  - intros e Ht Ee. specialize (Hyes Ht). cbn zeta in Hyes.
    rewrite Ee in Hyes. destruct Hyes as [-> ->]. split; [done|].
    apply elem_of_app. right.
    apply list_elem_of_further, list_elem_of_further, list_elem_of_here.
  - discriminate.
Qed.

Lemma degraded_reply_by_case_witness :
  Failover ∈ snd (chat_completion (always unreachable unreachable) [] two_keys)
  /\ truthy (openrouter_key two_keys) = true
  /\ fst (fst (chat_completion (always unreachable unreachable) [] two_keys))
     = Ret (PyStr trouble_message)
  /\ OpenRouterFailed (TransportError "connect")
     ∈ snd (chat_completion (always unreachable unreachable) [] two_keys).
Proof.
  assert (Hin : Failover
                ∈ snd (chat_completion (always unreachable unreachable) []
                         two_keys)).
  { apply (bool_decide_unpack _). vm_compute. exact I. }
  split; [exact Hin|]. split; [reflexivity|].
  exact (proj1 (proj2
    (degraded_reply_by_case (always unreachable unreachable) [] two_keys
       (Ret (PyStr trouble_message)) two_keys
       (snd (chat_completion (always unreachable unreachable) [] two_keys))
       (init_wf _) eq_refl Hin))
    (TransportError "connect") eq_refl eq_refl).
Defined.

(** C3, as stated, fails: with the primary pool exhausted, a manager
    without a secondary key and one whose secondary request fails give
    different texts. *)
Lemma degraded_replies_differ :
  fst (fst (chat_completion (always unreachable unreachable) []
              two_keys_no_secondary))
  = Ret (PyStr "Server Error: No valid API keys available.")
  /\ fst (fst (chat_completion (always unreachable unreachable) [] two_keys))
     = Ret (PyStr "I am having trouble connecting. Can you say that again?")
  /\ fst (fst (chat_completion (always unreachable unreachable) []
                 two_keys_no_secondary))
     <> fst (fst (chat_completion (always unreachable unreachable) []
                    two_keys)).
Proof. split_and!; [reflexivity|reflexivity|discriminate]. Qed.

(** C10. A call that returns from the primary tier (its trace has no
    failover) ends with the post that succeeded; every attempt before it
    was followed by one rotation; the cursor is left on the index of that
    post, and the next call, whatever the providers do then, starts by
    posting with the same key. *)
Theorem primary_success_keeps_cursor P messages km r km' tr :
  wf km ->
  chat_completion P messages km = (r, km', tr) ->
  Failover ∉ tr ->
  exists v pre i key,
    r = Ret v
    /\ tr = pre ++ [GroqPost i key]
    /\ rotations pre = length (posted pre)
    /\ current_groq_index km' = i
    /\ groq_keys km' = groq_keys km
    /\ groq_keys km' !! i = Some key
    /\ forall P' messages',
         exists tr', snd (chat_completion P' messages' km')
                     = GroqPost i key :: tr'.
Proof.
  intros Hwf E Hno.
  destruct (chat_completion_origin _ _ _ _ _ _ Hwf E)
    as (rl & evl & El & Hp & [(v & -> & -> & ->)|(_ & tail & -> & _)]).
  2:{ exfalso. apply Hno, elem_of_app. right. apply list_elem_of_here. }
  destruct (decide (groq_keys km = [])) as [He|Hne].
  { rewrite He in El. done. }
  destruct (groq_loop_inv _ _ _ _ _ _ _ _ Hwf Hne El)
    as (Hwf' & Hk & _ & _ & pre & i & key & -> & Hi & Hkey & Hr).
  exists v, pre, i, key. split_and!; try done.
  - by rewrite Hk.
  - intros P' messages'. subst i.
    apply chat_completion_first_post; [done|]. by rewrite Hk.
Qed.

Lemma primary_success_keeps_cursor_witness :
  exists v pre i key,
    Ret (PyStr "hello") = Ret v
    /\ [GroqPost 0 "gsk_1"] = pre ++ [GroqPost i key]
    /\ rotations pre = length (posted pre)
    /\ current_groq_index two_keys = i
    /\ groq_keys two_keys = groq_keys two_keys
    /\ groq_keys two_keys !! i = Some key
    /\ forall P' messages',
         exists tr', snd (chat_completion P' messages' two_keys)
                     = GroqPost i key :: tr'.
Proof.
  apply (primary_success_keeps_cursor
           (always (answers (PyStr "hello")) unreachable) [] two_keys
           (Ret (PyStr "hello")) two_keys [GroqPost 0 "gsk_1"]).
  - apply init_wf.
  - reflexivity.
  - apply (bool_decide_unpack _). vm_compute. exact I.
Defined.

(** After one failure the cursor stays on the key that then succeeded. *)
Example rotation_then_success :
  chat_completion
    {| groq_api := fun a _ _ => if a =? 0 then rate_limit
                                else answers (PyStr "hi");
       openrouter_api := fun _ _ => unreachable |} [] two_keys
  = (Ret (PyStr "hi"), set_index two_keys 1,
     [GroqPost 0 "gsk_1"; GroqRateLimit 0; Rotated 1; GroqPost 1 "gsk_2"]).
Proof. reflexivity. Qed.
End Gateway.

(** ** Persona selection *)

Section Personas.

Import PersonaManager.

Variable str_lower : string -> string.

Implicit Types (h ext : heap) (pm : self) (P : Persona) (msg : string).

(** The entry of the catalog under [key], read off the heap. *)
Definition stored h pm (key : string) : option Persona :=
  match personas pm with
  | VRef lp =>
      match h !! lp with
      | Some (ODict es) =>
          match assoc key es with
          | Some p => read_persona h p
          | None => None
          end
      | _ => None
      end
  | _ => None
  end.

(** The catalog in declaration order, as [PersonaManager()] builds it. *)
Definition catalog : list (string * Persona) :=
  match personas init_self with
  | VRef lp =>
      match init_heap !! lp with
      | Some (ODict es) =>
          omap (fun e => match read_persona init_heap (snd e) with
                         | Some P => Some (fst e, P)
                         | None => None
                         end) es
      | _ => []
      end
  | _ => []
  end.

Definition grandma : Persona :=
  default {| name := EmptyString; trigger_words := [];
             system_prompt := EmptyString |} (assoc "grandma" catalog).

(** Selection in the words of the design: the first persona, in
    declaration order, one of whose trigger keywords occurs in the
    lower-cased message; the default persona if there is none; the
    language directive appended to the directive of the one chosen. *)
Definition matches msg P : bool := any_in (trigger_words P) msg.

Definition with_directive (d : string) P : Persona :=
  {| name := name P; trigger_words := trigger_words P;
     system_prompt := system_prompt P +:+ d |}.

Definition first_match (message : string) : Persona :=
  let msg := str_lower message in
  with_directive the_hinglish_directive
    (match find (fun e => matches msg (snd e)) catalog with
     | Some e => snd e
     | None => grandma
     end).

Example catalog_order :
  map (fun e => (fst e, name (snd e), trigger_words (snd e))) catalog
  = [("grandma", "Grandma Edna",
      ["mam"; "madam"; "mother"; "auntie"; "mummy"; "old"]);
     ("uncle", "Uncle Sharma",
      ["sir"; "mr"; "police"; "cbi"; "officer"; "inspector"; "arrest";
       "block"]);
     ("student", "Rahul",
      ["bro"; "dude"; "job"; "salary"; "earn"; "friend"; "yar"; "cash";
       "lottery"])].
Proof. reflexivity. Qed.

(** *** Layout of a catalog on the heap *)

(** Where one persona lives: its dict at [at_], its list of trigger words
    at [words_at]. *)
Record slot : Type := {
  key : string;
  at_ : nat;
  words_at : nat;
  value : Persona
}.

Definition persona_obj (lw : nat) P : obj :=
  ODict [("name", VStr (name P)); ("trigger_words", VRef lw);
         ("system_prompt", VStr (system_prompt P))].

Definition laid_out h (s : slot) : Prop :=
  h !! at_ s = Some (persona_obj (words_at s) (value s))
  /\ h !! words_at s = Some (OList (map VStr (trigger_words (value s)))).

Definition models h pm (lay : list slot) : Prop :=
  exists lp,
    personas pm = VRef lp
    /\ h !! lp = Some (ODict (map (fun s => (key s, VRef (at_ s))) lay))
    /\ Forall (laid_out h) lay.

Lemma laid_out_mono h ext s : laid_out h s -> laid_out (h ++ ext) s.
Proof. intros [H1 H2]. split; by apply lookup_app_l_Some. Qed.

Lemma models_mono h ext pm lay : models h pm lay -> models (h ++ ext) pm lay.
Proof.
  intros (lp & Hp & Hd & Hl). exists lp. split_and!; [done| |].
  - by apply lookup_app_l_Some.
  - eapply Forall_impl; [exact Hl|]. intros s. apply laid_out_mono.
Qed.

Lemma any_word_in_strs (ws : list string) msg h :
  any_word_in (map VStr ws) msg h = (Ret (any_in ws msg), h).
Proof.
  induction ws as [|w ws IH]; [done|]. cbn.
  destruct (is_substring w msg); [done|]. exact IH.
Qed.

Lemma mapM_as_str (ws : list string) : mapM as_str (map VStr ws) = Some ws.
Proof. induction ws as [|w ws IH]; [done|]. cbn. by rewrite IH. Qed.

Lemma read_laid_out h s :
  laid_out h s -> read_persona h (VRef (at_ s)) = Some (value s).
Proof.
  intros [H1 H2]. unfold read_persona. rewrite H1. cbn.
  rewrite H2, mapM_as_str. by destruct (value s).
Qed.

(** The copy is a new object at the end of the heap; nothing else
    changes. *)
Lemma copy_with_directive_at h pm s :
  laid_out h s ->
  copy_with_directive pm (VRef (at_ s)) h
  = (Ret (VRef (length h)),
     h ++ [persona_obj (words_at s)
             (with_directive (hinglish_directive pm) (value s))]).
Proof.
  intros [H1 H2]. unfold copy_with_directive, copy, mbind, deref, alloc.
  rewrite H1. unfold dict_iadd, dict_getitem, mbind, deref.
  rewrite list_lookup_middle by done. cbn.
  unfold dict_setitem, mbind, deref. rewrite list_lookup_middle by done. cbn.
  unfold store, ret. f_equal.
  rewrite insert_app_r_alt by done. by rewrite Nat.sub_diag.
Qed.

Definition entries (lay : list slot) : list (string * val) :=
  map (fun s => (key s, VRef (at_ s))) lay.

Definition copy_of pm (s : slot) : obj :=
  persona_obj (words_at s) (with_directive (hinglish_directive pm) (value s)).

Lemma scan_spec h pm msg lay :
  Forall (laid_out h) lay ->
  scan pm msg (entries lay) h
  = match find (fun s => matches msg (value s)) lay with
    | Some s => (Ret (Some (VRef (length h))), h ++ [copy_of pm s])
    | None => (Ret None, h)
    end.
Proof.
  induction 1 as [|s lay Hs Hl IH]; [done|].
  cbn [entries map scan find]. fold (entries lay).
  pose proof Hs as [H1 H2].
  unfold mbind at 1. unfold dict_getitem at 1. unfold mbind at 1.
  unfold deref at 1. rewrite H1. cbn [persona_obj assoc String.eqb].
  cbn. unfold mbind at 1. unfold iterate, mbind, deref. rewrite H2.
  unfold ret at 1. rewrite any_word_in_strs. fold (matches msg (value s)).
  destruct (matches msg (value s)).
  - rewrite copy_with_directive_at by done. done.
  - exact IH.
Qed.

Lemma assoc_entries lay k :
  assoc k (entries lay)
  = (fun s => VRef (at_ s)) <$> find (fun s => String.eqb k (key s)) lay.
Proof.
  induction lay as [|s lay IH]; [done|]. cbn.
  by destruct (String.eqb k (key s)).
Qed.

Lemma find_laid_out {h lay} f s :
  Forall (laid_out h) lay -> find f lay = Some s -> laid_out h s.
Proof.
  intros Hl Hf. apply find_some in Hf as [Hin _].
  rewrite Forall_forall in Hl. by apply Hl, list_elem_of_In.
Qed.

(** The slot that selection settles on. *)
Definition chosen (lay : list slot) (fallback : slot) msg : slot :=
  default fallback (find (fun s => matches msg (value s)) lay).

Lemma select_persona_spec h pm lay g message :
  models h pm lay ->
  find (fun s => String.eqb "grandma" (key s)) lay = Some g ->
  select_persona str_lower pm message h
  = (Ret (VRef (length h)),
     h ++ [copy_of pm (chosen lay g (str_lower message))]).
Proof.
  intros (lp & Hp & Hd & Hl) Hg. unfold select_persona, chosen.
  unfold mbind at 1. unfold dict_items, mbind, deref. rewrite Hp, Hd.
  unfold ret at 1. fold (entries lay). rewrite scan_spec by done.
  destruct (find (fun s => matches _ (value s)) lay) as [s|] eqn:Ef;
    [done|]. cbn [default].
  unfold dict_getitem, mbind, deref. rewrite Hd. fold (entries lay).
  rewrite assoc_entries, Hg. cbn [fmap option_fmap option_map ret].
  apply copy_with_directive_at. eapply find_laid_out; [exact Hl|exact Hg].
Qed.

Lemma read_copy h pm s :
  laid_out h s ->
  read_persona (h ++ [copy_of pm s]) (VRef (length h))
  = Some (with_directive (hinglish_directive pm) (value s)).
Proof.
  intros [_ H2]. unfold read_persona. rewrite list_lookup_middle by done.
  cbn. rewrite (lookup_app_l_Some _ _ _ _ H2). by rewrite mapM_as_str.
Qed.

Lemma stored_models h pm lay k :
  models h pm lay ->
  stored h pm k = value <$> find (fun s => String.eqb k (key s)) lay.
Proof.
  intros (lp & Hp & Hd & Hl). unfold stored. rewrite Hp, Hd.
  fold (entries lay). rewrite assoc_entries.
  destruct (find _ lay) as [s|] eqn:Ef; [|done]. cbn.
  apply read_laid_out. eapply find_laid_out; [exact Hl|exact Ef].
Qed.

(** *** The catalog of the program *)

Definition slot_of (k : string) (l lw : nat) : slot :=
  {| key := k; at_ := l; words_at := lw;
     value := default grandma (assoc k catalog) |}.

Definition init_layout : list slot :=
  [slot_of "grandma" 1 0; slot_of "uncle" 3 2; slot_of "student" 5 4].

Lemma init_models : models init_heap init_self init_layout.
Proof.
  exists 6. split_and!; [reflexivity|reflexivity|].
  repeat constructor.
Qed.

Lemma init_layout_catalog :
  map (fun s => (key s, value s)) init_layout = catalog.
Proof. reflexivity. Qed.

Lemma init_grandma :
  find (fun s => String.eqb "grandma" (key s)) init_layout
  = Some (slot_of "grandma" 1 0).
Proof. reflexivity. Qed.

Lemma chosen_first_match message :
  with_directive the_hinglish_directive
    (value (chosen init_layout (slot_of "grandma" 1 0) (str_lower message)))
  = first_match message.
Proof.
  unfold first_match, chosen. rewrite <- init_layout_catalog.
  unfold init_layout. cbn [map find snd value slot_of].
  repeat match goal with
         | |- context [matches ?m ?P] => destruct (matches m P)
         end; reflexivity.
Qed.

Lemma selections_extend (ms : list string) ext :
  exists ext',
    selections str_lower init_self ms (init_heap ++ ext) = init_heap ++ ext'.
Proof.
  revert ext. induction ms as [|m ms IH]; intros ext; [by exists ext|].
  cbn [selections].
  rewrite (select_persona_spec _ _ init_layout (slot_of "grandma" 1 0));
    [|apply models_mono, init_models|apply init_grandma].
  cbn [snd]. rewrite <- app_assoc. apply IH.
Qed.

Lemma select_persona_after (earlier : list string) (message : string) :
  exists ext,
    let h := init_heap ++ ext in
    let s := chosen init_layout (slot_of "grandma" 1 0) (str_lower message) in
    selections str_lower init_self earlier init_heap = h
    /\ select_persona str_lower init_self message h
       = (Ret (VRef (length h)), h ++ [copy_of init_self s])
    /\ read_persona (h ++ [copy_of init_self s]) (VRef (length h))
       = Some (first_match message).
Proof.
  destruct (selections_extend earlier []) as [ext Hext].
  rewrite app_nil_r in Hext. exists ext. cbn zeta.
  pose proof (models_mono _ ext _ _ init_models) as Hm.
  split_and!; [done| |].
  - by apply select_persona_spec.
  - rewrite <- chosen_first_match. apply (read_copy _ init_self).
    destruct Hm as (_ & _ & _ & Hl). unfold chosen.
    destruct (find _ init_layout) as [s|] eqn:Ef; cbn [default].
    + eapply find_laid_out; [exact Hl|exact Ef].
    + eapply find_laid_out; [exact Hl|exact init_grandma].
Qed.

(** What [main.py] sees of a selection. *)
Lemma selected_first_match (message : string) :
  selected str_lower message = Ret (first_match message).
Proof.
  destruct (select_persona_after [] message) as (ext & Hs & Hsel & Hread).
  cbn [selections] in Hs. rewrite <- Hs in Hsel, Hread.
  unfold selected. rewrite Hsel. by rewrite Hread.
Qed.

(** C4. However many selections came before, [select_persona] succeeds and
    the persona it returns is the one of the design's rule: the message is
    lower-cased, the personas are tried in declaration order (grandma,
    uncle, student), the first one a trigger keyword of which occurs in the
    message is taken, the default persona (grandma) if there is none, and
    the language directive is appended to its directive. The result is a
    function of the message alone. *)
Theorem select_persona_is_first_match (earlier : list string) (message : string) :
  exists p h',
    select_persona str_lower init_self message
      (selections str_lower init_self earlier init_heap) = (Ret p, h')
    /\ read_persona h' p = Some (first_match message).
Proof.
  destruct (select_persona_after earlier message) as (ext & -> & Hsel & Hread).
  eauto.
Qed.

(** C5. After any sequence of selections the heap is the initial heap
    followed by the copies made: the catalog objects are what they were,
    so every key of the catalog reads as the persona it held at the start.
    A further selection returns a new object, changes no existing one, and
    its directive is the original directive of a catalog persona followed
    by the language directive, once. *)
Theorem selection_never_mutates_catalog (earlier : list string) :
  let h := selections str_lower init_self earlier init_heap in
  (exists ext, h = init_heap ++ ext)
  /\ (forall k, stored h init_self k = stored init_heap init_self k)
  /\ (forall message, exists p h' P,
        select_persona str_lower init_self message h = (Ret p, h')
        /\ (forall l o, h !! l = Some o -> h' !! l = Some o)
        /\ (forall k, stored h' init_self k = stored init_heap init_self k)
        /\ In P (map snd catalog)
        /\ read_persona h' p
           = Some {| name := name P; trigger_words := trigger_words P;
                     system_prompt :=
                       system_prompt P +:+ the_hinglish_directive |}).
Proof.
  cbn zeta.
  destruct (selections_extend earlier []) as [ext Hext].
  rewrite app_nil_r in Hext. rewrite Hext.
  pose proof (models_mono _ ext _ _ init_models) as Hm.
  split_and!.
  - by exists ext.
  - intros k. by rewrite (stored_models _ _ _ _ Hm),
                         (stored_models _ _ _ _ init_models).
  - intros message.
    set (s := chosen init_layout (slot_of "grandma" 1 0) (str_lower message)).
    assert (Hs : laid_out (init_heap ++ ext) s).
    { destruct Hm as (_ & _ & _ & Hl). unfold s, chosen.
      destruct (find _ init_layout) as [s'|] eqn:Ef; cbn [default].
      - eapply find_laid_out; [exact Hl|exact Ef].
      - eapply find_laid_out; [exact Hl|exact init_grandma]. }
    exists (VRef (length (init_heap ++ ext))),
           ((init_heap ++ ext) ++ [copy_of init_self s]), (value s).
    split_and!.
    + by apply select_persona_spec.
    + intros l o. apply lookup_app_l_Some.
    + intros k.
      by rewrite (stored_models _ _ _ _ (models_mono _ _ _ _ Hm)),
                 (stored_models _ _ _ _ init_models).
    + rewrite <- init_layout_catalog, map_map. cbn [snd].
      unfold s, chosen.
      destruct (find _ init_layout) as [s'|] eqn:Ef; cbn [default].
      * apply find_some in Ef as [Hin _]. by apply in_map.
      * cbn. auto.
    + by rewrite (read_copy _ init_self).
Qed.
End Personas.

(** Declaration order decides when the keywords of several personas occur:
    [sir] (uncle) and [bro] (student) give the uncle, whichever comes first
    in the message; [madam] (grandma) wins over both. *)
Example sir_and_bro :
  option_map PersonaManager.name
    (match PersonaManager.selected ascii_lower "Listen BRO, I am calling you Sir" with
     | Ret P => Some P
     | Raise _ => None
     end) = Some "Uncle Sharma"
  /\ PersonaManager.name (first_match ascii_lower "Madam, sir, bro!")
     = "Grandma Edna"
  /\ PersonaManager.name (first_match ascii_lower "Easy CASH for you")
     = "Rahul"
  /\ PersonaManager.name (first_match ascii_lower "Hello there")
     = "Grandma Edna".
Proof. split_and!; reflexivity. Qed.

Example stored_catalog :
  PersonaManager.system_prompt
    <$> stored PersonaManager.init_heap PersonaManager.init_self "uncle"
  = Some PersonaManager.uncle_prompt.
Proof. reflexivity. Qed.

(** ** The scan for a payment handle *)

Section Scan.

Import Re.

Implicit Types (s u w : string) (p : list item) (c : ascii -> bool).

Fixpoint all_in c s : bool :=
  match s with
  | EmptyString => true
  | String a s' => c a && all_in c s'
  end.

(** The strings a pattern describes: for each item in turn, between [lo]
    and [hi] characters of its class. *)
Fixpoint in_grammar p u : Prop :=
  match p with
  | [] => u = EmptyString
  | it :: p' =>
      exists w rest,
        u = w +:+ rest
        /\ lo it <= String.length w <= hi it
        /\ all_in (cls it) w = true
        /\ in_grammar p' rest
  end.

Lemma app_cons a s t : String a s +:+ t = String a (s +:+ t).
Proof. reflexivity. Qed.

Lemma app_empty t : EmptyString +:+ t = t.
Proof. reflexivity. Qed.

Lemma app_assoc_str s t v : (s +:+ t) +:+ v = s +:+ (t +:+ v).
Proof. induction s as [|a s IH]; [done|]. by rewrite !app_cons, IH. Qed.

Lemma length_app_str s t :
  String.length (s +:+ t) = String.length s + String.length t.
Proof. induction s as [|a s IH]; [done|]. rewrite app_cons. cbn. by rewrite IH. Qed.

Lemma take_drop n s : take n s +:+ drop n s = s.
Proof.
  revert s. induction n as [|n IH]; intros [|a s]; try done.
  cbn [take drop]. by rewrite app_cons, IH.
Qed.

Lemma length_take n s : n <= String.length s -> String.length (take n s) = n.
Proof.
  revert s. induction n as [|n IH]; intros [|a s] H; cbn in *; try done; try lia.
  rewrite IH; lia.
Qed.

Lemma take_add j n s : take (j + n) s = take j s +:+ take n (drop j s).
Proof.
  revert s. induction j as [|j IH]; intros s.
  - by destruct s.
  - destruct s as [|a s]; [by destruct n|].
    cbn [Nat.add take drop]. by rewrite app_cons, IH.
Qed.

Lemma drop_app w s : drop (String.length w) (w +:+ s) = s.
Proof. induction w as [|a w IH]; [by destruct s|]. exact IH. Qed.

Lemma take_app w s : take (String.length w) (w +:+ s) = w.
Proof.
  induction w as [|a w IH]; [by destruct s|].
  rewrite app_cons. cbn [String.length take]. by rewrite IH.
Qed.

Lemma run_spec c s max :
  run c s max <= max
  /\ run c s max <= String.length s
  /\ all_in c (take (run c s max) s) = true.
Proof.
  revert s. induction max as [|m IH]; intros [|a s]; cbn; try (split_and!; done || lia).
  destruct (c a) eqn:Ea; cbn; [|split_and!; done || lia].
  destruct (IH s) as (H1 & H2 & H3). rewrite Ea, H3. split_and!; done || lia.
Qed.

Lemma all_in_take c s k j :
  j <= k -> all_in c (take k s) = true -> all_in c (take j s) = true.
Proof.
  revert s k. induction j as [|j IH]; intros s k Hj H; [by destruct s|].
  destruct k as [|k]; [lia|]. destruct s as [|a s]; [done|].
  cbn in *. apply andb_true_iff in H as [-> H]. cbn. eapply IH; [|exact H]. lia.
Qed.

(** A run covers every prefix made of characters of the class. *)
Lemma run_app c w s max :
  all_in c w = true -> String.length w <= max ->
  String.length w <= run c (w +:+ s) max.
Proof.
  revert max. induction w as [|a w IH]; intros max Hw Hl; [cbn; lia|].
  cbn in Hw, Hl. apply andb_true_iff in Hw as [Ha Hw].
  destruct max as [|m]; [lia|]. rewrite app_cons. cbn. rewrite Ha.
  specialize (IH m Hw). lia.
Qed.

Lemma backtrack_sound (rest : string -> option nat) s l k m :
  backtrack rest s l k = Some m ->
  exists j n, l <= j <= k /\ rest (drop j s) = Some n /\ m = j + n.
Proof.
  induction k as [|k IH]; cbn [backtrack].
  - destruct (0 <? l) eqn:E; [done|]. apply Nat.ltb_ge in E.
    destruct (rest (drop 0 s)) as [n|] eqn:Er; [|done].
    intros [= <-]. exists 0, n. split_and!; done || lia.
  - destruct (S k <? l) eqn:E; [done|]. apply Nat.ltb_ge in E.
    destruct (rest (drop (S k) s)) as [n|] eqn:Er.
    + intros [= <-]. exists (S k), n. split_and!; done || lia.
    + intros H. destruct (IH H) as (j & n & ? & ? & ?).
      exists j, n. split_and!; done || lia.
Qed.

Lemma backtrack_complete (rest : string -> option nat) s l k j :
  l <= j <= k -> is_Some (rest (drop j s)) ->
  is_Some (backtrack rest s l k).
Proof.
  intros Hj Hr. induction k as [|k IH]; cbn [backtrack].
  - assert (j = 0) as -> by lia.
    destruct (0 <? l) eqn:E; [apply Nat.ltb_lt in E; lia|].
    destruct Hr as [n ->]. by eexists.
  - destruct (S k <? l) eqn:E; [apply Nat.ltb_lt in E; lia|].
    destruct (rest (drop (S k) s)) as [n|] eqn:Er; [by eexists|].
    apply IH. destruct (decide (j = S k)) as [->|]; [|lia].
    rewrite Er in Hr. by destruct Hr.
Qed.

Lemma match_here_sound p s n :
  match_here p s = Some n ->
  n <= String.length s /\ in_grammar p (take n s).
Proof.
  revert s n. induction p as [|it p IH]; intros s n; cbn [match_here].
  - intros [= <-]. split; [lia|]. by destruct s.
  - intros H. apply backtrack_sound in H as (j & m & Hj & Hm & ->).
    destruct (run_spec (cls it) s (hi it)) as (H1 & H2 & H3).
    apply IH in Hm as [Hm1 Hm2].
    assert (Hd : String.length s = j + String.length (drop j s)).
    { rewrite <- (take_drop j s) at 1.
      rewrite length_app_str, length_take; lia. }
    split; [lia|]. cbn [in_grammar].
    exists (take j s), (take m (drop j s)). split_and!.
    + apply take_add.
    + rewrite length_take; lia.
    + rewrite length_take; lia.
    + eapply all_in_take; [|exact H3]. lia.
    + done.
Qed.

Lemma match_here_complete p u s :
  in_grammar p u -> is_Some (match_here p (u +:+ s)).
Proof.
  revert u s. induction p as [|it p IH]; intros u s; cbn [match_here in_grammar].
  - by eexists.
  - intros (w & rest & -> & Hl & Hw & Hr). rewrite app_assoc_str.
    apply (backtrack_complete _ _ _ _ (String.length w)).
    + split; [lia|]. apply run_app; [done|lia].
    + rewrite drop_app. by apply IH.
Qed.

(** What [search] returns is a piece of the text that the pattern
    describes. *)
Lemma search_sound p s u :
  search p s = Some u ->
  in_grammar p u /\ exists pre post, s = pre +:+ u +:+ post.
Proof.
  induction s as [|a s IH]; cbn [search].
  - destruct (match_here p EmptyString) as [n|] eqn:E; [|done].
    intros [= <-]. apply match_here_sound in E as [_ E]. split; [done|].
    exists EmptyString, (drop n EmptyString). by rewrite app_empty, take_drop.
  - destruct (match_here p (String a s)) as [n|] eqn:E.
    + intros [= <-]. apply match_here_sound in E as [_ E]. split; [done|].
      exists EmptyString, (drop n (String a s)). by rewrite app_empty, take_drop.
    + intros H. destruct (IH H) as (Hg & pre & post & ->). split; [done|].
      by exists (String a pre), post.
Qed.

(** And it returns something whenever the text has such a piece. *)
Lemma search_complete p pre u post :
  in_grammar p u -> is_Some (search p (pre +:+ u +:+ post)).
Proof.
  intros Hu. induction pre as [|a pre IH].
  - rewrite app_empty. destruct (match_here_complete p u post Hu) as [n Hn].
    destruct (u +:+ post); cbn [search]; rewrite Hn; by eexists.
  - rewrite app_cons. cbn [search].
    destruct (match_here p _); [by eexists|]. exact IH.
Qed.
End Scan.

Example extract_upi_examples :
  Main.extract_upi "pay 5000 to ramesh.k-77@okaxis now" = Some "ramesh.k-77@okaxis"
  /\ Main.extract_upi "a@bc" = None
  /\ Main.extract_upi "xx@y1" = None
  /\ Main.extract_upi "first aa@bb then cc@dd" = Some "aa@bb"
  /\ Main.extract_upi "mail me: <REDACTED>" = None.
Proof. split_and!; reflexivity. Qed.

(** ** The chat orchestrator and the other endpoints *)

Section Orchestrator.

Import Main.

Variable str_lower : string -> string.

Implicit Types (W : world) (req : ChatRequest) (a : app) (s : Session).

(** The session a chat request works on: the stored one, or a new one
    with the persona selected from the message. *)
Definition current_session req a : Session :=
  match sessions a !! session_id req with
  | Some s => s
  | None => new_session (first_match str_lower (message req))
  end.

(** The trap condition of a message. *)
Definition triggers W (user_msg : string) : bool :=
  any_in bait_keywords (str_lower (redact_pii W user_msg)).

(** The session as stored when the request is over. *)
Definition session_after W req a : option Session :=
  sessions (snd (fst (chat_endpoint str_lower W req a))) !! session_id req.

Definition traps_of a (sid : string) : list Trap :=
  match sessions a !! sid with
  | Some s => traps_triggered s
  | None => []
  end.

Definition handle_of a (sid : string) : option string :=
  match sessions a !! sid with
  | Some s => extracted_upi s
  | None => None
  end.

(** [session["extracted_upi"] or "scammer@bank"] *)
Definition target_handle (upi : option string) : string :=
  if truthy upi then default EmptyString upi else placeholder_upi.

Definition trap_record W : Trap :=
  {| trap_type := "fake_proof";
     file := "proof_" +:+ uuid_hex8 W +:+ ".png";
     trap_timestamp := "now" |}.

Lemma open_session_current req a :
  open_session str_lower req (sessions a) = Ret (current_session req a).
Proof.
  unfold open_session, current_session.
  destruct (sessions a !! session_id req); [done|].
  by rewrite selected_first_match.
Qed.

(** The request unfolded: the part before the reply on the current
    session, the gateway call, the attachment, the assistant turn. *)
Lemma chat_endpoint_unfold W req a :
  chat_endpoint str_lower W req a
  = let '(s1, img_url, ev1) :=
      before_reply str_lower W (message req) (current_session req a) in
    let '(r, km, ev2) :=
      KeyManager.chat_completion (llm W) (history s1) (key_manager a) in
    match bind r (with_attachment img_url) with
    | Raise e =>
        (Raise e,
         {| sessions := <[session_id req := s1]> (sessions a);
            key_manager := km |}, ev1 ++ ev2)
    | Ret response_text =>
        (Ret response_text,
         {| sessions :=
              <[session_id req := append_turn s1 assistant response_text]>
                (sessions a);
            key_manager := km |}, ev1 ++ ev2)
    end.
Proof. unfold chat_endpoint. by rewrite open_session_current. Qed.

(** What the part before the reply does to the session. *)
Lemma before_reply_spec W user_msg s :
  let safe_msg := redact_pii W user_msg in
  let upi := match extract_upi safe_msg with
             | Some u => Some u
             | None => extracted_upi s
             end in
  let target := target_handle upi in
  let url := "/proof/" +:+ generate_payment_proof W "5000" target in
  exists s1 img_url ev,
    before_reply str_lower W user_msg s = (s1, img_url, ev)
    /\ extracted_upi s1 = upi
    /\ persona s1 = persona s
    /\ ip_log s1 = ip_log s
    /\ (if triggers W user_msg
        then img_url = Some url
             /\ ev = [ProofRequested "5000" target]
             /\ traps_triggered s1 = traps_triggered s ++ [trap_record W]
             /\ history s1
                = history s ++ [{| role := user; content := PyStr safe_msg |};
                                {| role := system;
                                   content := PyStr (directive url) |}]
        else img_url = None
             /\ ev = []
             /\ traps_triggered s1 = traps_triggered s
             /\ history s1
                = history s ++ [{| role := user; content := PyStr safe_msg |}]).
Proof.
  cbn zeta. unfold before_reply, triggers.
  assert (Hu : forall u, extract_upi (redact_pii W user_msg) = Some u ->
                         truthy (Some u) = true /\ u <> EmptyString).
  { intros u Hu. apply search_sound in Hu as [(w & rest & -> & Hl & _) _].
    cbn in Hl. destruct w as [|c w]; cbn in Hl; [lia|]. done. }
  set (s' := if truthy (extract_upi (redact_pii W user_msg))
             then set_extracted_upi s (extract_upi (redact_pii W user_msg))
             else s).
  assert (Hs' : extracted_upi s'
                = match extract_upi (redact_pii W user_msg) with
                  | Some u => Some u
                  | None => extracted_upi s
                  end
                /\ history s' = history s /\ traps_triggered s' = traps_triggered s
                /\ persona s' = persona s /\ ip_log s' = ip_log s).
  { unfold s'. destruct (extract_upi _) as [u|] eqn:E; [|done].
    destruct (Hu u eq_refl) as [-> _]. done. }
  destruct Hs' as (Hup & Hh & Ht & Hp & Hi).
  set (s2 := classify W (redact_pii W user_msg)
               (append_turn s' user (PyStr (redact_pii W user_msg)))).
  assert (Hs2 : extracted_upi s2 = extracted_upi s'
                /\ history s2
                   = history s' ++ [{| role := user;
                                       content := PyStr (redact_pii W user_msg) |}]
                /\ traps_triggered s2 = traps_triggered s'
                /\ persona s2 = persona s' /\ ip_log s2 = ip_log s').
  { unfold s2, classify. destruct (ml_models W) as [predict|]; [|done].
    by destruct (predict _). }
  destruct Hs2 as (Hup2 & Hh2 & Ht2 & Hp2 & Hi2).
  destruct (any_in _ _).
  - eexists _, _, _. split; [reflexivity|]. cbn.
    rewrite Hup2, Hup, Hh2, Hh, Ht2, Ht, Hp2, Hp, Hi2, Hi.
    split_and!; try done.
    by rewrite <- app_assoc.
  - eexists _, _, _. split; [reflexivity|].
    rewrite Hup2, Hup, Hh2, Hh, Ht2, Ht, Hp2, Hp, Hi2, Hi. by split_and!.
Qed.

Lemma groq_loop_raises P messages n k km e km' tr :
  KeyManager.groq_loop P messages n k km = (Raise e, km', tr) -> e = IndexError.
Proof.
  revert k km tr. induction n as [|n IH]; intros k km tr; [done|].
  cbn [KeyManager.groq_loop]. unfold KeyManager._get_current_groq_key.
  destruct (KeyManager.groq_keys km) eqn:Ek; [done|].
  destruct (_ !! _); [|by intros [= <- _ _]].
  destruct (negb _); [done|].
  destruct (KeyManager.groq_try _);
    [done|destruct (KeyManager._rotate_groq_key km) as [km1 ev]..];
    destruct (KeyManager.groq_loop P messages n (S k) km1)
      as [[r2 km2] evs] eqn:E2; intros [= -> <- <-]; eauto.
Qed.

Lemma chat_completion_raises P messages km e :
  fst (fst (KeyManager.chat_completion P messages km)) = Raise e ->
  e = IndexError.
Proof.
  unfold KeyManager.chat_completion.
  destruct (KeyManager.groq_loop _ _ _ _ _) as [[rl km1] evl] eqn:E.
  destruct rl as [[v|]|e'].
  - done.
  - destruct (negb _); [done|]. by destruct (KeyManager.openrouter_try _).
  - cbn. intros [= <-]. by apply groq_loop_raises in E.
Qed.

Lemma with_attachment_raises img_url v e :
  with_attachment img_url v = Raise e -> e = TypeError.
Proof.
  unfold with_attachment. destruct (truthy img_url); [|done].
  destruct v; cbn; try by intros [= <-].
  - by destruct (negb _).
  - by destruct (negb _).
  - destruct (negb _); [by intros [= <-]|done].
Qed.

(** The effect of one chat request on the store. *)
Lemma chat_endpoint_effect W req a :
  exists s1 img_url ev1,
    before_reply str_lower W (message req) (current_session req a)
    = (s1, img_url, ev1)
    /\ let '(res, a', tr) := chat_endpoint str_lower W req a in
       let '(r, km, ev2) :=
         KeyManager.chat_completion (llm W) (history s1) (key_manager a) in
       tr = ev1 ++ ev2
       /\ key_manager a' = km
       /\ res = bind r (with_attachment img_url)
       /\ (forall e, res = Raise e -> e = TypeError \/ e = IndexError)
       /\ (forall sid, sid <> session_id req ->
             sessions a' !! sid = sessions a !! sid)
       /\ exists s',
            sessions a' !! session_id req = Some s'
            /\ extracted_upi s' = extracted_upi s1
            /\ traps_triggered s' = traps_triggered s1
            /\ persona s' = persona s1
            /\ ip_log s' = ip_log s1
            /\ history s'
               = history s1
                 ++ match res with
                    | Ret v => [{| role := assistant; content := v |}]
                    | Raise _ => []
                    end.
Proof.
  destruct (before_reply str_lower W (message req) (current_session req a))
    as [[s1 img_url] ev1] eqn:Eb.
  exists s1, img_url, ev1. split; [done|].
  rewrite chat_endpoint_unfold, Eb.
  destruct (KeyManager.chat_completion _ _ _) as [[r km] ev2] eqn:Ec.
  assert (Hraise : forall e, bind r (with_attachment img_url) = Raise e ->
                             e = TypeError \/ e = IndexError).
  { intros e. destruct r as [v|e']; cbn.
    - intros H%with_attachment_raises. by left.
    - intros [= <-]. right.
      apply (chat_completion_raises (llm W) (history s1) (key_manager a)).
      by rewrite Ec. }
  destruct (bind r (with_attachment img_url)) as [v|e] eqn:Er.
  - split_and!; try done.
    + intros sid Hsid. cbn. by rewrite lookup_insert_ne.
    + eexists. cbn. rewrite lookup_insert_eq. by split_and!.
  - split_and!; try done.
    + intros sid Hsid. cbn. by rewrite lookup_insert_ne.
    + eexists. cbn. rewrite lookup_insert_eq. split_and!; try done.
      by rewrite app_nil_r.
Qed.

Definition after W req a : app := snd (fst (chat_endpoint str_lower W req a)).

Lemma current_session_handle req a :
  extracted_upi (current_session req a) = handle_of a (session_id req).
Proof.
  unfold current_session, handle_of. by destruct (sessions a !! session_id req).
Qed.

Lemma current_session_traps req a :
  traps_triggered (current_session req a) = traps_of a (session_id req).
Proof.
  unfold current_session, traps_of. by destruct (sessions a !! session_id req).
Qed.

Lemma handle_step W req a :
  handle_of (after W req a) (session_id req)
  = match extract_upi (redact_pii W (message req)) with
    | Some u => Some u
    | None => handle_of a (session_id req)
    end.
Proof.
  destruct (chat_endpoint_effect W req a) as (s1 & img & ev1 & Eb & H).
  destruct (before_reply_spec W (message req) (current_session req a))
    as (s1' & img' & ev1' & Eb' & Hu & _).
  rewrite Eb in Eb'. injection Eb' as <- <- <-.
  unfold after. destruct (chat_endpoint str_lower W req a) as [[res a'] tr].
  destruct (KeyManager.chat_completion _ _ _) as [[r km] ev2].
  destruct H as (_ & _ & _ & _ & _ & s' & Hs' & Hup & _).
  cbn [fst snd]. unfold handle_of at 1. rewrite Hs', Hup, Hu.
  by rewrite current_session_handle.
Qed.

Lemma traps_step W req a :
  traps_of (after W req a) (session_id req)
  = traps_of a (session_id req)
    ++ (if triggers W (message req) then [trap_record W] else []).
Proof.
  destruct (chat_endpoint_effect W req a) as (s1 & img & ev1 & Eb & H).
  destruct (before_reply_spec W (message req) (current_session req a))
    as (s1' & img' & ev1' & Eb' & _ & _ & _ & Ht).
  rewrite Eb in Eb'. injection Eb' as <- <- <-.
  unfold after. destruct (chat_endpoint str_lower W req a) as [[res a'] tr].
  destruct (KeyManager.chat_completion _ _ _) as [[r km] ev2].
  destruct H as (_ & _ & _ & _ & _ & s' & Hs' & _ & Htr & _).
  cbn [fst snd]. unfold traps_of at 1. rewrite Hs', Htr.
  rewrite <- current_session_traps.
  destruct (triggers W (message req)).
  - by destruct Ht as (_ & _ & -> & _).
  - destruct Ht as (_ & _ & -> & _). by rewrite app_nil_r.
Qed.

Lemma other_session_kept W req a sid :
  sid <> session_id req ->
  sessions (after W req a) !! sid = sessions a !! sid.
Proof.
  intros Hsid.
  destruct (chat_endpoint_effect W req a) as (s1 & img & ev1 & Eb & H).
  unfold after. destruct (chat_endpoint str_lower W req a) as [[res a'] tr].
  destruct (KeyManager.chat_completion _ _ _) as [[r km] ev2].
  destruct H as (_ & _ & _ & _ & Ho & _). by apply Ho.
Qed.

Lemma chats_cons W req reqs a :
  chats str_lower ((W, req) :: reqs) a = chats str_lower reqs (after W req a).
Proof. reflexivity. Qed.

(** The records that a sequence of requests adds to the session [sid]. *)
Definition new_traps (sid : string) (reqs : list (world * ChatRequest))
    : list Trap :=
  flat_map (fun wr =>
              if String.eqb (session_id (snd wr)) sid
                 && triggers (fst wr) (message (snd wr))
              then [trap_record (fst wr)] else []) reqs.

Lemma traps_chats reqs a sid :
  traps_of (chats str_lower reqs a) sid = traps_of a sid ++ new_traps sid reqs.
Proof.
  revert a. induction reqs as [|[W req] reqs IH]; intros a.
  - cbn. by rewrite app_nil_r.
  - rewrite chats_cons, IH. cbn [new_traps flat_map fst snd].
    fold (new_traps sid reqs). rewrite app_assoc. f_equal.
    destruct (String.eqb_spec (session_id req) sid) as [<-|Hne]; cbn [andb].
    + apply traps_step.
    + rewrite app_nil_r. unfold traps_of.
      by rewrite other_session_kept by congruence.
Qed.

(** The handle grammar, spelled out. *)
Definition is_handle (u : string) : Prop :=
  exists local domain,
    u = local +:+ "@" +:+ domain
    /\ 2 <= String.length local <= 256
    /\ all_in Re.ident_char local = true
    /\ 2 <= String.length domain <= 64
    /\ all_in Re.letter domain = true.

Lemma upi_grammar u : in_grammar upi_pattern u <-> is_handle u.
Proof.
  unfold upi_pattern, is_handle. cbn [in_grammar Re.lo Re.hi Re.cls]. split.
  - intros (local & r1 & -> & Hl & Hla & at_ & r2 & -> & Hat & Hata
            & domain & r3 & -> & Hd & Hda & ->).
    destruct at_ as [|c [|c' at_]]; cbn in Hat; try lia.
    cbn [all_in] in Hata. rewrite andb_true_r in Hata.
    apply Ascii.eqb_eq in Hata as <-.
    exists local, domain. split_and!; try done; try lia.
    f_equal. rewrite app_cons, app_empty. f_equal.
    clear. induction domain as [|c d IH]; [done|]. by rewrite app_cons, IH.
  - intros (local & domain & -> & Hl & Hla & Hd & Hda).
    exists local, ("@" +:+ domain). split_and!; try done; try lia.
    exists "@", domain. split_and!; try done; cbn; try lia.
    exists domain, EmptyString. split_and!; try done; try lia.
    clear. induction domain as [|c d IH]; [done|]. by rewrite app_cons, <- IH.
Qed.

(** A text with a handle in it never scans to nothing. *)
Lemma extract_upi_complete pre u post :
  is_handle u -> is_Some (extract_upi (pre +:+ u +:+ post)).
Proof. intros H%upi_grammar. by apply search_complete. Qed.

(** C6. The scan returns a piece of the redacted message that has the
    shape of a handle: 2 to 256 identifier characters, [@], 2 to 64
    letters. After a request the stored handle of its session is the
    handle found in the redacted message if there is one, and the handle
    stored before otherwise. So of two successive messages to one session,
    the first with handle [A] and the second with handle [B], the second
    wins. *)
Theorem payment_handle_last_seen_wins WA WB (sid mA mB A B : string) a :
  extract_upi (redact_pii WA mA) = Some A ->
  extract_upi (redact_pii WB mB) = Some B ->
  let reqA := {| session_id := sid; message := mA |} in
  let reqB := {| session_id := sid; message := mB |} in
  handle_of (after WA reqA a) sid = Some A
  /\ handle_of (chats str_lower [(WA, reqA); (WB, reqB)] a) sid = Some B
  /\ is_handle A /\ is_handle B
  /\ (exists pre post, redact_pii WB mB = pre +:+ B +:+ post)
  /\ (forall W req a',
        handle_of (after W req a') (session_id req)
        = match extract_upi (redact_pii W (message req)) with
          | Some u => Some u
          | None => handle_of a' (session_id req)
          end).
Proof.
  intros HA HB reqA reqB.
  pose proof (handle_step WA reqA a) as H1. cbn [session_id message reqA] in H1.
  rewrite HA in H1.
  pose proof (handle_step WB reqB (after WA reqA a)) as H2.
  cbn [session_id message reqB] in H2. rewrite HB in H2.
  apply search_sound in HA as [HgA _]. apply search_sound in HB as [HgB HsB].
  split_and!; try done.
  - by apply upi_grammar.
  - by apply upi_grammar.
  - apply handle_step.
Qed.

Definition is_gateway_event (e : event) : bool :=
  match e with
  | ProofRequested _ _ => false
  | _ => true
  end.

Lemma groq_loop_events P messages n k km :
  forallb is_gateway_event (snd (KeyManager.groq_loop P messages n k km)) = true.
Proof.
  revert k km. induction n as [|n IH]; intros k km; [done|].
  cbn [KeyManager.groq_loop].
  destruct (KeyManager._get_current_groq_key km); [|done].
  destruct (negb _); [done|].
  unfold KeyManager._rotate_groq_key.
  destruct (KeyManager.groq_try _); [done|..];
    destruct (KeyManager.groq_keys km) eqn:Ek;
    match goal with
    | |- context [KeyManager.groq_loop P messages n (S k) ?km1] =>
        specialize (IH (S k) km1);
        destruct (KeyManager.groq_loop P messages n (S k) km1) as [[r2 km2] evs]
    end; done.
Qed.

Lemma chat_completion_events P messages km :
  forallb is_gateway_event (snd (KeyManager.chat_completion P messages km)) = true.
Proof.
  unfold KeyManager.chat_completion.
  pose proof (groq_loop_events P messages
                (length (KeyManager.groq_keys km)) 0 km) as H.
  destruct (KeyManager.groq_loop _ _ _ _ _) as [[rl km1] evl].
  cbn [snd] in H. destruct rl as [[v|]|e]; try done.
  destruct (negb _); [|destruct (KeyManager.openrouter_try _)];
    cbn [snd]; rewrite forallb_app, H; done.
Qed.

Lemma prefix_app u t : String.prefix u (u +:+ t) = true.
Proof.
  induction u as [|c u IH]; [rewrite app_empty; by destruct t|].
  rewrite app_cons. cbn. by destruct (ascii_dec c c).
Qed.

Lemma is_substring_app_l u t : is_substring u (u +:+ t) = true.
Proof.
  assert (H : forall x, String.prefix u x = true -> is_substring u x = true).
  { intros [|c x] Hx; cbn [is_substring]; by rewrite Hx. }
  apply H, prefix_app.
Qed.

Lemma is_substring_app_r u t1 t2 :
  is_substring u t2 = true -> is_substring u (t1 +:+ t2) = true.
Proof.
  intros H. induction t1 as [|c t1 IH]; [done|].
  rewrite app_cons. cbn [is_substring]. rewrite IH. apply orb_true_r.
Qed.

Lemma attachment_mentions url text :
  is_substring url (text +:+ attachment url) = true.
Proof.
  unfold attachment. do 4 apply is_substring_app_r.
  rewrite <- (is_substring_app_l url EmptyString). f_equal.
  clear. induction url as [|c u IH]; [done|]. by rewrite app_cons, <- IH.
Qed.

Lemma app_inj_same_length (x x' t t' : string) :
  String.length x = String.length x' -> x +:+ t = x' +:+ t' -> x = x'.
Proof.
  revert x'. induction x as [|c x IH]; intros [|c' x'] Hl; try done.
  rewrite !app_cons. cbn in Hl. intros [= -> H]. f_equal. apply IH; [lia|done].
Qed.

Lemma trap_record_inj W1 W2 :
  trap_record W1 = trap_record W2 -> uuid_hex8 W1 = uuid_hex8 W2.
Proof.
  unfold trap_record. intros [= H].
  rewrite !app_empty in H.
  apply (app_inj_same_length _ _ _ _) in H; [done|].
  apply (f_equal String.length) in H. rewrite !length_app_str in H.
  cbn in H. lia.
Qed.

(** The analyzer is absent, fails, or finds nothing in the text. *)
Definition unredacted W (text : string) : Prop :=
  match presidio_analyzer W with
  | None => True
  | Some analyze =>
      match analyze text with
      | Ret (_ :: _) => False
      | _ => True
      end
  end.

Lemma redact_pii_unredacted W text :
  unredacted W text -> redact_pii W text = text.
Proof.
  unfold unredacted, redact_pii.
  destruct (presidio_analyzer W) as [analyze|]; [|done].
  by destruct (analyze text) as [[|r rs]|e].
Qed.

Lemma directive_text (url : string) :
  directive url
  = "[SYSTEM INSTRUCTION]: You have just successfully generated a fake GPay payment screenshot. The file link is '"
    +:+ url
    +:+ "'. You MUST send this link to the user now. Say 'Here is the screenshot' or similar.".
Proof. reflexivity. Qed.

(** C7, as the code has it. The bait test is made on the lower-cased
    message as redacted, not on the message as sent: a chat request sets
    the trap exactly when one of [screenshot], [proof], [photo],
    [payment done] occurs in the lower-cased redacted message, which is
    the message itself only when the analyzer is absent, fails or finds
    nothing. Then the renderer is asked for a proof of 5000 to the
    session's handle (the one found in this message, else the one stored,
    else [scammer@bank]), one trap record is appended, and the directive
    turn, with the link of the file, is appended right after the user
    turn. If not, the traps stay as they are, the renderer is not asked,
    and the user turn is followed by nothing but the reply. Over a
    sequence of requests the trap list of a session grows by one record
    per triggering request, in order, without deduplication; two records
    are equal exactly when their file names are, so the records of [N]
    triggering requests are pairwise different exactly when the rendered
    file names are. *)
Theorem trap_is_keyword_gated_and_repeatable :
  (forall W req a,
     let s0 := current_session req a in
     let safe_msg := redact_pii W (message req) in
     let target :=
       target_handle (match extract_upi safe_msg with
                      | Some u => Some u
                      | None => handle_of a (session_id req)
                      end) in
     let url := "/proof/" +:+ "proof_" +:+ uuid_hex8 W +:+ ".png" in
     exists s' tail,
       sessions (after W req a) !! session_id req = Some s'
       /\ (tail = [] \/ exists v, tail = [{| role := assistant; content := v |}])
       /\ if any_in ["screenshot"; "proof"; "photo"; "payment done"]
               (str_lower safe_msg)
          then traps_triggered s'
               = traps_triggered s0
                 ++ [{| trap_type := "fake_proof";
                        file := "proof_" +:+ uuid_hex8 W +:+ ".png";
                        trap_timestamp := "now" |}]
               /\ history s'
                  = history s0
                    ++ [{| role := user; content := PyStr safe_msg |};
                        {| role := system;
                           content :=
                             PyStr ("[SYSTEM INSTRUCTION]: You have just successfully generated a fake GPay payment screenshot. The file link is '"
                                    +:+ url
                                    +:+ "'. You MUST send this link to the user now. Say 'Here is the screenshot' or similar.") |}]
                    ++ tail
               /\ ProofRequested "5000" target
                  ∈ snd (chat_endpoint str_lower W req a)
          else traps_triggered s' = traps_triggered s0
               /\ history s'
                  = history s0
                    ++ [{| role := user; content := PyStr safe_msg |}] ++ tail
               /\ forall amount upi,
                    ProofRequested amount upi
                    ∉ snd (chat_endpoint str_lower W req a))
  /\ target_handle None = "scammer@bank"
  /\ target_handle (Some EmptyString) = "scammer@bank"
  /\ (forall c u, target_handle (Some (String c u)) = String c u)
  /\ (forall W user_msg,
        triggers W user_msg
        = any_in ["screenshot"; "proof"; "photo"; "payment done"]
            (str_lower (redact_pii W user_msg)))
  /\ (forall W user_msg,
        unredacted W user_msg ->
        triggers W user_msg
        = any_in ["screenshot"; "proof"; "photo"; "payment done"]
            (str_lower user_msg))
  /\ (forall reqs a sid,
        traps_of (chats str_lower reqs a) sid
        = traps_of a sid ++ new_traps sid reqs)
  /\ (forall reqs a sid,
        Forall (fun wr => session_id (snd wr) = sid
                          /\ triggers (fst wr) (message (snd wr)) = true) reqs ->
        traps_of (chats str_lower reqs a) sid
        = traps_of a sid ++ map (fun wr => trap_record (fst wr)) reqs
        /\ length (traps_of (chats str_lower reqs a) sid)
           = length (traps_of a sid) + length reqs
        /\ (NoDup (map (fun wr => trap_record (fst wr)) reqs)
            <-> NoDup (map (fun wr => uuid_hex8 (fst wr)) reqs)))
  /\ (forall W,
        trap_record W
        = {| trap_type := "fake_proof";
             file := "proof_" +:+ uuid_hex8 W +:+ ".png";
             trap_timestamp := "now" |})
  /\ (forall W1 W2,
        trap_record W1 = trap_record W2 <-> uuid_hex8 W1 = uuid_hex8 W2).
Proof.
  assert (Hall_traps : forall reqs a sid,
    Forall (fun wr => session_id (snd wr) = sid
                      /\ triggers (fst wr) (message (snd wr)) = true) reqs ->
    traps_of (chats str_lower reqs a) sid
    = traps_of a sid ++ map (fun wr => trap_record (fst wr)) reqs).
  { intros reqs a sid Hall. rewrite traps_chats. f_equal.
    induction Hall as [|[W req] reqs [Hs Ht] _ IH]; [done|].
    cbn [fst snd] in Hs, Ht.
    change (new_traps sid ((W, req) :: reqs))
      with ((if String.eqb (session_id req) sid
                && triggers W (message req)
             then [trap_record W] else []) ++ new_traps sid reqs).
    rewrite Hs, String.eqb_refl, Ht, IH. done. }
  assert (Hrec : forall W1 W2,
    trap_record W1 = trap_record W2 <-> uuid_hex8 W1 = uuid_hex8 W2).
  { intros W1 W2. split; [apply trap_record_inj|].
    unfold trap_record. by intros ->. }
  split_and!.
  - intros W req a. cbn zeta.
    destruct (chat_endpoint_effect W req a) as (s1 & img & ev1 & Eb & H).
    destruct (before_reply_spec W (message req) (current_session req a))
      as (s1' & img' & ev1' & Eb' & _ & _ & _ & Ht).
    rewrite Eb in Eb'. injection Eb' as <- <- <-.
    rewrite current_session_handle in Ht.
    unfold after.
    pose proof (chat_completion_events (llm W) (history s1) (key_manager a)) as Hev.
    destruct (chat_endpoint str_lower W req a) as [[res a'] tr].
    destruct (KeyManager.chat_completion _ _ _) as [[r km] ev2].
    destruct H as (-> & _ & _ & _ & _ & s' & Hs' & _ & Htr & _ & _ & Hh).
    cbn [fst snd] in *.
    exists s', (match res with
                | Ret v => [{| role := assistant; content := v |}]
                | Raise _ => []
                end).
    split; [done|]. split; [destruct res; eauto|].
    rewrite Hh, Htr. unfold triggers, bait_keywords in Ht.
    destruct (any_in _ (str_lower (redact_pii W (message req)))).
    + destruct Ht as (_ & -> & -> & ->). split_and!.
      * done.
      * rewrite <- app_assoc. reflexivity.
      * apply elem_of_app. left. apply list_elem_of_here.
    + destruct Ht as (_ & -> & -> & ->).
      split_and!; [done|by rewrite <- app_assoc|].
      intros amount upi Hin. rewrite app_nil_l in Hin.
      rewrite forallb_forall in Hev. apply list_elem_of_In in Hin.
      by apply Hev in Hin.
  - reflexivity.
  - reflexivity.
  - reflexivity.
  - reflexivity.
  - intros W user_msg Hu. unfold triggers.
    by rewrite redact_pii_unredacted.
  - apply traps_chats.
  - intros reqs a sid Hall. split_and!.
    + by apply Hall_traps.
    + rewrite (Hall_traps reqs a sid Hall).
      by rewrite length_app, length_map.
    + clear Hall. induction reqs as [|[W req] reqs IH];
        [split; intros _; constructor|].
      cbn [map fst]. rewrite !NoDup_cons, IH.
      assert (Hin : trap_record W ∈ map (fun wr => trap_record (fst wr)) reqs
                    <-> uuid_hex8 W ∈ map (fun wr => uuid_hex8 (fst wr)) reqs).
      { split; intros (wr & Heq & Hin)%list_elem_of_fmap;
          apply list_elem_of_fmap; exists wr; (split; [|done]);
          by apply Hrec. }
      by rewrite Hin.
  - reflexivity.
  - exact Hrec.
Qed.

(** When the gateway call of a request that sets the trap returns the
    text [text]: the reply returned is [text] itself if it mentions the
    link of the artifact, and [text] followed by the attachment line with
    the link otherwise; either way the link occurs in the reply, and the
    reply is the content of the assistant turn appended last to the
    transcript. *)
Lemma triggered_reply_mentions_artifact W req a s1 img_url ev (text : string) :
  triggers W (message req) = true ->
  before_reply str_lower W (message req) (current_session req a)
  = (s1, img_url, ev) ->
  fst (fst (KeyManager.chat_completion (llm W) (history s1) (key_manager a)))
  = Ret (PyStr text) ->
  exists url final s',
    img_url = Some url
    /\ url = "/proof/" +:+ file (trap_record W)
    /\ final = (if is_substring url text then text
                else text +:+ attachment url)
    /\ is_substring url final = true
    /\ fst (fst (chat_endpoint str_lower W req a)) = Ret (PyStr final)
    /\ sessions (after W req a) !! session_id req = Some s'
    /\ last (history s')
       = Some {| role := assistant; content := PyStr final |}
    /\ last (traps_triggered s') = Some (trap_record W).
Proof.
  intros Ht Eb Ec.
  destruct (chat_endpoint_effect W req a) as (s1' & img' & ev1' & Eb' & H).
  rewrite Eb in Eb'. injection Eb' as <- <- <-.
  destruct (before_reply_spec W (message req) (current_session req a))
    as (s1' & img' & ev1' & Eb' & _ & _ & _ & Hs).
  rewrite Eb in Eb'. injection Eb' as <- <- <-.
  rewrite Ht in Hs. destruct Hs as (Himg & _ & Htr & _).
  unfold after.
  destruct (chat_endpoint str_lower W req a) as [[res a'] tr].
  destruct (KeyManager.chat_completion _ _ _) as [[r km] ev2].
  cbn [fst snd] in *. subst r.
  destruct H as (_ & _ & Hres & _ & _ & s' & Hs' & _ & Htr' & _ & _ & Hh).
  set (url := "/proof/" +:+ file (trap_record W)).
  assert (Hurl : img_url = Some url) by (by rewrite Himg).
  assert (Hfinal : res = Ret (PyStr (if is_substring url text then text
                                      else text +:+ attachment url))).
  { rewrite Hres, Hurl. unfold with_attachment.
    change (truthy (Some url)) with true.
    change (default EmptyString (Some url)) with url.
    cbn [bind contains]. destruct (is_substring url text); reflexivity. }
  exists url, (if is_substring url text then text
               else text +:+ attachment url), s'.
  split_and!; try done.
  - destruct (is_substring url text) eqn:E; [done|].
    apply attachment_mentions.
  - rewrite Hh, Hfinal. apply last_snoc.
  - rewrite Htr', Htr. apply last_snoc.
Qed.

(** C8 (defect of the code). The design has the artifact mentioned in the
    reply of every request that sets the trap, whatever the model puts
    out. The code tests and extends the value returned by the gateway as
    a string ([img_url not in response_text], [response_text += ...])
    without checking that it is one, and the gateway passes on the
    [content] of a 200 answer unchecked. When the gateway returns a value
    [v] that is not a string, a request that sets the trap returns no
    text: if [v] is [None], a boolean or a number the membership test
    raises [TypeError], after the trap record and the directive turn were
    stored, so that the request fails with no reply and no assistant
    turn; if [v] is a list, what is returned is a list. *)
Theorem triggered_request_without_text_reply W req a s1 img_url ev (v : pyval) :
  triggers W (message req) = true ->
  before_reply str_lower W (message req) (current_session req a)
  = (s1, img_url, ev) ->
  fst (fst (KeyManager.chat_completion (llm W) (history s1) (key_manager a)))
  = Ret v ->
  is_str v = false ->
  let url := "/proof/" +:+ "proof_" +:+ uuid_hex8 W +:+ ".png" in
  img_url = Some url
  /\ (forall final,
        fst (fst (chat_endpoint str_lower W req a)) <> Ret (PyStr final))
  /\ ((forall items, v <> PyList items) ->
      (forall entries, v <> PyDict entries) ->
      fst (fst (chat_endpoint str_lower W req a)) = Raise TypeError
      /\ exists s',
           sessions (after W req a) !! session_id req = Some s'
           /\ history s' = history s1
           /\ last (history s')
              = Some {| role := system;
                        content :=
                          PyStr ("[SYSTEM INSTRUCTION]: You have just successfully generated a fake GPay payment screenshot. The file link is '"
                                 +:+ url
                                 +:+ "'. You MUST send this link to the user now. Say 'Here is the screenshot' or similar.") |}
           /\ last (traps_triggered s') = Some (trap_record W))
  /\ (forall items,
        v = PyList items ->
        exists items',
          fst (fst (chat_endpoint str_lower W req a)) = Ret (PyList items')).
Proof.
  intros Ht Eb Ec Hv. cbn zeta.
  destruct (chat_endpoint_effect W req a) as (s1' & img' & ev1' & Eb' & H).
  rewrite Eb in Eb'. injection Eb' as <- <- <-.
  destruct (before_reply_spec W (message req) (current_session req a))
    as (s1' & img' & ev1' & Eb' & _ & _ & _ & Hs).
  rewrite Eb in Eb'. injection Eb' as <- <- <-.
  rewrite Ht in Hs. destruct Hs as (Himg & _ & Htr & Hh1).
  unfold after.
  destruct (chat_endpoint str_lower W req a) as [[res a'] tr].
  destruct (KeyManager.chat_completion _ _ _) as [[r km] ev2].
  cbn [fst snd] in *. subst r.
  destruct H as (_ & _ & Hres & _ & _ & s' & Hs' & _ & Htr' & _ & _ & Hh).
  set (url := "/proof/" +:+ "proof_" +:+ uuid_hex8 W +:+ ".png") in *.
  assert (Hurl : img_url = Some url) by (by rewrite Himg).
  rewrite Hurl in Hres. unfold with_attachment in Hres.
  change (truthy (Some url)) with true in Hres.
  change (default EmptyString (Some url)) with url in Hres.
  cbn [bind] in Hres.
  split_and!.
  - done.
  - intros final Hf. rewrite Hf in Hres.
    destruct v as [|b|n|t|items|entries]; cbn in Hres; try done.
    + by destruct (existsb _ items).
    + by destruct (existsb _ entries).
  - intros Hl Hd.
    assert (Hraise : res = Raise TypeError).
    { destruct v as [|b|n|t|items|entries]; cbn in Hres; try done.
      - by destruct (Hl items).
      - by destruct (Hd entries). }
    split; [done|]. exists s'. rewrite Hraise in Hh.
    rewrite app_nil_r in Hh. split_and!; [done|done| |].
    + rewrite Hh, Hh1.
      rewrite (app_assoc _ [_] [_] : _ ++ [_; _] = _). apply last_snoc.
    + rewrite Htr', Htr. apply last_snoc.
  - intros items ->. cbn in Hres.
    destruct (existsb _ items); cbn in Hres; eauto.
Qed.

(** C9, as the code has it. For a session id that is not in the store
    (sessions are never removed, so this is an id never seen):
    [get_report] raises the 404 error; [upload_media] does not: it returns
    the description of the file and leaves the store as it is; a chat
    request never raises an HTTP error, and whatever its outcome the
    session exists when it is over. *)
Theorem unseen_session_by_endpoint W req f a :
  sessions a !! session_id req = None ->
  get_report (session_id req) a
  = Raise (HTTPException 404 "Session not found")
  /\ upload_media W (session_id req) f a = (Ret (media_description W f), a)
  /\ (forall status detail,
        fst (fst (chat_endpoint str_lower W req a))
        <> Raise (HTTPException status detail))
  /\ is_Some (sessions (after W req a) !! session_id req).
Proof.
  intros Hnone. split_and!.
  - unfold get_report. by rewrite Hnone.
  - unfold upload_media. by rewrite Hnone.
  - intros status detail Hres.
    destruct (chat_endpoint_effect W req a) as (s1 & img & ev1 & _ & H).
    destruct (chat_endpoint str_lower W req a) as [[res a'] tr].
    destruct (KeyManager.chat_completion _ _ _) as [[r km] ev2].
    destruct H as (_ & _ & _ & Hraise & _). cbn [fst] in Hres.
    by destruct (Hraise _ Hres).
  - destruct (chat_endpoint_effect W req a) as (s1 & img & ev1 & _ & H).
    unfold after.
    destruct (chat_endpoint str_lower W req a) as [[res a'] tr].
    destruct (KeyManager.chat_completion _ _ _) as [[r km] ev2].
    destruct H as (_ & _ & _ & _ & _ & s' & Hs' & _). cbn [fst snd].
    by rewrite Hs'.
Qed.

End Orchestrator.

(** *** Concrete requests *)

(** A world without Presidio and without the classifier, whose renderer
    names its file with [hex] and whose providers are [P]. *)
Definition plain_world (hex : string) (P : KeyManager.providers) : Main.world :=
  {| Main.presidio_analyzer := None;
     Main.ml_models := None;
     Main.uuid_hex8 := hex;
     Main.llm := P;
     Main.process_audio := fun _ => "[Audio Processing Failed]";
     Main.process_image := fun _ => "[Image Content: pay now]";
     Main.file_exists := fun _ => false |}.

Definition fresh_app : Main.app :=
  {| Main.sessions := ∅; Main.key_manager := two_keys |}.

Definition says (reply : string) : KeyManager.providers :=
  always (answers (PyStr reply)) unreachable.

Definition chat_req (sid msg : string) : Main.ChatRequest :=
  {| Main.session_id := sid; Main.message := msg |}.

Lemma payment_handle_last_seen_wins_witness :
  Main.extract_upi
    (Main.redact_pii (plain_world "00000001" (says "ok")) "send to ramesh@okaxis")
  = Some "ramesh@okaxis"
  /\ Main.extract_upi
       (Main.redact_pii (plain_world "00000002" (says "ok"))
          "no, use suresh.k@ybl now")
     = Some "suresh.k@ybl"
  /\ handle_of
       (Main.chats ascii_lower
          [(plain_world "00000001" (says "ok"),
            chat_req "s1" "send to ramesh@okaxis");
           (plain_world "00000002" (says "ok"),
            chat_req "s1" "no, use suresh.k@ybl now")] fresh_app) "s1"
     = Some "suresh.k@ybl".
Proof.
  split; [reflexivity|]. split; [reflexivity|].
  exact (proj1 (proj2
    (payment_handle_last_seen_wins ascii_lower
       (plain_world "00000001" (says "ok")) (plain_world "00000002" (says "ok"))
       "s1" "send to ramesh@okaxis" "no, use suresh.k@ybl now"
       "ramesh@okaxis" "suresh.k@ybl" fresh_app eq_refl eq_refl))).
Defined.

Lemma trap_is_keyword_gated_and_repeatable_witness :
  traps_of
    (Main.chats ascii_lower
       [(plain_world "00000001" (says "ok"),
         chat_req "s1" "send me a Screenshot");
        (plain_world "00000002" (says "ok"),
         chat_req "s1" "where is the screenshot??")] fresh_app) "s1"
  = [ {| Main.trap_type := "fake_proof"; Main.file := "proof_00000001.png";
         Main.trap_timestamp := "now" |};
      {| Main.trap_type := "fake_proof"; Main.file := "proof_00000002.png";
         Main.trap_timestamp := "now" |} ].
Proof.
  destruct (trap_is_keyword_gated_and_repeatable ascii_lower)
    as (_ & _ & _ & _ & _ & _ & _ & H & _).
  destruct (H [(plain_world "00000001" (says "ok"),
                chat_req "s1" "send me a Screenshot");
               (plain_world "00000002" (says "ok"),
                chat_req "s1" "where is the screenshot??")] fresh_app "s1")
    as [H1 _].
  - repeat constructor.
  - exact H1.
Defined.

(** A world in which the analyzer reports the characters from [first] up
    to [last] of every text as personal data. *)
Definition flags (first last : nat) (hex : string)
    (P : KeyManager.providers) : Main.world :=
  {| Main.presidio_analyzer :=
       Some (fun _ => Ret [ {| Main.start := first; Main.end_ := last |} ]);
     Main.ml_models := None;
     Main.uuid_hex8 := hex;
     Main.llm := P;
     Main.process_audio := fun _ => "[Audio Processing Failed]";
     Main.process_image := fun _ => "[Image Content: pay now]";
     Main.file_exists := fun _ => false |}.

(** C7, as stated, fails: the lower-cased text of the message contains the
    bait keyword [proof], but the keyword lies in an e-mail address that
    the redaction replaces, and the test is made after the redaction. No
    trap record is appended, the renderer is not asked, and the transcript
    holds no directive turn. *)
Lemma bait_keyword_in_redacted_span_sets_no_trap :
  let W := flags 5 20 "00000001" (says "ok") in
  let req := chat_req "s1" "mail proof@gmail.com now" in
  any_in ["screenshot"; "proof"; "photo"; "payment done"]
    (ascii_lower (Main.message req)) = true
  /\ Main.redact_pii W (Main.message req) = "mail <REDACTED> now"
  /\ snd (Main.chat_endpoint ascii_lower W req fresh_app)
     = [GroqPost 0 "gsk_1"]
  /\ fst (fst (Main.chat_endpoint ascii_lower W req fresh_app))
     = Ret (PyStr "ok")
  /\ (fun s => (Main.traps_triggered s,
                map (fun t => (role t, content t)) (tail (Main.history s))))
     <$> Main.sessions (after ascii_lower W req fresh_app) !! "s1"
     = Some ([], [(user, PyStr "mail <REDACTED> now");
                  (assistant, PyStr "ok")]).
Proof. split_and!; vm_compute; reflexivity. Qed.

(** The record of a trap holds nothing but the name of the file: two
    triggering messages whose files get the same name leave two equal
    records in the list. *)
Example equal_file_names_give_equal_records :
  traps_of
    (Main.chats ascii_lower
       [(plain_world "00000001" (says "ok"),
         chat_req "s1" "send me a Screenshot");
        (plain_world "00000001" (says "ok"),
         chat_req "s1" "where is the screenshot??")] fresh_app) "s1"
  = [ {| Main.trap_type := "fake_proof"; Main.file := "proof_00000001.png";
         Main.trap_timestamp := "now" |};
      {| Main.trap_type := "fake_proof"; Main.file := "proof_00000001.png";
         Main.trap_timestamp := "now" |} ].
Proof. vm_compute. reflexivity. Qed.

Lemma triggered_reply_mentions_artifact_witness :
  triggers ascii_lower (plain_world "1a2b3c4d" (says "ok beta"))
    "Send PROOF of payment" = true
  /\ exists url final s',
       Some "/proof/proof_1a2b3c4d.png" = Some url
       /\ url = "/proof/" +:+ Main.file (trap_record (plain_world "1a2b3c4d" (says "ok beta")))
       /\ final = (if is_substring url "ok beta" then "ok beta"
                   else "ok beta" +:+ Main.attachment url)
       /\ is_substring url final = true
       /\ fst (fst (Main.chat_endpoint ascii_lower
                      (plain_world "1a2b3c4d" (says "ok beta"))
                      (chat_req "s1" "Send PROOF of payment") fresh_app))
          = Ret (PyStr final)
       /\ Main.sessions
            (after ascii_lower (plain_world "1a2b3c4d" (says "ok beta"))
               (chat_req "s1" "Send PROOF of payment") fresh_app)
          !! "s1" = Some s'
       /\ last (Main.history s')
          = Some {| role := assistant; content := PyStr final |}
       /\ last (Main.traps_triggered s')
          = Some (trap_record (plain_world "1a2b3c4d" (says "ok beta"))).
Proof.
  split; [reflexivity|].
  eapply (triggered_reply_mentions_artifact ascii_lower
            (plain_world "1a2b3c4d" (says "ok beta"))
            (chat_req "s1" "Send PROOF of payment") fresh_app).
  - reflexivity.
  - vm_compute. reflexivity.
  - reflexivity.
Defined.

Lemma triggered_request_without_text_reply_witness :
  let W := plain_world "00000001" (always (answers PyNone) unreachable) in
  let req := chat_req "s1" "send the screenshot" in
  triggers ascii_lower W (Main.message req) = true
  /\ fst (fst (KeyManager.chat_completion (Main.llm W)
                 (Main.history
                    (fst (fst (Main.before_reply ascii_lower W
                                 (Main.message req)
                                 (current_session ascii_lower req fresh_app)))))
                 (Main.key_manager fresh_app)))
     = Ret PyNone
  /\ fst (fst (Main.chat_endpoint ascii_lower W req fresh_app))
     = Raise TypeError.
Proof.
  split; [reflexivity|]. split; [vm_compute; reflexivity|].
  set (W := plain_world "00000001" (always (answers PyNone) unreachable)).
  set (req := chat_req "s1" "send the screenshot").
  set (b := Main.before_reply ascii_lower W (Main.message req)
              (current_session ascii_lower req fresh_app)).
  destruct (triggered_request_without_text_reply ascii_lower W req fresh_app
              (fst (fst b)) (snd (fst b)) (snd b) PyNone)
    as (_ & _ & H & _).
  - reflexivity.
  - vm_compute. reflexivity.
  - vm_compute. reflexivity.
  - reflexivity.
  - destruct H as [H _]; [discriminate|discriminate|exact H].
Defined.

Lemma unseen_session_by_endpoint_witness :
  Main.sessions fresh_app !! "nobody" = None
  /\ Main.get_report "nobody" fresh_app
     = Raise (HTTPException 404 "Session not found").
Proof.
  split; [reflexivity|].
  exact (proj1
    (unseen_session_by_endpoint ascii_lower (plain_world "00000001" (says "ok"))
       (chat_req "nobody" "hello")
       {| Main.file_bytes := "PNG"; Main.content_type := Some "image/png" |}
       fresh_app eq_refl)).
Defined.

(** C9, as stated, fails for the media endpoint: an upload for a session
    id that was never seen is answered with the description of the file,
    not with a not-found error. *)
Lemma upload_media_unseen_session_is_answered :
  Main.sessions fresh_app !! "nobody" = None
  /\ Main.upload_media (plain_world "00000001" (says "ok")) "nobody"
       {| Main.file_bytes := "PNG"; Main.content_type := Some "image/png" |}
       fresh_app
     = (Ret "[Image Content: pay now]", fresh_app)
  /\ forall status detail,
       fst (Main.upload_media (plain_world "00000001" (says "ok")) "nobody"
              {| Main.file_bytes := "PNG"; Main.content_type := Some "image/png" |}
              fresh_app)
       <> Raise (HTTPException status detail).
Proof. split_and!; [reflexivity|reflexivity|discriminate]. Qed.

(** *** End-to-end scenarios of the design *)

Definition no_keys_app : Main.app :=
  {| Main.sessions := ∅; Main.key_manager := KeyManager.init (getenv_of []) |}.

(** A new session id and an opening message: the session is created with
    the persona the message selects, and the transcript holds the system
    directive, the user message and the reply. *)
Example first_message_creates_session :
  let W := plain_world "00000001" (says "Hello beta") in
  let req := chat_req "test_script_session"
               "Hello friend, I have a business proposal for you about a lottery." in
  fst (fst (Main.chat_endpoint ascii_lower W req fresh_app))
  = Ret (PyStr "Hello beta")
  /\ (Main.get_report "test_script_session" (after ascii_lower W req fresh_app)
      = Ret {| Main.report_session_id := "test_script_session";
               Main.persona_used := "Rahul";
               Main.scammer_ip_logs := [];
               Main.traps_deployed := [];
               Main.chat_transcript :=
                 [ {| role := system;
                      content := PyStr (PersonaManager.student_prompt
                                        +:+ PersonaManager.the_hinglish_directive) |};
                   {| role := user;
                      content := PyStr "Hello friend, I have a business proposal for you about a lottery." |};
                   {| role := assistant; content := PyStr "Hello beta" |} ] |}).
Proof. split; vm_compute; reflexivity. Qed.

(** No primary key and no secondary key: the reply is the fixed message
    and the transcript gains the assistant turn with it. *)
Example no_provider_at_all :
  let W := plain_world "00000001" (says "never asked") in
  let req := chat_req "s1" "hello" in
  fst (fst (Main.chat_endpoint ascii_lower W req no_keys_app))
  = Ret (PyStr "Server Error: No valid API keys available.")
  /\ (last <$> (Main.history
                 <$> Main.sessions (after ascii_lower W req no_keys_app) !! "s1"))
     = Some (Some {| role := assistant;
                     content := PyStr "Server Error: No valid API keys available." |})
  /\ snd (Main.chat_endpoint ascii_lower W req no_keys_app) = [Failover].
Proof. split_and!; vm_compute; reflexivity. Qed.

(** What a [None] returned by the gateway does to a chat request: without
    a trap it is passed on as the reply; with a trap the membership test on
    it raises [TypeError], after the trap record and the directive turn
    were stored. *)
Example null_content_in_chat :
  let W := plain_world "00000001" (always (answers PyNone) unreachable) in
  fst (fst (Main.chat_endpoint ascii_lower W (chat_req "s1" "hello") fresh_app))
  = Ret PyNone
  /\ fst (fst (Main.chat_endpoint ascii_lower W
                 (chat_req "s1" "send the screenshot") fresh_app))
     = Raise TypeError
  /\ traps_of (after ascii_lower W (chat_req "s1" "send the screenshot")
                 fresh_app) "s1"
     = [trap_record W].
Proof. split_and!; vm_compute; reflexivity. Qed.

(** Redaction: findings are replaced from the right, so that the earlier
    positions stay valid. *)
Example redact_two_findings :
  Main.redact_pii
    {| Main.presidio_analyzer :=
         Some (fun _ => Ret [ {| Main.start := 5; Main.end_ := 15 |};
                              {| Main.start := 19; Main.end_ := 28 |} ]);
       Main.ml_models := None; Main.uuid_hex8 := "00000001";
       Main.llm := says "ok";
       Main.process_audio := fun _ => EmptyString;
       Main.process_image := fun _ => EmptyString;
       Main.file_exists := fun _ => false |}
    "call 9876543210 or a@mail.in now"
  = "call <REDACTED> or <REDACTED> now".
Proof. reflexivity. Qed.

(** * Further properties of the code *)

(** ** The key pool and the gateway *)

Section GatewayMore.

Import KeyManager.

Implicit Types (km : state) (P : providers) (messages : list Turn).

Definition groq_key_names : list string :=
  ["GROQ_API_KEY_1"; "GROQ_API_KEY_2"; "GROQ_API_KEY_3"].

(** X1. [__init__] builds the pool from the three primary variables in
    their order: the pool is the list of the values of [GROQ_API_KEY_1],
    [GROQ_API_KEY_2] and [GROQ_API_KEY_3] that are set, with the empty
    ones left out and nothing else removed, so a value set twice is kept
    twice. Hence it has at most three keys, none of them empty. The cursor
    starts at 0 and the state is well formed; the secondary key is taken
    as the environment has it, empty or not. *)
Theorem init_pool (getenv : string -> option string) :
  let km := init getenv in
  wf km
  /\ current_groq_index km = 0
  /\ groq_keys km
     = filter (fun k => k <> EmptyString)
         (omap getenv
            ["GROQ_API_KEY_1"; "GROQ_API_KEY_2"; "GROQ_API_KEY_3"])
  /\ length (groq_keys km) <= 3
  /\ groq_keys km `sublist_of` omap getenv groq_key_names
  /\ (forall k, k ∈ groq_keys km <->
                k <> EmptyString
                /\ exists n, n ∈ groq_key_names /\ getenv n = Some k)
  /\ openrouter_key km = getenv "OPENROUTER_API_KEY".
Proof.
  cbn zeta. split; [apply init_wf|]. split; [done|].
  unfold init, groq_key_names. cbn [groq_keys openrouter_key].
  split; [|split; [|split; [|split; [|done]]]].
  - cbn [omap list_omap].
    repeat match goal with
           | |- context [getenv ?n] => destruct (getenv n) as [[|? ?]|]
           end; reflexivity.
  - by repeat match goal with
              | |- context [getenv ?n] => destruct (getenv n) as [[|? ?]|]
              end; cbn; lia.
  - cbn. repeat match goal with
                | |- context [getenv ?n] => destruct (getenv n) as [[|? ?]|]
                end; cbn.
    all: repeat first [ apply sublist_nil | apply sublist_skip
                      | apply sublist_cons ].
  - intros k. rewrite list_elem_of_omap. split.
    + intros (x & Hx & Hf). destruct x as [[|c s]|]; try done.
      injection Hf as <-. split; [done|].
      rewrite !elem_of_cons, elem_of_nil in Hx.
      destruct Hx as [Hx|[Hx|[Hx|[]]]];
        eexists; (split; [|symmetry; exact Hx]);
        rewrite !elem_of_cons; auto.
    + intros [Hk (n & Hn & Hg)]. exists (Some k). split.
      * rewrite !elem_of_cons, elem_of_nil in Hn.
        rewrite !elem_of_cons. destruct Hn as [->|[->|[->|[]]]]; auto.
      * by destruct k.
Qed.

(** X2. On a well-formed state a call returns a value, it does not raise;
    it leaves the state well formed, and what it changes of it is the
    cursor alone: the pool and the secondary key are what they were. *)
Theorem chat_completion_keeps_invariant P messages km :
  wf km ->
  exists v km' tr,
    chat_completion P messages km = (Ret v, km', tr)
    /\ wf km'
    /\ groq_keys km' = groq_keys km
    /\ openrouter_key km' = openrouter_key km.
Proof.
  intros Hwf.
  destruct (chat_completion P messages km) as [[r km'] tr] eqn:E.
  destruct (chat_completion_never_raises P messages km Hwf) as (v & Hv & Hwf').
  rewrite E in Hv, Hwf'. cbn in Hv, Hwf'. subst r.
  destruct (chat_completion_origin _ _ _ _ _ _ Hwf E) as (rl & evl & El & _).
  destruct (groq_loop_frame _ _ _ _ _ _ Hwf El) as (_ & Hk & Ho & _).
  by exists v, km', tr.
Qed.

Lemma chat_completion_keeps_invariant_witness :
  exists v km' tr,
    chat_completion (always unreachable (answers (PyStr "ok"))) [] two_keys
    = (Ret v, km', tr)
    /\ wf km'
    /\ groq_keys km' = groq_keys two_keys
    /\ openrouter_key km' = openrouter_key two_keys.
Proof.
  apply (chat_completion_keeps_invariant
           (always unreachable (answers (PyStr "ok"))) [] two_keys).
  apply init_wf.
Defined.

Definition secondary_posts (tr : list event) : list string :=
  omap (fun e => match e with OpenRouterPost k => Some k | _ => None end) tr.

Lemma groq_loop_bound P messages n a km :
  length (posted (snd (groq_loop P messages n a km))) <= n
  /\ rotations (snd (groq_loop P messages n a km))
     <= length (posted (snd (groq_loop P messages n a km)))
  /\ secondary_posts (snd (groq_loop P messages n a km)) = [].
Proof.
  revert a km. induction n as [|n IH]; intros a km; [by cbn|].
  cbn [groq_loop]. destruct (_get_current_groq_key km); [|cbn; split_and!; done || lia].
  destruct (negb _); [cbn; split_and!; done || lia|].
  unfold _rotate_groq_key.
  destruct (groq_try _); [cbn; split_and!; done || lia|..];
    destruct (groq_keys km) eqn:Ek;
    match goal with
    | |- context [groq_loop P messages n (S a) ?km1] =>
        destruct (IH (S a) km1) as (H1 & H2 & H3);
        destruct (groq_loop P messages n (S a) km1) as [[r2 km2] evs]
    end; unfold posted, rotations, secondary_posts in *; cbn in *;
    (split_and!; [lia|lia|done]).
Qed.

Lemma chat_completion_bounded_aux P messages km r km' tr :
  wf km ->
  chat_completion P messages km = (r, km', tr) ->
  length (posted tr) <= length (groq_keys km)
  /\ rotations tr <= length (posted tr)
  /\ length (secondary_posts tr) <= 1
  /\ exists primary rest,
       tr = primary ++ rest
       /\ forallb is_primary_event primary = true
       /\ posted rest = [] /\ rotations rest = 0
       /\ (rest = [] \/ exists rest', rest = Failover :: rest').
Proof.
  intros Hwf E.
  destruct (chat_completion_origin _ _ _ _ _ _ Hwf E)
    as (rl & evl & El & Hp & Hcases).
  pose proof (groq_loop_bound P messages (length (groq_keys km)) 0 km)
    as (Hb1 & Hb2 & Hb3).
  rewrite El in Hb1, Hb2, Hb3. cbn [snd] in Hb1, Hb2, Hb3.
  assert (Htail : exists tail,
             tr = evl ++ tail
             /\ (tail = [] \/ exists rest, tail = Failover :: rest
                   /\ posted rest = [] /\ rotations rest = 0
                   /\ length (secondary_posts rest) <= 1)).
  { destruct Hcases as [(v & _ & _ & ->)|(_ & tail & -> & Hno & Hyes)].
    - exists []. split; [by rewrite app_nil_r|by left].
    - exists (Failover :: tail). split; [done|]. right. exists tail.
      split; [done|]. destruct (truthy (openrouter_key km)).
      + specialize (Hyes eq_refl). cbn zeta in Hyes.
        destruct (openrouter_try _); destruct Hyes as [_ ->]; cbn; auto.
      + destruct (Hno eq_refl) as [_ ->]. cbn; auto. }
  destruct Htail as (tail & -> & Htail).
  assert (Hpt : posted tail = [] /\ rotations tail = 0
                /\ length (secondary_posts tail) <= 1).
  { destruct Htail as [->|(rest & -> & ? & ? & ?)]; [cbn; auto|].
    unfold posted, rotations, secondary_posts in *. cbn. by split_and!. }
  destruct Hpt as (Hp1 & Hp2 & Hp3).
  split_and!.
  - rewrite posted_app, Hp1, app_nil_r. done.
  - rewrite posted_app, rotations_app, Hp1, Hp2, app_nil_r. lia.
  - unfold secondary_posts in *. rewrite omap_app, length_app, Hb3. cbn. lia.
  - exists evl, tail. split_and!; try done.
    destruct Htail as [->|(rest & -> & _)]; eauto.
Qed.
(** X3. The walk is bounded. In any call on a well-formed state, at most
    one post is made per key of the pool (none if the pool is empty), no
    rotation happens without a post before it, at most one post goes to
    the secondary provider, and once the failover has started nothing more
    is posted to the primary provider. *)
Theorem chat_completion_is_bounded P messages km r km' tr :
  wf km ->
  chat_completion P messages km = (r, km', tr) ->
  length (posted tr) <= length (groq_keys km)
  /\ rotations tr <= length (posted tr)
  /\ length (secondary_posts tr) <= 1
  /\ exists primary rest,
       tr = primary ++ rest
       /\ forallb is_primary_event primary = true
       /\ posted rest = [] /\ rotations rest = 0
       /\ (rest = [] \/ exists rest', rest = Failover :: rest').
Proof. apply chat_completion_bounded_aux. Qed.

Lemma chat_completion_is_bounded_witness :
  length (posted (snd (chat_completion (always rate_limit unreachable) []
                         two_keys))) <= 2
  /\ rotations (snd (chat_completion (always rate_limit unreachable) []
                       two_keys)) <= 2
  /\ length (secondary_posts
               (snd (chat_completion (always rate_limit unreachable) []
                       two_keys))) <= 1.
Proof.
  destruct (chat_completion_is_bounded (always rate_limit unreachable) []
              two_keys
              (fst (fst (chat_completion (always rate_limit unreachable) []
                           two_keys)))
              (snd (fst (chat_completion (always rate_limit unreachable) []
                           two_keys)))
              (snd (chat_completion (always rate_limit unreachable) []
                      two_keys))
              (init_wf _) eq_refl) as (H1 & H2 & H3 & _).
  split_and!; [exact H1| |exact H3].
  etransitivity; [exact H2|exact H1].
Defined.

(** The indices posted in a run of the loop are consecutive modulo the pool
    size, starting at the cursor, and each post carries the key stored at
    its index. *)
Definition post_uses_key (keys : list string) (e : event) : Prop :=
  match e with
  | GroqPost i k => keys !! i = Some k
  | _ => True
  end.

Lemma cycle_step c N j :
  ((c + 1) mod N + j) mod N = (c + S j) mod N.
Proof. rewrite Nat.Div0.add_mod_idemp_l. f_equal. lia. Qed.

Lemma cycle_shift c N L :
  c < N ->
  c :: map (fun j => ((c + 1) mod N + j) mod N) (seq 0 L)
  = map (fun j => (c + j) mod N) (seq 0 (S L)).
Proof.
  intros Hc. cbn [seq map]. rewrite Nat.add_0_r, (Nat.mod_small c) by done.
  f_equal. rewrite <- (seq_shift L 0), map_map. apply map_ext.
  intros j. apply cycle_step.
Qed.

Lemma groq_loop_posts P messages n a km r km' tr :
  wf km -> groq_keys km <> [] ->
  groq_loop P messages n a km = (r, km', tr) ->
  posted tr
  = map (fun j => (current_groq_index km + j) mod length (groq_keys km))
        (seq 0 (length (posted tr)))
  /\ Forall (post_uses_key (groq_keys km)) tr.
Proof.
  revert a km r km' tr. induction n as [|n IH]; intros a km r km' tr Hwf Hne.
  - cbn. by intros [= <- <- <-].
  - destruct (wf_current km Hwf Hne) as (key & Hkey & _ & Ht).
    rewrite (groq_loop_step _ _ _ _ _ key) by done. cbn zeta.
    set (i' := (current_groq_index km + 1) mod length (groq_keys km)).
    assert (Hwf' : wf (set_index km i')).
    { pose proof (rotate_wf km Hwf) as H. by rewrite rotate_nonempty in H. }
    assert (Hc : current_groq_index km < length (groq_keys km)).
    { destruct Hwf as [_ [?|?]]; done. }
    destruct (groq_try _) as [v| |e].
    + intros [= <- <- <-]. split; [|by repeat constructor].
      cbn. by rewrite Nat.add_0_r, Nat.mod_small.
    + destruct (groq_loop P messages n (S a) (set_index km i'))
        as [[r2 km2] evs] eqn:E.
      intros [= <- <- <-]. destruct (IH _ _ _ _ _ Hwf' Hne E) as [H1 H2].
      cbn [current_groq_index groq_keys set_index] in H1, H2. split.
      * change (posted (GroqPost (current_groq_index km) key
                        :: GroqRateLimit (current_groq_index km)
                        :: Rotated i' :: evs))
          with (current_groq_index km :: posted evs).
        cbn [length]. rewrite <- cycle_shift by done. f_equal. exact H1.
      * by repeat constructor.
    + destruct (groq_loop P messages n (S a) (set_index km i'))
        as [[r2 km2] evs] eqn:E.
      intros [= <- <- <-]. destruct (IH _ _ _ _ _ Hwf' Hne E) as [H1 H2].
      cbn [current_groq_index groq_keys set_index] in H1, H2. split.
      * change (posted (GroqPost (current_groq_index km) key
                        :: GroqError (current_groq_index km) e
                        :: Rotated i' :: evs))
          with (current_groq_index km :: posted evs).
        cbn [length]. rewrite <- cycle_shift by done. f_equal. exact H1.
      * by repeat constructor.
Qed.

Lemma cycle_prefix_NoDup c N L :
  c < N -> L <= N -> NoDup (map (fun j => (c + j) mod N) (seq 0 L)).
Proof.
  intros Hc HL.
  assert (Hfull : NoDup (map (fun j => (c + j) mod N) (seq 0 N))).
  { rewrite (cycle_permutation c N Hc). apply NoDup_seq. }
  assert (Hs : seq 0 N = seq 0 L ++ seq L (N - L)).
  { rewrite <- seq_app. f_equal. lia. }
  rewrite Hs, map_app in Hfull. by apply NoDup_app in Hfull as [? _].
Qed.

Lemma keys_are_tried_in_cyclic_order_aux P messages km r km' tr :
  wf km ->
  chat_completion P messages km = (r, km', tr) ->
  posted tr
  = map (fun j => (current_groq_index km + j) mod length (groq_keys km))
        (seq 0 (length (posted tr)))
  /\ NoDup (posted tr)
  /\ Forall (post_uses_key (groq_keys km)) tr.
Proof.
  intros Hwf E.
  destruct (chat_completion_bounded_aux _ _ _ _ _ _ Hwf E) as (Hb & _).
  destruct (chat_completion_origin _ _ _ _ _ _ Hwf E)
    as (rl & evl & El & Hp & Hcases).
  destruct (decide (groq_keys km = [])) as [He|Hne].
  { rewrite He in Hb. destruct (posted tr) eqn:Ep; [|cbn in Hb; lia].
    split_and!; [done|constructor|].
    rewrite He in El. cbn in El. injection El as <- <- <-.
    destruct Hcases as [(v & ? & _)|(_ & tail & -> & Hno & Hyes)]; [done|].
    destruct (truthy (openrouter_key km)).
    - specialize (Hyes eq_refl). cbn zeta in Hyes.
      destruct (openrouter_try _); destruct Hyes as [_ ->];
        by repeat constructor.
    - destruct (Hno eq_refl) as [_ ->]. by repeat constructor. }
  destruct (groq_loop_posts _ _ _ _ _ _ _ _ Hwf Hne El) as [H1 H2].
  assert (Htr : posted tr = posted evl
                /\ Forall (post_uses_key (groq_keys km)) tr).
  { destruct Hcases as [(v & _ & _ & ->)|(_ & tail & -> & Hno & Hyes)];
      [done|].
    rewrite posted_app. destruct (truthy (openrouter_key km)).
    - specialize (Hyes eq_refl). cbn zeta in Hyes.
      destruct (openrouter_try _); destruct Hyes as [_ ->];
        (split; [by rewrite app_nil_r|]);
        apply Forall_app; (split; [done|by repeat constructor]).
    - destruct (Hno eq_refl) as [_ ->]. split; [by rewrite app_nil_r|].
      apply Forall_app. split; [done|by repeat constructor]. }
  destruct Htr as [Hpt Hft]. rewrite Hpt in *. split_and!; [done| |done].
  rewrite H1. apply cycle_prefix_NoDup; [|done].
  destruct Hwf as [_ [?|?]]; done.
Qed.

(** X4. In one call no key is tried twice: the indices posted are
    consecutive modulo the pool size, starting at the cursor, without
    repetition, and every post carries the key stored at its index. *)
Theorem keys_are_tried_in_cyclic_order P messages km r km' tr :
  wf km ->
  chat_completion P messages km = (r, km', tr) ->
  posted tr
  = map (fun j => (current_groq_index km + j) mod length (groq_keys km))
        (seq 0 (length (posted tr)))
  /\ NoDup (posted tr)
  /\ Forall (post_uses_key (groq_keys km)) tr.
Proof. apply keys_are_tried_in_cyclic_order_aux. Qed.

Lemma keys_are_tried_in_cyclic_order_witness :
  NoDup (posted (snd (chat_completion (always unreachable unreachable) []
                        two_keys))).
Proof.
  exact (proj1 (proj2
    (keys_are_tried_in_cyclic_order (always unreachable unreachable) []
       two_keys
       (fst (fst (chat_completion (always unreachable unreachable) []
                    two_keys)))
       (snd (fst (chat_completion (always unreachable unreachable) []
                    two_keys)))
       (snd (chat_completion (always unreachable unreachable) [] two_keys))
       (init_wf _) eq_refl))).
Defined.

(** X5. Any failure rotates, not only a rate limit. If no primary post of
    a call yields a reply (each is answered with 429, fails in transport,
    has an error status or a body of the wrong shape), every key of a
    non-empty pool is posted exactly once, the cursor is rotated once per
    key and ends where it started, and the call goes on to the failover. *)
Theorem failing_pool_is_walked_once P messages km r km' tr :
  wf km -> groq_keys km <> [] ->
  (forall a key v, groq_try (groq_api P a key messages) <> Returned v) ->
  chat_completion P messages km = (r, km', tr) ->
  posted tr ≡ₚ seq 0 (length (groq_keys km))
  /\ rotations tr = length (groq_keys km)
  /\ current_groq_index km' = current_groq_index km
  /\ Failover ∈ tr.
Proof.
  intros Hwf Hne Hfail E.
  destruct (keys_are_tried_in_cyclic_order_aux P messages km r km' tr Hwf E)
    as [Hcyc _].
  destruct (chat_completion_origin _ _ _ _ _ _ Hwf E)
    as (rl & evl & El & Hp & [(v & -> & _)|(-> & tail & -> & Hno & Hyes)]).
  { apply groq_loop_returned in El as (a' & key & Hv). by apply Hfail in Hv. }
  destruct (groq_loop_inv _ _ _ _ _ _ _ _ Hwf Hne El)
    as (_ & _ & _ & _ & Hr & Hl & Hc).
  assert (Hc' : current_groq_index km < length (groq_keys km)).
  { destruct Hwf as [_ [?|?]]; done. }
  assert (Htail : posted tail = [] /\ rotations tail = 0).
  { destruct (truthy (openrouter_key km)).
    - specialize (Hyes eq_refl). cbn zeta in Hyes.
      destruct (openrouter_try _); by destruct Hyes as [_ ->].
    - by destruct (Hno eq_refl) as [_ ->]. }
  destruct Htail as [Ht1 Ht2].
  assert (Hpe : posted (evl ++ Failover :: tail) = posted evl).
  { rewrite posted_app. change (posted (Failover :: tail)) with (posted tail).
    by rewrite Ht1, app_nil_r. }
  split_and!.
  - rewrite Hcyc, Hpe, Hl. by apply cycle_permutation.
  - rewrite rotations_app.
    change (rotations (Failover :: tail)) with (rotations tail). lia.
  - rewrite Hc. replace (current_groq_index km + length (groq_keys km))
      with (current_groq_index km + 1 * length (groq_keys km)) by lia.
    rewrite Nat.Div0.mod_add. by apply Nat.mod_small.
  - apply elem_of_app. right. apply list_elem_of_here.
Qed.
Lemma failing_pool_is_walked_once_witness :
  posted (snd (chat_completion (always unreachable unreachable) [] two_keys))
  ≡ₚ seq 0 2
  /\ current_groq_index
       (snd (fst (chat_completion (always unreachable unreachable) []
                    two_keys))) = 0.
Proof.
  destruct (failing_pool_is_walked_once (always unreachable unreachable) []
              two_keys
              (fst (fst (chat_completion (always unreachable unreachable) []
                           two_keys)))
              (snd (fst (chat_completion (always unreachable unreachable) []
                           two_keys)))
              (snd (chat_completion (always unreachable unreachable) []
                      two_keys))
              (init_wf _)) as (H1 & _ & H3 & _).
  - discriminate.
  - intros a key v. discriminate.
  - reflexivity.
  - split; [exact H1|exact H3].
Defined.

(** The key that the [j]-th post of a call uses. *)
Definition key_at km (j : nat) : string :=
  default EmptyString
    (groq_keys km !! ((current_groq_index km + j) mod length (groq_keys km))).

Lemma set_index_same km : set_index km (current_groq_index km) = km.
Proof. by destruct km. Qed.

Lemma groq_loop_first_success P messages j :
  forall n a km v,
    wf km -> groq_keys km <> [] -> j < n ->
    (forall i w, i < j ->
       groq_try (groq_api P (a + i) (key_at km i) messages) <> Returned w) ->
    groq_try (groq_api P (a + j) (key_at km j) messages) = Returned v ->
    exists tr,
      groq_loop P messages n a km
      = (Ret (Some v),
         set_index km ((current_groq_index km + j) mod length (groq_keys km)),
         tr)
      /\ length (posted tr) = S j /\ rotations tr = j.
Proof.
  induction j as [|j IH]; intros n a km v Hwf Hne Hn Hfail Hok.
  - destruct n as [|n]; [lia|].
    destruct (wf_current km Hwf Hne) as (key & Hkey & _ & Ht).
    assert (Hc : current_groq_index km < length (groq_keys km)).
    { destruct Hwf as [_ [?|?]]; done. }
    unfold key_at in Hok. rewrite !Nat.add_0_r, Nat.mod_small, Hkey in Hok by done.
    rewrite (groq_loop_step _ _ _ _ _ key) by done. cbn zeta.
    change (default EmptyString (Some key)) with key in Hok. rewrite Hok.
    eexists. rewrite Nat.add_0_r, Nat.mod_small, set_index_same by done.
    by split_and!.
  - destruct n as [|n]; [lia|].
    destruct (wf_current km Hwf Hne) as (key & Hkey & _ & Ht).
    assert (Hc : current_groq_index km < length (groq_keys km)).
    { destruct Hwf as [_ [?|?]]; done. }
    rewrite (groq_loop_step _ _ _ _ _ key) by done. cbn zeta.
    set (i' := (current_groq_index km + 1) mod length (groq_keys km)).
    assert (Hwf' : wf (set_index km i')).
    { pose proof (rotate_wf km Hwf) as H. by rewrite rotate_nonempty in H. }
    assert (Hkeys : forall i, key_at (set_index km i') i = key_at km (S i)).
    { intros i. unfold key_at. cbn [groq_keys current_groq_index set_index].
      unfold i'. by rewrite cycle_step. }
    assert (H0 : forall w, groq_try (groq_api P a key messages) <> Returned w).
    { intros w Hw. apply (Hfail 0 w); [lia|].
      unfold key_at. by rewrite !Nat.add_0_r, Nat.mod_small, Hkey. }
    destruct (IH n (S a) (set_index km i') v Hwf' Hne) as (tr & Etr & Hp & Hr).
    + lia.
    + intros i w Hi. rewrite Hkeys.
      replace (S a + i) with (a + S i) by lia. apply Hfail. lia.
    + rewrite Hkeys. by replace (S a + j) with (a + S j) by lia.
    + cbn [groq_keys current_groq_index set_index] in Etr.
      assert (Hst : (i' + j) mod length (groq_keys km)
                    = (current_groq_index km + S j) mod length (groq_keys km))
        by apply cycle_step.
      rewrite Hst in Etr.
      destruct (groq_try (groq_api P a key messages)) as [w| |e].
      * by destruct (H0 w).
      * rewrite Etr. eexists. split; [reflexivity|].
        unfold posted, rotations in *. cbn. by rewrite Hp, Hr.
      * rewrite Etr. eexists. split; [reflexivity|].
        unfold posted, rotations in *. cbn. by rewrite Hp, Hr.
Qed.

(** X6. The reply of a call is the reply to the first post that succeeds.
    If the first [j] posts of a call fail (for any reason) and the post
    number [j], made with the key [j] places after the cursor, is answered
    with content [v], the call returns [v] after [j + 1] posts and [j]
    rotations, does not fail over, and leaves the cursor on the key that
    succeeded. *)
Theorem first_success_is_returned P messages km (j : nat) v :
  wf km -> j < length (groq_keys km) ->
  (forall i w, i < j ->
     groq_try (groq_api P i (key_at km i) messages) <> Returned w) ->
  groq_try (groq_api P j (key_at km j) messages) = Returned v ->
  exists tr,
    chat_completion P messages km
    = (Ret v,
       set_index km ((current_groq_index km + j) mod length (groq_keys km)),
       tr)
    /\ length (posted tr) = S j
    /\ rotations tr = j
    /\ Failover ∉ tr.
Proof.
  intros Hwf Hj Hfail Hok.
  assert (Hne : groq_keys km <> []).
  { intros He. rewrite He in Hj. cbn in Hj. lia. }
  destruct (groq_loop_first_success P messages j (length (groq_keys km)) 0
              km v Hwf Hne Hj) as (tr & Etr & Hp & Hr); [done..|].
  exists tr. unfold chat_completion. rewrite Etr. split_and!; try done.
  apply primary_events_no_failover.
  pose proof (groq_loop_inv _ _ _ _ _ _ _ _ Hwf Hne Etr) as (_ & _ & _ & H & _).
  exact H.
Qed.

Lemma first_success_is_returned_witness :
  exists tr,
    chat_completion
      {| groq_api := fun a _ _ => if a =? 0 then rate_limit
                                  else answers (PyStr "hi");
         openrouter_api := fun _ _ => unreachable |} [] two_keys
    = (Ret (PyStr "hi"), set_index two_keys ((0 + 1) mod 2), tr)
    /\ length (posted tr) = 2
    /\ rotations tr = 1
    /\ Failover ∉ tr.
Proof.
  apply (first_success_is_returned
           {| groq_api := fun a _ _ => if a =? 0 then rate_limit
                                       else answers (PyStr "hi");
              openrouter_api := fun _ _ => unreachable |} [] two_keys 1).
  - apply init_wf.
  - cbn. lia.
  - intros i w Hi. assert (i = 0) as -> by lia. discriminate.
  - reflexivity.
Defined.

(** X7. When a call reaches the failover with a secondary key configured
    and the secondary provider answers with content [v], the call returns
    [v]; the trace ends with the one post made to the secondary provider,
    with the configured key. *)
Theorem secondary_reply_is_returned P messages km r km' tr v :
  wf km ->
  chat_completion P messages km = (r, km', tr) ->
  Failover ∈ tr ->
  truthy (openrouter_key km) = true ->
  openrouter_try
    (openrouter_api P (default EmptyString (openrouter_key km)) messages)
  = Ret v ->
  r = Ret v
  /\ secondary_posts tr = [default EmptyString (openrouter_key km)]
  /\ last tr = Some (OpenRouterPost (default EmptyString (openrouter_key km)))
  /\ openrouter_key km = Some (default EmptyString (openrouter_key km)).
Proof.
  intros Hwf E Hin Ht Ho.
  destruct (chat_completion_origin _ _ _ _ _ _ Hwf E)
    as (rl & evl & El & Hp & [(w & _ & _ & ->)|(_ & tail & -> & _ & Hyes)]).
  { by apply primary_events_no_failover in Hp. }
  specialize (Hyes Ht). cbn zeta in Hyes. rewrite Ho in Hyes.
  destruct Hyes as [-> ->]. split_and!; [done| | |].
  - pose proof (groq_loop_bound P messages (length (groq_keys km)) 0 km)
      as (_ & _ & Hs).
    rewrite El in Hs. cbn [snd] in Hs.
    unfold secondary_posts in *. by rewrite omap_app, Hs.
  - change (Failover :: ?t) with ([Failover] ++ t).
    rewrite app_assoc. apply last_snoc.
  - by destruct (openrouter_key km).
Qed.

Lemma secondary_reply_is_returned_witness :
  fst (fst (chat_completion (always rate_limit (answers (PyStr "ok"))) []
              two_keys)) = Ret (PyStr "ok")
  /\ secondary_posts
       (snd (chat_completion (always rate_limit (answers (PyStr "ok"))) []
               two_keys)) = ["sk-or-1"].
Proof.
  destruct (secondary_reply_is_returned
              (always rate_limit (answers (PyStr "ok"))) [] two_keys
              (fst (fst (chat_completion
                           (always rate_limit (answers (PyStr "ok"))) []
                           two_keys)))
              (snd (fst (chat_completion
                           (always rate_limit (answers (PyStr "ok"))) []
                           two_keys)))
              (snd (chat_completion
                      (always rate_limit (answers (PyStr "ok"))) [] two_keys))
              (PyStr "ok") (init_wf _) eq_refl) as (H1 & H2 & _).
  - apply (bool_decide_unpack _). vm_compute. exact I.
  - reflexivity.
  - reflexivity.
  - split; [exact H1|exact H2].
Defined.

(** X8. The one response shape that yields a reply. The content is read
    only from a body that is an object whose ["choices"] is a list that
    begins with an object whose ["message"] is an object with a
    ["content"]; the reply is that content, whatever its type. With any
    other body the extraction raises [KeyError], [IndexError] or
    [TypeError], or what [response.json()] raised. *)
Theorem reply_content_shape (r : Response) :
  (forall v,
     reply_content r = Ret v <->
     exists body choice rest message,
       json r = Ret (PyDict body)
       /\ assoc "choices" body = Some (PyList (PyDict choice :: rest))
       /\ assoc "message" choice = Some (PyDict message)
       /\ assoc "content" message = Some v)
  /\ (forall e,
        reply_content r = Raise e ->
        json r = Raise e \/ e = KeyError \/ e = IndexError \/ e = TypeError).
Proof.
  split.
  - intros v. split.
    + unfold reply_content, bind, getitem, getitem0.
      repeat case_match; try done. intros [= <-]. simplify_eq. eauto 10.
    + intros (body & choice & rest & message & Hj & Hc & Hm & Hv).
      unfold reply_content, bind, getitem, getitem0.
      by rewrite Hj, Hc, Hm, Hv.
  - intros e. unfold reply_content, bind, getitem, getitem0.
    intros He. repeat case_match; simplify_eq; auto 6.
Qed.

Lemma reply_content_shape_witness :
  reply_content {| status_code := 200; json := Ret (completion (PyStr "hi")) |}
  = Ret (PyStr "hi").
Proof.
  apply (proj1 (reply_content_shape
                  {| status_code := 200;
                     json := Ret (completion (PyStr "hi")) |})).
  by eexists _, _, _, _.
Defined.

Definition rotate km : state := fst (_rotate_groq_key km).

Lemma iter_rotate km (j : nat) :
  wf km -> groq_keys km <> [] ->
  Nat.iter j rotate km
  = set_index km ((current_groq_index km + j) mod length (groq_keys km)).
Proof.
  intros Hwf Hne.
  assert (Hc : current_groq_index km < length (groq_keys km)).
  { destruct Hwf as [_ [?|?]]; done. }
  induction j as [|j IH].
  - cbn. by rewrite Nat.add_0_r, Nat.mod_small, set_index_same.
  - rewrite Nat.iter_succ, IH. unfold rotate.
    rewrite rotate_nonempty by done.
    cbn [fst groq_keys current_groq_index set_index].
    rewrite Nat.Div0.add_mod_idemp_l. f_equal. f_equal. lia.
Qed.

(** X9. The cursor cycles with period exactly the pool size: on a
    well-formed state, rotating as many times as there are keys gives the
    state back, and fewer rotations (at least one) do not; every rotation
    leaves the state well formed. On an empty pool a rotation does
    nothing. *)
Theorem rotation_has_period_pool_size km :
  wf km ->
  Nat.iter (length (groq_keys km)) rotate km = km
  /\ (forall j, 0 < j < length (groq_keys km) -> Nat.iter j rotate km <> km)
  /\ (forall j, wf (Nat.iter j rotate km))
  /\ (groq_keys km = [] -> _rotate_groq_key km = (km, [])).
Proof.
  intros Hwf. split_and!.
  - destruct (decide (groq_keys km = [])) as [He|Hne]; [by rewrite He|].
    assert (Hc : current_groq_index km < length (groq_keys km)).
    { destruct Hwf as [_ [?|?]]; done. }
    rewrite iter_rotate by done.
    replace (current_groq_index km + length (groq_keys km))
      with (current_groq_index km + 1 * length (groq_keys km)) by lia.
    by rewrite Nat.Div0.mod_add, Nat.mod_small, set_index_same.
  - intros j Hj Heq.
    assert (Hne : groq_keys km <> []).
    { intros He. rewrite He in Hj. cbn in Hj. lia. }
    assert (Hc : current_groq_index km < length (groq_keys km)).
    { destruct Hwf as [_ [?|?]]; done. }
    rewrite iter_rotate in Heq by done.
    apply (f_equal current_groq_index) in Heq. cbn in Heq.
    destruct (decide (current_groq_index km + j < length (groq_keys km))).
    + rewrite Nat.mod_small in Heq; lia.
    + replace (current_groq_index km + j)
        with ((current_groq_index km + j - length (groq_keys km))
              + 1 * length (groq_keys km)) in Heq by lia.
      rewrite Nat.Div0.mod_add, Nat.mod_small in Heq; lia.
  - intros j. induction j as [|j IH]; [done|].
    rewrite Nat.iter_succ. by apply rotate_wf.
  - intros He. unfold _rotate_groq_key. by rewrite He.
Qed.

Lemma rotation_has_period_pool_size_witness :
  Nat.iter 2 rotate two_keys = two_keys.
Proof. exact (proj1 (rotation_has_period_pool_size two_keys (init_wf _))). Defined.

End GatewayMore.

(** ** Persona selection, continued *)

Section PersonasMore.

Import PersonaManager.

Variable str_lower : string -> string.

Lemma selections_length (ms : list string) ext :
  length (selections str_lower init_self ms (init_heap ++ ext))
  = length init_heap + length ext + length ms.
Proof.
  revert ext. induction ms as [|m ms IH]; intros ext.
  - cbn [selections]. rewrite length_app. cbn. lia.
  - cbn [selections].
    rewrite (select_persona_spec str_lower _ _ init_layout
               (slot_of "grandma" 1 0));
      [|apply models_mono, init_models|apply init_grandma].
    cbn [snd]. rewrite <- app_assoc, IH, length_app. cbn. lia.
Qed.

Lemma chosen_in_layout msg :
  chosen init_layout (slot_of "grandma" 1 0) msg ∈ init_layout.
Proof.
  unfold chosen. destruct (find _ init_layout) as [s|] eqn:Ef; cbn [default].
  - apply find_some in Ef as [Hin _]. by apply list_elem_of_In.
  - apply list_elem_of_here.
Qed.

(** X10. The dict a selection returns is a shallow copy. It is a new
    object (one object is allocated per selection, at the end of the
    heap), its name is the catalog entry's, and its [trigger_words] is the
    very list object of the catalog entry, not a copy of it: a change made
    through the returned dict to that list would reach the catalog. *)
Theorem selection_is_a_shallow_copy (earlier : list string) (message : string) :
  let h := selections str_lower init_self earlier init_heap in
  length h = length init_heap + length earlier
  /\ exists es' lc es lw ws,
       select_persona str_lower init_self message h
       = (Ret (VRef (length h)), h ++ [ODict es'])
       /\ lc < length init_heap /\ lw < length init_heap
       /\ h !! lc = Some (ODict es)
       /\ h !! lw = Some (OList ws)
       /\ assoc "trigger_words" es = Some (VRef lw)
       /\ assoc "trigger_words" es' = Some (VRef lw)
       /\ assoc "name" es' = assoc "name" es.
Proof.
  cbn zeta. split.
  - pose proof (selections_length earlier []) as H.
    rewrite app_nil_r in H. rewrite H. cbn. lia.
  - destruct (select_persona_after str_lower earlier message)
      as (ext & -> & Hsel & _).
    set (s := chosen init_layout (slot_of "grandma" 1 0) (str_lower message))
      in *.
    pose proof (models_mono _ ext _ _ init_models) as (_ & _ & _ & Hl).
    assert (Hin : s ∈ init_layout) by apply chosen_in_layout.
    rewrite Forall_forall in Hl. destruct (Hl s Hin) as [H1 H2].
    eexists _, (at_ s), _, (words_at s), _.
    split; [exact Hsel|]. split_and!; try done.
    + unfold init_layout in Hin. rewrite !elem_of_cons, elem_of_nil in Hin.
      destruct Hin as [->|[->|[->|[]]]]; cbn; lia.
    + unfold init_layout in Hin. rewrite !elem_of_cons, elem_of_nil in Hin.
      destruct Hin as [->|[->|[->|[]]]]; cbn; lia.
Qed.

Definition grandma_words : list string :=
  ["mam"; "madam"; "mother"; "auntie"; "mummy"; "old"].

Definition uncle_words : list string :=
  ["sir"; "mr"; "police"; "cbi"; "officer"; "inspector"; "arrest"; "block"].

Definition student_words : list string :=
  ["bro"; "dude"; "job"; "salary"; "earn"; "friend"; "yar"; "cash"; "lottery"].

(** X11. The decision table of the selection. With the message
    lower-cased: Grandma Edna is selected when one of her keywords occurs,
    and also when no keyword of any persona occurs; Uncle Sharma when none
    of the grandma's keywords but one of his occurs; Rahul when only one of
    his own occurs. The directive of the selected persona is its own
    followed by the language directive. *)
Theorem persona_decision_table (message : string) :
  let msg := str_lower message in
  let g := any_in grandma_words msg in
  let u := any_in uncle_words msg in
  let s := any_in student_words msg in
  exists P,
    selected str_lower message = Ret P
    /\ name P = (if g then "Grandma Edna"
                 else if u then "Uncle Sharma"
                 else if s then "Rahul" else "Grandma Edna")
    /\ system_prompt P
       = (if g then grandma_prompt
          else if u then uncle_prompt
          else if s then student_prompt else grandma_prompt)
         +:+ the_hinglish_directive
    /\ trigger_words P
       = (if g then grandma_words
          else if u then uncle_words
          else if s then student_words else grandma_words).
Proof.
  cbn zeta. eexists. split; [apply selected_first_match|].
  unfold first_match. rewrite <- init_layout_catalog.
  unfold init_layout. cbn [map find snd fst key value].
  change (matches (str_lower message) (value (slot_of "grandma" 1 0)))
    with (any_in grandma_words (str_lower message)).
  change (matches (str_lower message) (value (slot_of "uncle" 3 2)))
    with (any_in uncle_words (str_lower message)).
  change (matches (str_lower message) (value (slot_of "student" 5 4)))
    with (any_in student_words (str_lower message)).
  destruct (any_in grandma_words _); [by split_and!|].
  destruct (any_in uncle_words _); [by split_and!|].
  destruct (any_in student_words _); by split_and!.
Qed.

End PersonasMore.

(** ** The scan for a payment handle, continued *)

Section ScanMore.

Import Re Main.

(** X12. The scan finds nothing exactly when no piece of the text has the
    shape of a handle (2 to 256 identifier characters, [@], 2 to 64
    letters). *)
Theorem extract_upi_none_iff (text : string) :
  extract_upi text = None <->
  forall pre u post, text = pre +:+ u +:+ post -> ~ is_handle u.
Proof.
  split.
  - intros Hnone pre u post -> Hu.
    destruct (extract_upi_complete pre u post Hu) as [x Hx]. congruence.
  - intros Hno. destruct (extract_upi text) as [u|] eqn:E; [|done].
    apply search_sound in E as (Hg & pre & post & ->).
    exfalso. apply (Hno pre u post eq_refl). by apply upi_grammar.
Qed.

Lemma extract_upi_none_iff_witness :
  extract_upi "a@bc" = None /\ ~ is_handle "a@bc".
Proof.
  split; [reflexivity|].
  apply (proj1 (extract_upi_none_iff "a@bc") eq_refl
           EmptyString "a@bc" EmptyString).
  reflexivity.
Defined.

Lemma search_leftmost p (s u : string) :
  search p s = Some u ->
  exists pre post,
    s = pre +:+ u +:+ post
    /\ forall pre' u' post',
         s = pre' +:+ u' +:+ post' -> in_grammar p u' ->
         String.length pre <= String.length pre'.
Proof.
  revert u. induction s as [|a s IH]; intros u; cbn [search].
  - destruct (match_here p EmptyString) as [n|] eqn:E; [|done].
    intros [= <-]. exists EmptyString, (drop n EmptyString).
    split; [by rewrite app_empty, take_drop|]. intros; cbn; lia.
  - destruct (match_here p (String a s)) as [n|] eqn:E.
    + intros [= <-]. exists EmptyString, (drop n (String a s)).
      split; [by rewrite app_empty, take_drop|]. intros; cbn; lia.
    + intros H. destruct (IH u H) as (pre & post & -> & Hleft).
      exists (String a pre), post. split; [done|].
      intros pre' u' post' Heq Hu'. destruct pre' as [|a' pre'].
      * rewrite app_empty in Heq.
        destruct (match_here_complete p u' post' Hu') as [n Hn].
        rewrite <- Heq in Hn. congruence.
      * rewrite !app_cons in Heq. injection Heq as <- Heq.
        cbn. apply le_n_S. by eapply Hleft.
Qed.

(** X13. What the scan returns is the leftmost handle of the text: it is
    a piece of the text with the shape of a handle, between 5 and 321
    characters long, and no handle of the text begins before it. *)
Theorem extract_upi_is_leftmost (text u : string) :
  extract_upi text = Some u ->
  is_handle u
  /\ 5 <= String.length u <= 321
  /\ exists pre post,
       text = pre +:+ u +:+ post
       /\ forall pre' u' post',
            text = pre' +:+ u' +:+ post' -> is_handle u' ->
            String.length pre <= String.length pre'.
Proof.
  intros E. pose proof E as Hs. apply search_sound in Hs as [Hg _].
  apply upi_grammar in Hg. split; [done|]. split.
  - destruct Hg as (local & domain & -> & Hl & _ & Hd & _).
    rewrite !length_app_str. cbn. lia.
  - apply search_leftmost in E as (pre & post & -> & Hleft).
    exists pre, post. split; [done|].
    intros pre' u' post' Heq Hu'. eapply Hleft; [exact Heq|].
    by apply upi_grammar.
Qed.

Lemma extract_upi_is_leftmost_witness :
  is_handle "aa@bb" /\ 5 <= String.length "aa@bb" <= 321.
Proof.
  destruct (extract_upi_is_leftmost "first aa@bb then cc@dd" "aa@bb" eq_refl)
    as (H1 & H2 & _).
  split; [exact H1|exact H2].
Defined.

Lemma run_stops c (s : string) max :
  run c s max = max
  \/ match drop (run c s max) s with
     | EmptyString => True
     | String a _ => c a = false
     end.
Proof.
  revert s. induction max as [|m IH]; intros s; [destruct s; by left|].
  destruct s as [|a s]; [by right|]. cbn [run].
  destruct (c a) eqn:Ea; [|right; by cbn].
  destruct (IH s) as [->|H]; [by left|right]. exact H.
Qed.

Lemma drop_add j m (s : string) : drop (j + m) s = drop m (drop j s).
Proof.
  revert s. induction j as [|j IH]; intros s; [by destruct s|].
  destruct s as [|a s]; [by destruct m|]. apply IH.
Qed.

Lemma backtrack_last (s : string) l k n :
  backtrack (fun _ => Some 0) s l k = Some n -> n = k /\ l <= k.
Proof.
  destruct k as [|k]; cbn [backtrack].
  - destruct (0 <? l) eqn:E; [done|]. apply Nat.ltb_ge in E.
    intros [= <-]. split; lia.
  - destruct (S k <? l) eqn:E; [done|]. apply Nat.ltb_ge in E.
    intros [= <-]. split; lia.
Qed.

Lemma search_found p (s u : string) :
  search p s = Some u ->
  exists pre s' n,
    s = pre +:+ s' /\ match_here p s' = Some n /\ u = take n s'.
Proof.
  induction s as [|a s IH]; cbn [search].
  - destruct (match_here p EmptyString) as [n|] eqn:E; [|done].
    intros [= <-]. by exists EmptyString, EmptyString, n.
  - destruct (match_here p (String a s)) as [n|] eqn:E.
    + intros [= <-]. by exists EmptyString, (String a s), n.
    + intros H. destruct (IH H) as (pre & s' & n & -> & Hm & ->).
      by exists (String a pre), s', n.
Qed.

Lemma all_in_one c (w : string) :
  String.length w = 1 -> all_in (Ascii.eqb c) w = true ->
  w = String c EmptyString.
Proof.
  destruct w as [|a [|b w]]; cbn; try done; try lia.
  rewrite andb_true_r. by intros _ ->%Ascii.eqb_eq.
Qed.

(** X14. The scan is greedy on the right. The handle it returns splits
    into a local part, [@] and a domain such that the domain cannot be
    extended: either it has the full 64 letters, or the text ends after
    it, or the next character of the text is not a letter. *)
Theorem extract_upi_domain_is_maximal (text u : string) :
  extract_upi text = Some u ->
  exists pre local domain post,
    text = pre +:+ u +:+ post
    /\ u = local +:+ "@" +:+ domain
    /\ 2 <= String.length local <= 256
    /\ all_in ident_char local = true
    /\ 2 <= String.length domain <= 64
    /\ all_in letter domain = true
    /\ (String.length domain = 64
        \/ match post with
           | EmptyString => True
           | String c _ => letter c = false
           end).
Proof.
  intros E. apply search_found in E as (pre & s & n & -> & Hm & ->).
  unfold upi_pattern in Hm. cbn [match_here lo hi cls] in Hm.
  apply backtrack_sound in Hm as (j & n1 & Hj & Hm & ->).
  apply backtrack_sound in Hm as (j2 & n2 & Hj2 & Hm & ->).
  apply backtrack_last in Hm as [-> Hlo].
  destruct (run_spec ident_char s 256) as (Hr1 & Hr2 & Hr3).
  destruct (run_spec (Ascii.eqb "@") (drop j s) 1) as (Ha1 & Ha2 & Ha3).
  set (d := drop j2 (drop j s)) in *.
  destruct (run_spec letter d 64) as (Hd1 & Hd2 & Hd3).
  assert (j2 = 1) as Hj2' by lia.
  assert (Hlen : String.length s
                 = j + (j2 + String.length d)).
  { rewrite <- (take_drop j s) at 1. rewrite length_app_str, length_take by lia.
    f_equal. rewrite <- (take_drop j2 (drop j s)) at 1.
    rewrite length_app_str, length_take; [done|]. lia. }
  exists pre, (take j s), (take (run letter d 64) d), (drop (run letter d 64) d).
  assert (Hat : take j2 (drop j s) = "@").
  { apply all_in_one; [rewrite length_take; lia|].
    eapply all_in_take; [|exact Ha3]. lia. }
  assert (Hu : take (j + (j2 + run letter d 64)) s
               = take j s +:+ "@" +:+ take (run letter d 64) d).
  { rewrite take_add. f_equal. rewrite take_add. by rewrite Hat. }
  split_and!.
  - rewrite Hu. rewrite !app_assoc_str. do 2 f_equal.
    rewrite <- (take_drop j s) at 1. f_equal.
    rewrite <- (take_drop j2 (drop j s)) at 1. rewrite Hat. f_equal.
    fold d. by rewrite take_drop.
  - exact Hu.
  - rewrite length_take; lia.
  - rewrite length_take; lia.
  - eapply all_in_take; [|exact Hr3]. lia.
  - rewrite length_take; lia.
  - rewrite length_take; lia.
  - exact Hd3.
  - rewrite length_take by lia. apply run_stops.
Qed.

Lemma extract_upi_domain_is_maximal_witness :
  exists pre local domain post,
    "pay bob@upinow please" = pre +:+ "bob@upinow" +:+ post
    /\ "bob@upinow" = local +:+ "@" +:+ domain
    /\ 2 <= String.length local <= 256
    /\ all_in ident_char local = true
    /\ 2 <= String.length domain <= 64
    /\ all_in letter domain = true
    /\ (String.length domain = 64
        \/ match post with
           | EmptyString => True
           | String c _ => letter c = false
           end).
Proof.
  apply (extract_upi_domain_is_maximal "pay bob@upinow please" "bob@upinow").
  reflexivity.
Defined.

End ScanMore.

(** ** Redaction *)

Section Redaction.

Import Re Main.

Implicit Types (W : world) (text t : string) (results : list RecognizerResult).

Definition replace_span (t : string) (r : RecognizerResult) : string :=
  take (start r) t +:+ "<REDACTED>" +:+ drop (end_ r) t.

Lemma redact_pii_findings W analyze text r results :
  presidio_analyzer W = Some analyze ->
  analyze text = Ret (r :: results) ->
  redact_pii W text = foldl replace_span text (sorted_desc (r :: results)).
Proof. intros Ha Hr. unfold redact_pii. by rewrite Ha, Hr. Qed.

Lemma insert_desc_cons x l : exists y l', insert_desc x l = y :: l'.
Proof.
  destruct l as [|z l]; cbn [insert_desc]; [eexists _, _; reflexivity|].
  destruct (start x <? start z); eexists _, _; reflexivity.
Qed.

Lemma foldl_last_step {A B} (f : A -> B -> A) (a : A) (x : B) (l : list B) :
  exists a' y, foldl f a (x :: l) = f a' y.
Proof.
  revert a x. induction l as [|z l IH]; intros a x; [by exists a, x|].
  cbn [foldl]. apply (IH (f a x) z).
Qed.

Lemma replace_span_marked t r :
  is_substring "<REDACTED>" (replace_span t r) = true.
Proof. unfold replace_span. apply is_substring_app_r, is_substring_app_l. Qed.

(** X15. Redaction either leaves the text as it is or marks it. When the
    analyzer is absent, raises, or reports nothing, the text is returned
    unchanged; in every other case the result contains the marker
    [<REDACTED>]. *)
Theorem redact_pii_unchanged_or_marked W text :
  (unredacted W text /\ redact_pii W text = text)
  \/ (~ unredacted W text
      /\ is_substring "<REDACTED>" (redact_pii W text) = true).
Proof.
  unfold unredacted.
  destruct (presidio_analyzer W) as [analyze|] eqn:Ha;
    [|left; split; [done|]; unfold redact_pii; by rewrite Ha].
  destruct (analyze text) as [[|r results]|e] eqn:Hr;
    try (left; split; [done|]; unfold redact_pii; by rewrite Ha, Hr).
  right. split; [tauto|].
  rewrite (redact_pii_findings W analyze text r results Ha Hr).
  cbn [sorted_desc foldr].
  destruct (insert_desc_cons r (foldr insert_desc [] results)) as (y & l & ->).
  destruct (foldl_last_step replace_span text y l) as (t' & z & ->).
  apply replace_span_marked.
Qed.

Lemma insert_desc_Forall (Q : RecognizerResult -> Prop) x l :
  Q x -> Forall Q l -> Forall Q (insert_desc x l).
Proof.
  intros Hx Hl. induction Hl as [|y l Hy Hl IH]; cbn [insert_desc];
    [by repeat constructor|].
  destruct (start x <? start y); repeat constructor; done.
Qed.

Lemma sorted_desc_Forall (Q : RecognizerResult -> Prop) l :
  Forall Q l -> Forall Q (sorted_desc l).
Proof.
  induction 1 as [|x l Hx Hl IH]; [constructor|].
  cbn. by apply insert_desc_Forall.
Qed.

Lemma take_app_le k (a b : string) :
  k <= String.length a -> take k (a +:+ b) = take k a.
Proof.
  revert a. induction k as [|k IH]; intros a Hk; [by destruct a, b|].
  destruct a as [|c a]; cbn in Hk; [lia|].
  rewrite app_cons. cbn [take]. rewrite IH; [done|lia].
Qed.

Lemma take_take k n (t : string) : k <= n -> take k (take n t) = take k t.
Proof.
  revert n t. induction k as [|k IH]; intros n t Hk.
  - by destruct (take n t), t.
  - destruct n as [|n]; [lia|]. destruct t as [|c t]; [done|].
    cbn [take]. rewrite IH; [done|lia].
Qed.

Lemma length_take_min n (t : string) :
  String.length (take n t) = Nat.min n (String.length t).
Proof.
  revert t. induction n as [|n IH]; intros [|c t]; cbn; try done.
  by rewrite IH.
Qed.

Lemma replace_span_prefix k t r :
  k <= start r -> k <= String.length t ->
  take k (replace_span t r) = take k t /\ k <= String.length (replace_span t r).
Proof.
  intros Hk Hl. unfold replace_span.
  assert (Hlt : k <= String.length (take (start r) t)).
  { rewrite length_take_min. lia. }
  split.
  - rewrite take_app_le by done. by apply take_take.
  - rewrite length_app_str. lia.
Qed.

(** X16. Redaction does not touch what precedes the first finding: the
    first [k] characters of the text are kept whenever every finding
    starts at position [k] or later. *)
Theorem redact_pii_keeps_prefix W analyze text results (k : nat) :
  presidio_analyzer W = Some analyze ->
  analyze text = Ret results ->
  Forall (fun r => k <= start r) results ->
  k <= String.length text ->
  take k (redact_pii W text) = take k text.
Proof.
  intros Ha Hr Hall Hk. destruct results as [|r results].
  { unfold redact_pii. by rewrite Ha, Hr. }
  rewrite (redact_pii_findings W analyze text r results Ha Hr).
  apply sorted_desc_Forall in Hall.
  assert (Hgen : forall l t,
             Forall (fun r => k <= start r) l ->
             take k t = take k text -> k <= String.length t ->
             take k (foldl replace_span t l) = take k text).
  { clear. intros l. induction l as [|x l IH]; intros t Hl Ht Hlen; [done|].
    apply Forall_cons in Hl as [Hx Hl]. cbn [foldl].
    destruct (replace_span_prefix k t x Hx Hlen) as [H1 H2].
    apply IH; [done| |done]. by rewrite H1. }
  by apply Hgen.
Qed.

Lemma redact_pii_keeps_prefix_witness :
  take 5
    (redact_pii
       {| presidio_analyzer :=
            Some (fun _ => Ret [ {| start := 5; end_ := 15 |};
                                 {| start := 19; end_ := 28 |} ]);
          ml_models := None; uuid_hex8 := "00000001";
          llm := says "ok";
          process_audio := fun _ => EmptyString;
          process_image := fun _ => EmptyString;
          file_exists := fun _ => false |}
       "call 9876543210 or a@mail.in now")
  = take 5 "call 9876543210 or a@mail.in now".
Proof.
  eapply (redact_pii_keeps_prefix _ _ _ _ 5).
  - reflexivity.
  - reflexivity.
  - repeat constructor.
  - cbn. lia.
Defined.

Lemma insert_desc_comm x y l :
  start x <> start y ->
  insert_desc x (insert_desc y l) = insert_desc y (insert_desc x l).
Proof.
  intros Hxy. induction l as [|z l IH].
  - cbn [insert_desc].
    destruct (start x <? start y) eqn:E1, (start y <? start x) eqn:E2;
      try done.
    + apply Nat.ltb_lt in E1, E2. lia.
    + apply Nat.ltb_ge in E1, E2. lia.
  - cbn [insert_desc].
    destruct (start y <? start z) eqn:Ey, (start x <? start z) eqn:Ex;
      cbn [insert_desc]; rewrite ?Ey, ?Ex.
    + by rewrite IH.
    + destruct (start y <? start x) eqn:E; [done|].
      apply Nat.ltb_lt in Ey. apply Nat.ltb_ge in Ex, E. lia.
    + destruct (start x <? start y) eqn:E; [done|].
      apply Nat.ltb_lt in Ex. apply Nat.ltb_ge in Ey, E. lia.
    + destruct (start x <? start y) eqn:E1, (start y <? start x) eqn:E2;
        try done.
      * apply Nat.ltb_lt in E1, E2. lia.
      * apply Nat.ltb_ge in E1, E2. lia.
Qed.

Lemma sorted_desc_perm l1 l2 :
  l1 ≡ₚ l2 -> NoDup (map start l1) -> sorted_desc l1 = sorted_desc l2.
Proof.
  unfold sorted_desc.
  induction 1 as [|x l1 l2 Hp IH|x y l|l1 l2 l3 Hp1 IH1 Hp2 IH2];
    intros Hnd.
  - done.
  - cbn [foldr]. cbn in Hnd. apply NoDup_cons in Hnd as [_ Hnd].
    by rewrite IH.
  - cbn [foldr]. cbn in Hnd. apply NoDup_cons in Hnd as [Hy _].
    apply insert_desc_comm. intros Heq. apply Hy. rewrite Heq.
    apply list_elem_of_here.
  - rewrite IH1 by done. apply IH2.
    assert (Hm : map start l1 ≡ₚ map start l2) by (by apply Permutation_map).
    by rewrite <- Hm.
Qed.

(** X17. The order in which the analyzer reports its findings does not
    matter: two analyzers that report the same findings, with pairwise
    different start positions, in different orders, give the same redacted
    text. *)
Theorem redact_pii_order_independent W1 W2 a1 a2 text results1 results2 :
  presidio_analyzer W1 = Some a1 -> presidio_analyzer W2 = Some a2 ->
  a1 text = Ret results1 -> a2 text = Ret results2 ->
  results1 ≡ₚ results2 ->
  NoDup (map start results1) ->
  redact_pii W1 text = redact_pii W2 text.
Proof.
  intros H1 H2 Hr1 Hr2 Hp Hnd. unfold redact_pii.
  rewrite H1, H2, Hr1, Hr2.
  destruct results1 as [|r1 l1], results2 as [|r2 l2]; try done.
  - by apply Permutation_nil_cons in Hp.
  - symmetry in Hp. by apply Permutation_nil_cons in Hp.
  - by rewrite (sorted_desc_perm _ _ Hp Hnd).
Qed.

Definition reports (results : list RecognizerResult) : world :=
  {| presidio_analyzer := Some (fun _ => Ret results);
     ml_models := None; uuid_hex8 := "00000001"; llm := says "ok";
     process_audio := fun _ => EmptyString;
     process_image := fun _ => EmptyString;
     file_exists := fun _ => false |}.

Lemma redact_pii_order_independent_witness :
  redact_pii (reports [ {| start := 5; end_ := 15 |};
                        {| start := 19; end_ := 28 |} ])
    "call 9876543210 or a@mail.in now"
  = redact_pii (reports [ {| start := 19; end_ := 28 |};
                          {| start := 5; end_ := 15 |} ])
      "call 9876543210 or a@mail.in now".
Proof.
  eapply (redact_pii_order_independent
            (reports [ {| start := 5; end_ := 15 |};
                       {| start := 19; end_ := 28 |} ])
            (reports [ {| start := 19; end_ := 28 |};
                       {| start := 5; end_ := 15 |} ])
            _ _ _ _ _ eq_refl eq_refl eq_refl eq_refl).
  - apply Permutation_swap.
  - apply (bool_decide_unpack _). vm_compute. exact I.
Defined.

End Redaction.

(** ** The session store under all endpoints *)

Section Store.

Import Main.

Variable str_lower : string -> string.

Implicit Types (W : world) (req : ChatRequest) (a : app) (s : Session).

(** The requests that change or read the store. *)
Inductive request : Type :=
| Chat (W : world) (req : ChatRequest)
| Upload (W : world) (sid : string) (f : UploadFile)
| Fetch (W : world) (filename visitor_ip : string) (user_agent : option string)
| Report (sid : string).

(** The store after a request. *)
Definition serve (q : request) (a : app) : app :=
  match q with
  | Chat W req => after str_lower W req a
  | Upload W sid f => snd (upload_media W sid f a)
  | Fetch W filename visitor_ip user_agent =>
      snd (get_proof W filename visitor_ip user_agent a)
  | Report _ => a
  end.

Definition serve_all (qs : list request) (a : app) : app :=
  foldl (fun a q => serve q a) a qs.

(** X18. With a well-formed key manager and providers that answer with
    text whenever they answer, a chat request does not fail: it returns a
    string, that string is the content of the assistant turn that ends
    the transcript, and the key manager stays well formed. *)
Theorem chat_endpoint_replies_text W req a :
  KeyManager.wf (key_manager a) ->
  text_replies (llm W) ->
  exists (reply : string) s',
    fst (fst (chat_endpoint str_lower W req a)) = Ret (PyStr reply)
    /\ sessions (after str_lower W req a) !! session_id req = Some s'
    /\ last (history s')
       = Some {| role := assistant; content := PyStr reply |}
    /\ KeyManager.wf (key_manager (after str_lower W req a)).
Proof.
  intros Hwf Htext.
  destruct (chat_endpoint_effect str_lower W req a)
    as (s1 & img & ev1 & Eb & H).
  destruct (chat_completion_text (llm W) (history s1) (key_manager a) Hwf Htext)
    as (s0 & Hs0).
  destruct (chat_completion_never_raises (llm W) (history s1) (key_manager a)
              Hwf) as (v & _ & Hwf').
  unfold after.
  destruct (chat_endpoint str_lower W req a) as [[res a'] tr].
  destruct (KeyManager.chat_completion _ _ _) as [[r km] ev2].
  cbn [fst snd] in *. subst r.
  destruct H as (_ & Hkm & Hres & _ & _ & s' & Hs' & _ & _ & _ & _ & Hh).
  assert (Hr : exists reply, res = Ret (PyStr reply)).
  { rewrite Hres. cbn [bind]. unfold with_attachment.
    destruct (truthy img); [|by eexists]. cbn [contains bind].
    destruct (negb _); cbn [iadd]; by eexists. }
  destruct Hr as [reply ->]. exists reply, s'. split_and!; try done.
  - rewrite Hh. apply last_snoc.
  - by rewrite Hkm.
Qed.

(** Whether a request concerns the session [sid]: a chat or an upload
    for that id, or the fetch of a file that one of its traps names. *)
Definition concerns (q : request) a (sid : string) : bool :=
  match q with
  | Chat _ req => String.eqb (session_id req) sid
  | Upload _ sid' _ => String.eqb sid' sid
  | Fetch _ filename _ _ =>
      match sessions a !! sid with
      | Some s =>
          existsb (fun t => String.eqb (file t) filename) (traps_triggered s)
      | None => false
      end
  | Report _ => false
  end.

Lemma upload_media_sessions W sid f a sid' :
  sessions (snd (upload_media W sid f a)) !! sid'
  = if decide (sid = sid')
    then (fun s => append_turn s system
                     (PyStr ("[System Observation]: User sent a file. Analysis: "
                             +:+ media_description W f)))
         <$> sessions a !! sid'
    else sessions a !! sid'.
Proof.
  unfold upload_media. destruct (sessions a !! sid) as [s|] eqn:E; cbn [snd sessions].
  - destruct (decide (sid = sid')) as [<-|Hne].
    + by rewrite lookup_insert_eq, E.
    + by rewrite lookup_insert_ne.
  - destruct (decide (sid = sid')) as [<-|Hne]; [by rewrite E|done].
Qed.

Definition visit (visitor_ip : string) (user_agent : option string) : Visit :=
  {| ip := visitor_ip; ua := user_agent; timestamp := "now" |}.

Lemma get_proof_sessions W filename visitor_ip user_agent a sid :
  sessions (snd (get_proof W filename visitor_ip user_agent a)) !! sid
  = (fun s =>
       if existsb (fun t => String.eqb (file t) filename) (traps_triggered s)
       then set_ip_log s (ip_log s ++ [visit visitor_ip user_agent])
       else s) <$> sessions a !! sid.
Proof.
  unfold get_proof. destruct (file_exists W filename); cbn [snd sessions];
    by rewrite lookup_fmap.
Qed.

(** X19. The store is partitioned by session id. A request changes no
    session that it does not concern, and it is only a chat request for an
    id that brings a session with that id into being: uploads, fetches and
    reports never create one. *)
Theorem requests_touch_only_their_session (q : request) a (sid : string) :
  (concerns q a sid = false ->
   sessions (serve q a) !! sid = sessions a !! sid)
  /\ (sessions a !! sid = None ->
      is_Some (sessions (serve q a) !! sid) ->
      exists W req, q = Chat W req /\ session_id req = sid).
Proof.
  split.
  - destruct q as [W req|W sid' f|W filename vip vua|sid']; cbn [concerns serve].
    + intros Hne%String.eqb_neq. apply other_session_kept. congruence.
    + intros Hne%String.eqb_neq. rewrite upload_media_sessions.
      by destruct (decide (sid' = sid)).
    + intros Hc. rewrite get_proof_sessions.
      destruct (sessions a !! sid) as [s|]; [|done]. cbn. by rewrite Hc.
    + done.
  - intros Hnone Hsome.
    destruct q as [W req|W sid' f|W filename vip vua|sid']; cbn [serve] in Hsome.
    + exists W, req. split; [done|].
      destruct (decide (session_id req = sid)) as [|Hne]; [done|].
      rewrite other_session_kept, Hnone in Hsome by congruence.
      by destruct Hsome.
    + rewrite upload_media_sessions, Hnone in Hsome.
      destruct (decide (sid' = sid)); by destruct Hsome.
    + rewrite get_proof_sessions, Hnone in Hsome. by destruct Hsome.
    + rewrite Hnone in Hsome. by destruct Hsome.
Qed.

(** One request on an existing session: it is still there, with the
    persona it had, and its lists have only grown at the end. *)
Lemma serve_grows (q : request) a (sid : string) s :
  sessions a !! sid = Some s ->
  exists s',
    sessions (serve q a) !! sid = Some s'
    /\ persona s' = persona s
    /\ history s `prefix_of` history s'
    /\ traps_triggered s `prefix_of` traps_triggered s'
    /\ ip_log s `prefix_of` ip_log s'.
Proof.
  intros Hs.
  destruct q as [W req|W sid' f|W filename vip vua|sid']; cbn [serve].
  - destruct (decide (session_id req = sid)) as [<-|Hne].
    + destruct (chat_endpoint_effect str_lower W req a)
        as (s1 & img & ev1 & Eb & H).
      destruct (before_reply_spec str_lower W (message req)
                  (current_session str_lower req a))
        as (s1' & img' & ev1' & Eb' & _ & Hp & Hi & Ht).
      rewrite Eb in Eb'. injection Eb' as <- <- <-.
      assert (Hcur : current_session str_lower req a = s).
      { unfold current_session. by rewrite Hs. }
      rewrite Hcur in *. unfold after.
      destruct (chat_endpoint str_lower W req a) as [[res a'] tr].
      destruct (KeyManager.chat_completion _ _ _) as [[r km] ev2].
      destruct H as (_ & _ & _ & _ & _ & s' & Hs' & _ & Htr & Hp' & Hi' & Hh).
      exists s'. cbn [fst snd]. split_and!; try done.
      * congruence.
      * rewrite Hh. destruct (triggers str_lower W (message req));
          destruct Ht as (_ & _ & _ & ->); rewrite <- app_assoc;
          by apply prefix_app_r.
      * rewrite Htr. destruct (triggers str_lower W (message req)).
        -- destruct Ht as (_ & _ & -> & _). by apply prefix_app_r.
        -- by destruct Ht as (_ & _ & -> & _).
      * by rewrite Hi', Hi.
    + exists s. by rewrite other_session_kept, Hs by congruence.
  - rewrite upload_media_sessions, Hs. destruct (decide (sid' = sid)).
    + eexists. split; [reflexivity|]. cbn. split_and!; try done.
      by apply prefix_app_r.
    + by exists s.
  - rewrite get_proof_sessions, Hs. cbn.
    destruct (existsb _ _); eexists; (split; [reflexivity|]); cbn;
      split_and!; try done. by apply prefix_app_r.
  - by exists s.
Qed.

(** X20. Sessions are never removed and only grow. Through any sequence of
    requests, a session that exists stays, keeps the persona it was
    created with, and its transcript, its trap list and its visitor log
    are extended at the end only: nothing already recorded is dropped or
    rewritten. *)
Theorem sessions_only_grow (qs : list request) a (sid : string) s :
  sessions a !! sid = Some s ->
  exists s',
    sessions (serve_all qs a) !! sid = Some s'
    /\ persona s' = persona s
    /\ history s `prefix_of` history s'
    /\ traps_triggered s `prefix_of` traps_triggered s'
    /\ ip_log s `prefix_of` ip_log s'.
Proof.
  revert a s. induction qs as [|q qs IH]; intros a s Hs.
  - by exists s.
  - destruct (serve_grows q a sid s Hs) as (s1 & Hs1 & Hp1 & Hh1 & Ht1 & Hi1).
    destruct (IH _ _ Hs1) as (s2 & Hs2 & Hp2 & Hh2 & Ht2 & Hi2).
    exists s2. cbn [serve_all foldl]. split_and!; try done.
    + congruence.
    + by etransitivity.
    + by etransitivity.
    + by etransitivity.
Qed.

(** What every stored session satisfies. *)
Definition directive_turn (t : Trap) : Turn :=
  {| role := system; content := PyStr (directive ("/proof/" +:+ file t)) |}.

Record session_ok s : Prop := {
  ok_persona : exists m, persona s = first_match str_lower m;
  ok_first_turn :
    exists rest,
      history s
      = {| role := system;
           content := PyStr (PersonaManager.system_prompt (persona s)) |}
        :: rest;
  ok_handle : forall u, extracted_upi s = Some u -> is_handle u;
  ok_traps :
    Forall (fun t => trap_type t = "fake_proof"
                     /\ trap_timestamp t = "now"
                     /\ directive_turn t ∈ history s) (traps_triggered s);
  ok_turns :
    Forall (fun t => role t <> assistant -> is_str (content t) = true)
           (history s)
}.

Definition app_ok a : Prop :=
  KeyManager.wf (key_manager a)
  /\ forall sid s, sessions a !! sid = Some s -> session_ok s.

Lemma new_session_ok m : session_ok (new_session (first_match str_lower m)).
Proof.
  constructor; cbn.
  - by exists m.
  - by eexists.
  - done.
  - constructor.
  - by repeat constructor.
Qed.

Lemma current_session_ok req a :
  app_ok a -> session_ok (current_session str_lower req a).
Proof.
  intros [_ Hok]. unfold current_session.
  destruct (sessions a !! session_id req) as [s|] eqn:E; [by eapply Hok|].
  apply new_session_ok.
Qed.

Lemma traps_ok_mono (h h' : list Turn) (ts : list Trap) :
  h `prefix_of` h' ->
  Forall (fun t => trap_type t = "fake_proof" /\ trap_timestamp t = "now"
                   /\ directive_turn t ∈ h) ts ->
  Forall (fun t => trap_type t = "fake_proof" /\ trap_timestamp t = "now"
                   /\ directive_turn t ∈ h') ts.
Proof.
  intros [k ->] H. eapply Forall_impl; [exact H|].
  intros t (? & ? & ?). split_and!; try done. apply elem_of_app. by left.
Qed.

Lemma chat_keeps_session_ok W req a s' :
  app_ok a ->
  sessions (after str_lower W req a) !! session_id req = Some s' ->
  session_ok s'.
Proof.
  intros Hok Hs'.
  pose proof (current_session_ok req a Hok) as [Hp0 [rest Hf0] Hh0 Ht0 Hu0].
  destruct (chat_endpoint_effect str_lower W req a)
    as (s1 & img & ev1 & Eb & H).
  destruct (before_reply_spec str_lower W (message req)
              (current_session str_lower req a))
    as (s1' & img' & ev1' & Eb' & Hupi & Hp & Hi & Ht).
  rewrite Eb in Eb'. injection Eb' as <- <- <-.
  unfold after in Hs'.
  destruct (chat_endpoint str_lower W req a) as [[res a'] tr].
  destruct (KeyManager.chat_completion _ _ _) as [[r km] ev2].
  destruct H as (_ & _ & _ & _ & _ & s'' & Hs'' & Hup' & Htr' & Hp' & _ & Hh').
  cbn [fst snd] in Hs'. rewrite Hs'' in Hs'. injection Hs' as <-.
  set (s0 := current_session str_lower req a) in *.
  assert (Hpre : history s0 `prefix_of` history s'').
  { rewrite Hh'. destruct (triggers str_lower W (message req));
      destruct Ht as (_ & _ & _ & ->); rewrite <- app_assoc;
      by apply prefix_app_r. }
  constructor.
  - rewrite Hp', Hp. exact Hp0.
  - destruct Hpre as [k Hk]. rewrite Hk, Hf0, Hp', Hp. by eexists.
  - intros u. rewrite Hup', Hupi.
    destruct (extract_upi (redact_pii W (message req))) as [u'|] eqn:E.
    + intros [= <-]. apply search_sound in E as [E _]. by apply upi_grammar.
    + apply Hh0.
  - rewrite Htr'. destruct (triggers str_lower W (message req)).
    + destruct Ht as (_ & _ & -> & Hh1). apply Forall_app. split.
      * by apply (traps_ok_mono (history s0)).
      * repeat constructor. rewrite Hh', Hh1.
        apply elem_of_app. left. apply elem_of_app. right.
        apply list_elem_of_further, list_elem_of_here.
    + destruct Ht as (_ & _ & -> & _). by apply (traps_ok_mono (history s0)).
  - rewrite Hh'. apply Forall_app. split.
    + destruct (triggers str_lower W (message req));
        destruct Ht as (_ & _ & _ & ->); apply Forall_app;
        (split; [done|by repeat constructor]).
    + destruct res; by repeat constructor.
Qed.

Lemma chat_keeps_wf W req a :
  KeyManager.wf (key_manager a) ->
  KeyManager.wf (key_manager (after str_lower W req a)).
Proof.
  intros Hwf.
  destruct (chat_endpoint_effect str_lower W req a)
    as (s1 & img & ev1 & Eb & H).
  destruct (chat_completion_never_raises (llm W) (history s1) (key_manager a)
              Hwf) as (v & _ & Hwf').
  unfold after.
  destruct (chat_endpoint str_lower W req a) as [[res a'] tr].
  destruct (KeyManager.chat_completion _ _ _) as [[r km] ev2].
  destruct H as (_ & Hk & _). cbn [fst snd] in *. by rewrite Hk.
Qed.

Lemma upload_key_manager W sid f a :
  key_manager (snd (upload_media W sid f a)) = key_manager a.
Proof. unfold upload_media. by destruct (sessions a !! sid). Qed.

Lemma get_proof_key_manager W filename vip vua a :
  key_manager (snd (get_proof W filename vip vua a)) = key_manager a.
Proof. unfold get_proof. by destruct (file_exists W filename). Qed.

Lemma serve_keeps_ok (q : request) a : app_ok a -> app_ok (serve q a).
Proof.
  intros Hok. pose proof Hok as [Hwf Hss].
  destruct q as [W req|W sid' f|W filename vip vua|sid']; cbn [serve].
  - split; [by apply chat_keeps_wf|]. intros sid s Hs.
    destruct (decide (sid = session_id req)) as [->|Hne].
    + by eapply chat_keeps_session_ok.
    + rewrite other_session_kept in Hs by done. by eapply Hss.
  - split; [by rewrite upload_key_manager|]. intros sid s.
    rewrite upload_media_sessions. destruct (decide (sid' = sid)); [|apply Hss].
    destruct (sessions a !! sid) as [s0|] eqn:E; [|done].
    intros [= <-]. destruct (Hss sid s0 E) as [Hp [rest Hf] Hh Ht Hu].
    constructor; cbn.
    + done.
    + rewrite Hf. by eexists.
    + done.
    + eapply traps_ok_mono; [|exact Ht]. by apply prefix_app_r.
    + apply Forall_app. split; [done|by repeat constructor].
  - split; [by rewrite get_proof_key_manager|]. intros sid s.
    rewrite get_proof_sessions.
    destruct (sessions a !! sid) as [s0|] eqn:E; [|done].
    cbn. intros [= <-]. destruct (Hss sid s0 E) as [Hp Hf Hh Ht Hu].
    destruct (existsb _ _); [|done]. by constructor.
  - done.
Qed.

(** The store of a process that has just started. *)
Definition start (getenv : string -> option string) : app :=
  {| sessions := ∅; key_manager := KeyManager.init getenv |}.

(** X21. Invariants of the running service. Whatever the environment and
    whatever requests were served since the start: the key manager is well
    formed, and every session begins its transcript with the system turn
    that carries the directive of its persona, which is a persona of the
    catalog with the language directive appended; its stored handle, if
    any, has the shape of a handle; every trap recorded is a [fake_proof]
    whose directive turn is in the transcript; and every turn other than
    an assistant turn holds a string. *)
Theorem service_invariants (getenv : string -> option string)
    (qs : list request) :
  app_ok (serve_all qs (start getenv)).
Proof.
  assert (H0 : app_ok (start getenv)).
  { split; [apply init_wf|]. intros sid s. cbn. by rewrite lookup_empty. }
  revert H0. generalize (start getenv).
  induction qs as [|q qs IH]; intros a Hok; [done|].
  cbn [serve_all foldl]. by apply IH, serve_keeps_ok.
Qed.

(** X22. Fetching a proof file. Every stored session stays stored, and is
    left as it was but for its visit log: the visit is appended, once,
    when one or more of the session's traps name the file, and nothing is
    appended otherwise. This holds in every session at once, and whether
    or not the file exists; the file decides only between the answer and
    the 404. *)
Theorem get_proof_logs_the_visit W (filename visitor_ip : string)
    (user_agent : option string) a sid s :
  sessions a !! sid = Some s ->
  exists s',
    sessions (snd (get_proof W filename visitor_ip user_agent a)) !! sid
    = Some s'
    /\ ip_log s'
       = ip_log s
         ++ (if bool_decide (filename ∈ file <$> traps_triggered s)
             then [visit visitor_ip user_agent] else [])
    /\ history s' = history s
    /\ traps_triggered s' = traps_triggered s
    /\ persona s' = persona s
    /\ extracted_upi s' = extracted_upi s
    /\ last_classification s' = last_classification s
    /\ fst (get_proof W filename visitor_ip user_agent a)
       = if file_exists W filename then Ret ("static/" +:+ filename)
         else Raise (HTTPException 404 "File not found").
Proof.
  intros Hs. rewrite get_proof_sessions, Hs. cbn [fmap option_fmap option_map].
  eexists. split; [reflexivity|].
  assert (E : existsb (fun t => String.eqb (file t) filename)
                (traps_triggered s)
              = bool_decide (filename ∈ file <$> traps_triggered s)).
  { induction (traps_triggered s) as [|t ts IH]; [done|].
    cbn [existsb fmap list_fmap]. rewrite IH.
    destruct (String.eqb_spec (file t) filename) as [<-|Hne]; cbn [orb].
    - symmetry. apply bool_decide_eq_true. apply list_elem_of_here.
    - apply bool_decide_ext. split; [apply list_elem_of_further|].
      intros [?|?]%elem_of_cons; [by subst|done]. }
  rewrite E. split_and!.
  - destruct (bool_decide _); cbn; [done|by rewrite app_nil_r].
  - by destruct (bool_decide _).
  - by destruct (bool_decide _).
  - by destruct (bool_decide _).
  - by destruct (bool_decide _).
  - by destruct (bool_decide _).
  - unfold get_proof. by destruct (file_exists W filename).
Qed.

(** X23. From the bait to the report. When a chat message triggers the
    trap, and the generated file is then fetched by a visitor, the report
    of that session ends its list of traps with the record of that file
    and ends its visit log with that visitor, whether the chat request
    returned or raised and whether or not the file is there to be served. *)
Theorem trap_visit_reaches_report W W' req a (visitor_ip : string)
    (user_agent : option string) :
  triggers str_lower W (message req) = true ->
  exists rep,
    get_report (session_id req)
      (snd (get_proof W' ("proof_" +:+ uuid_hex8 W +:+ ".png")
              visitor_ip user_agent (after str_lower W req a)))
    = Ret rep
    /\ last (traps_deployed rep) = Some (trap_record W)
    /\ last (scammer_ip_logs rep) = Some (visit visitor_ip user_agent)
    /\ persona_used rep
       = PersonaManager.name (persona (current_session str_lower req a)).
Proof.
  intros Htrig.
  pose proof (traps_step str_lower W req a) as Ht. rewrite Htrig in Ht.
  destruct (chat_endpoint_effect str_lower W req a)
    as (s1 & img & ev1 & Eb & H).
  destruct (before_reply_spec str_lower W (message req)
              (current_session str_lower req a))
    as (s1' & img' & ev1' & Eb' & _ & Hp & _).
  rewrite Eb in Eb'. injection Eb' as <- <- <-.
  unfold after in *.
  destruct (chat_endpoint str_lower W req a) as [[res a'] tr].
  destruct (KeyManager.chat_completion _ _ _) as [[r km] ev2].
  destruct H as (_ & _ & _ & _ & _ & s' & Hs' & _ & _ & Hp' & _).
  cbn [fst snd] in *. unfold traps_of in Ht at 1. rewrite Hs' in Ht.
  unfold get_report. rewrite get_proof_sessions, Hs'.
  cbn [fmap option_fmap option_map].
  assert (E : existsb
                (fun t => String.eqb (file t)
                            ("proof_" +:+ uuid_hex8 W +:+ ".png"))
                (traps_triggered s') = true).
  { rewrite Ht. rewrite existsb_app. apply orb_true_iff. right.
    cbn [existsb trap_record file]. by rewrite String.eqb_refl. }
  rewrite E. eexists. split; [reflexivity|]. cbn. split_and!.
  - rewrite Ht. apply last_snoc.
  - apply last_snoc.
  - by rewrite Hp', Hp.
Qed.

(** The session with its classification forgotten. *)
Definition unclassified (s : Session) : Session :=
  set_last_classification s None.

(** The world with the classifier not loaded. *)
Definition without_classifier (W : world) : world :=
  {| presidio_analyzer := presidio_analyzer W;
     ml_models := None;
     uuid_hex8 := uuid_hex8 W;
     llm := llm W;
     process_audio := process_audio W;
     process_image := process_image W;
     file_exists := file_exists W |}.

Lemma before_reply_unclassified W user_msg s :
  let '(s1, img, ev) := before_reply str_lower W user_msg s in
  let '(s2, img', ev') :=
    before_reply str_lower (without_classifier W) user_msg s in
  unclassified s1 = unclassified s2 /\ history s1 = history s2
  /\ img = img' /\ ev = ev'.
Proof.
  unfold before_reply, classify, redact_pii. cbn [without_classifier
    presidio_analyzer ml_models uuid_hex8 generate_payment_proof].
  set (safe := match presidio_analyzer W with
               | Some _ => _ | None => _ end).
  destruct (ml_models W) as [predict|]; [|by destruct (any_in _ _)].
  destruct (predict safe) as [c|e]; destruct (any_in _ _);
    destruct (truthy (extract_upi safe)); done.
Qed.

(** X24. The classifier is an observer. Whether the classifier is loaded,
    what it predicts, and whether it raises, has no effect on a chat
    request other than on the stored [last_classification]: the answer or
    exception, the requests sent to the providers and the renderer, the
    key manager, and every session with its classification left out are
    those of the same request served without a classifier. *)
Theorem classifier_only_observes W req a :
  fst (fst (chat_endpoint str_lower W req a))
  = fst (fst (chat_endpoint str_lower (without_classifier W) req a))
  /\ snd (chat_endpoint str_lower W req a)
     = snd (chat_endpoint str_lower (without_classifier W) req a)
  /\ key_manager (after str_lower W req a)
     = key_manager (after str_lower (without_classifier W) req a)
  /\ unclassified <$> sessions (after str_lower W req a)
     = unclassified <$>
         sessions (after str_lower (without_classifier W) req a).
Proof.
  unfold after, chat_endpoint.
  rewrite open_session_current.
  pose proof (before_reply_unclassified W (message req)
                (current_session str_lower req a)) as H.
  destruct (before_reply str_lower W _ _) as [[s1 img] ev].
  destruct (before_reply str_lower (without_classifier W) _ _)
    as [[s2 img'] ev'].
  destruct H as (Hu & Hh & <- & <-). rewrite <- Hh.
  change (llm (without_classifier W)) with (llm W).
  destruct (KeyManager.chat_completion _ _ _) as [[r km] ev2].
  destruct (bind r (with_attachment img)) as [v|e]; cbn [fst snd sessions
    key_manager]; split_and!; try done;
    rewrite !fmap_insert; f_equal;
    unfold unclassified, append_turn, set_history, set_last_classification
      in *; cbn in *; congruence.
Qed.
End Store.

(** *** The properties of the store at concrete requests *)


Lemma says_text_replies (reply : string) : text_replies (says reply).
Proof. split; intros *; cbn; by intros [= <-]. Qed.

(** A store with one session, opened by a greeting. *)
Definition one_session : Main.app :=
  {| Main.sessions := {[ "s1" := Main.new_session (first_match ascii_lower "hello") ]};
     Main.key_manager := two_keys |}.

Definition voice_note : Main.UploadFile :=
  {| Main.file_bytes := "riff"; Main.content_type := Some "audio/wav" |}.

Lemma chat_endpoint_replies_text_witness :
  let W := plain_world "00000001" (says "Hello beta") in
  let req := chat_req "s1" "hello sir" in
  exists (reply : string) s',
    fst (fst (Main.chat_endpoint ascii_lower W req fresh_app)) = Ret (PyStr reply)
    /\ Main.sessions (after ascii_lower W req fresh_app) !! Main.session_id req = Some s'
    /\ last (Main.history s')
       = Some {| role := assistant; content := PyStr reply |}
    /\ KeyManager.wf (Main.key_manager (after ascii_lower W req fresh_app)).
Proof.
  apply (chat_endpoint_replies_text ascii_lower
           (plain_world "00000001" (says "Hello beta"))
           (chat_req "s1" "hello sir") fresh_app).
  - apply init_wf.
  - apply says_text_replies.
Defined.

Lemma requests_touch_only_their_session_witness :
  Main.sessions (serve ascii_lower
              (Upload (plain_world "00000001" (says "ok")) "s2" voice_note)
              one_session) !! "s1"
  = Main.sessions one_session !! "s1".
Proof.
  apply (proj1 (requests_touch_only_their_session ascii_lower
                  (Upload (plain_world "00000001" (says "ok")) "s2"
                     voice_note)
                  one_session "s1")).
  reflexivity.
Defined.

Lemma sessions_only_grow_witness :
  let W := plain_world "00000001" (says "ok") in
  let s := Main.new_session (first_match ascii_lower "hello") in
  exists s',
    Main.sessions (serve_all ascii_lower
                [Chat W (chat_req "s1" "send the screenshot");
                 Upload W "s1" voice_note;
                 Fetch W "proof_00000001.png" "10.0.0.7" None;
                 Report "s1"] one_session) !! "s1" = Some s'
    /\ Main.persona s' = Main.persona s
    /\ Main.history s `prefix_of` Main.history s'
    /\ Main.traps_triggered s `prefix_of` Main.traps_triggered s'
    /\ Main.ip_log s `prefix_of` Main.ip_log s'.
Proof.
  apply (sessions_only_grow ascii_lower
           [Chat (plain_world "00000001" (says "ok"))
              (chat_req "s1" "send the screenshot");
            Upload (plain_world "00000001" (says "ok")) "s1" voice_note;
            Fetch (plain_world "00000001" (says "ok")) "proof_00000001.png"
              "10.0.0.7" None;
            Report "s1"] one_session "s1"
           (Main.new_session (first_match ascii_lower "hello"))).
  reflexivity.
Defined.

Lemma get_proof_logs_the_visit_witness :
  let W := plain_world "00000001" (says "ok") in
  let s := Main.new_session (first_match ascii_lower "hello") in
  exists s',
    Main.sessions (snd (Main.get_proof W "proof_00000001.png" "10.0.0.7"
                     (Some "curl/8.0") one_session)) !! "s1"
    = Some s'
    /\ Main.ip_log s'
       = Main.ip_log s
         ++ (if bool_decide ("proof_00000001.png"
                             ∈ Main.file <$> Main.traps_triggered s)
             then [visit "10.0.0.7" (Some "curl/8.0")] else [])
    /\ Main.history s' = Main.history s
    /\ Main.traps_triggered s' = Main.traps_triggered s
    /\ Main.persona s' = Main.persona s
    /\ Main.extracted_upi s' = Main.extracted_upi s
    /\ Main.last_classification s' = Main.last_classification s
    /\ fst (Main.get_proof W "proof_00000001.png" "10.0.0.7"
              (Some "curl/8.0") one_session)
       = if Main.file_exists W "proof_00000001.png"
         then Ret ("static/" +:+ "proof_00000001.png")
         else Raise (HTTPException 404 "File not found").
Proof.
  apply (get_proof_logs_the_visit (plain_world "00000001" (says "ok"))
           "proof_00000001.png" "10.0.0.7" (Some "curl/8.0") one_session
           "s1" (Main.new_session (first_match ascii_lower "hello"))).
  reflexivity.
Defined.

Lemma trap_visit_reaches_report_witness :
  let W := plain_world "00000001" (says "ok") in
  let req := chat_req "s1" "send the screenshot" in
  exists rep,
    Main.get_report "s1"
      (snd (Main.get_proof W ("proof_" +:+ Main.uuid_hex8 W +:+ ".png")
              "10.0.0.7" (Some "curl/8.0")
              (after ascii_lower W req fresh_app)))
    = Ret rep
    /\ last (Main.traps_deployed rep) = Some (trap_record W)
    /\ last (Main.scammer_ip_logs rep) = Some (visit "10.0.0.7" (Some "curl/8.0"))
    /\ Main.persona_used rep
       = PersonaManager.name
           (Main.persona (current_session ascii_lower req fresh_app)).
Proof.
  apply (trap_visit_reaches_report ascii_lower
           (plain_world "00000001" (says "ok"))
           (plain_world "00000001" (says "ok"))
           (chat_req "s1" "send the screenshot") fresh_app
           "10.0.0.7" (Some "curl/8.0")).
  vm_compute. reflexivity.
Defined.
